(** * covizu beadplot: collapsing, annotating and serialising a consensus tree

    A shallow embedding of [covizu/beadplot.py].  The Python code mutates
    Bio.Phylo clade objects in place and keys a dictionary by object identity,
    so the tree lives in a store of clade records addressed by object id, and
    every function threads that store explicitly.  Python exceptions are the
    [Raise] results of a small error monad; the semantics is that of
    Python 3, where an order comparison with [None] is a TypeError.

    Branch lengths and supports are rationals: the code only compares and
    rounds them.  The traversals of Bio.Phylo take fuel, since a store can
    hold a cycle; a well-formed tree has enough with finitely much. *)

From stdpp Require Import gmap strings list sorting.
From Stdlib Require Import Ascii DecimalString DecimalNat QArith.
#[local] Close Scope Q_scope.

(** ** Exceptions and results *)

Inductive exn : Set :=
  | TypeError        (* None compared, joined, rounded or searched *)
  | KeyError         (* a dictionary has no such key *)
  | ValueError       (* list.remove(x): x not in list *)
  | AttributeError   (* a clade that was never annotated has no labels *)
  | IndexError       (* a label with fewer than four fields *)
  | OutOfFuel.       (* the traversal did not finish within its fuel *)

Inductive result (A : Type) : Type :=
  | Ok (a : A)
  | Raise (e : exn).
Arguments Ok {A} a.
Arguments Raise {A} e.

#[global] Instance result_ret : MRet result := λ A a, Ok a.
#[global] Instance result_bind : MBind result := λ A B f r,
  match r with
  | Ok a => f a
  | Raise e => Raise e
  end.

(** [for x in xs: body] over a state that the body may update or abort. *)
Fixpoint for_each {A S : Type} (xs : list A) (body : A → S → result S)
    (s : S) : result S :=
  match xs with
  | [] => Ok s
  | x :: xs' => s' ← body x s; for_each xs' body s'
  end.

(** The concatenation of the results of a fallible function over a list. *)
Fixpoint concat_mapM {A B : Type} (f : A → result (list B)) (xs : list A)
    : result (list B) :=
  match xs with
  | [] => Ok []
  | x :: xs' => l ← f x; r ← concat_mapM f xs'; Ok (l ++ r)
  end.

(** ** Data model *)

(** A Bio.Phylo clade as this module uses it.  [labels] is the attribute that
    [annotate_tree] adds; [None] there means the attribute is not set. *)
Record Clade : Type := mkClade {
  name : option string;
  branch_length : option Q;
  confidence : option Q;
  clades : list nat;
  labels : option (list string)
}.

Definition set_name (c : Clade) (n : option string) : Clade :=
  mkClade n (branch_length c) (confidence c) (clades c) (labels c).
Definition set_clades (c : Clade) (cs : list nat) : Clade :=
  mkClade (name c) (branch_length c) (confidence c) cs (labels c).
Definition set_labels (c : Clade) (ls : list string) : Clade :=
  mkClade (name c) (branch_length c) (confidence c) (clades c) (Some ls).

#[global] Instance Clade_inhabited : Inhabited Clade :=
  populate (mkClade None None None [] None).

(** The object store, and a tree as a store with the id of its root clade.
    A reference in Python is never dangling; an id that the store lacks reads
    as a clade without name, length or children. *)
Abbreviation heap := (gmap nat Clade).

Record Tree : Type := mkTree {
  store : heap;
  root : nat
}.

(** [x > y] on branch lengths. *)
Definition float_gt (x y : Q) : bool := negb (Qle_bool x y).

(** [clade.is_terminal()]: no children. *)
Definition is_terminal (h : heap) (v : nat) : bool :=
  match clades (h !!! v) with
  | [] => true
  | _ :: _ => false
  end.

(** ** Traversals of Bio.Phylo *)

(** Depth-first, parent before children; [fuel] bounds the recursion depth. *)
Fixpoint preorder_traverse (fuel : nat) (h : heap) (v : nat)
    : result (list nat) :=
  match fuel with
  | O => Raise OutOfFuel
  | S fuel' =>
      rest ← concat_mapM (preorder_traverse fuel' h) (clades (h !!! v));
      Ok (v :: rest)
  end.

(** Breadth-first with a queue; [fuel] bounds the number of nodes taken. *)
Fixpoint level_traverse (fuel : nat) (h : heap) (queue : list nat)
    : result (list nat) :=
  match queue with
  | [] => Ok []
  | v :: queue' =>
      match fuel with
      | O => Raise OutOfFuel
      | S fuel' =>
          rest ← level_traverse fuel' h (queue' ++ clades (h !!! v));
          Ok (v :: rest)
      end
  end.

Definition find_clades_level (fuel : nat) (tree : Tree) : result (list nat) :=
  level_traverse fuel (store tree) [root tree].

Definition get_terminals (fuel : nat) (tree : Tree) : result (list nat) :=
  all ← preorder_traverse fuel (store tree) (root tree);
  Ok (filter (λ v, is_terminal (store tree) v = true) all).

Definition get_nonterminals (fuel : nat) (tree : Tree) : result (list nat) :=
  all ← preorder_traverse fuel (store tree) (root tree);
  Ok (filter (λ v, is_terminal (store tree) v = false) all).

(** ** get_parents *)

(** [for child in clade: parents.update({child: clade})] *)
Definition index_children (clade : nat) (children : list nat)
    (parents : gmap nat nat) : gmap nat nat :=
  foldl (λ ps child, <[child := clade]> ps) parents children.

Definition get_parents (fuel : nat) (tree : Tree) : result (gmap nat nat) :=
  order ← find_clades_level fuel tree;
  Ok (foldl (λ parents clade,
              index_children clade (clades (store tree !!! clade)) parents)
            ∅ order).

(** ** collapse_polytomies *)

(** [l.remove(x)]: drops the first occurrence, ValueError when there is none. *)
Fixpoint list_remove (x : nat) (l : list nat) : result (list nat) :=
  match l with
  | [] => Raise ValueError
  | y :: l' =>
      if decide (y = x) then Ok l'
      else r ← list_remove x l'; Ok (y :: r)
  end.

(** ['|'.join([a, b])]. *)
Definition join_bar (a b : string) : string := a +:+ "|" +:+ b.

(** Body of the first loop, for one tip of the snapshot. *)
Definition prune_tip (minlen : Q) (parents : gmap nat nat) (tip : nat)
    (h : heap) : result heap :=
  match branch_length (h !!! tip) with
  | None => Raise TypeError
  | Some b =>
      if float_gt b minlen then Ok h
      else
        match parents !! tip with
        | None => Raise KeyError
        | Some parent =>
            cs ← list_remove tip (clades (h !!! parent));
            let h1 := <[parent := set_clades (h !!! parent) cs]> h in
            match name (h1 !!! parent) with
            | None =>
                Ok (<[parent := set_name (h1 !!! parent) (name (h1 !!! tip))]> h1)
            | Some pn =>
                match name (h1 !!! tip) with
                | None => Raise TypeError
                | Some tn =>
                    Ok (<[parent := set_name (h1 !!! parent)
                                      (Some (join_bar pn tn))]> h1)
                end
            end
        end
  end.

(** [if node.name:] is false for None and for the empty string. *)
Definition truthy_name (n : option string) : option string :=
  match n with
  | Some "" => None
  | other => other
  end.

(** Body of the second loop, for one node of the snapshot; the state is the
    store together with the parent index, which the loop keeps up to date. *)
Definition splice_node (minlen : Q) (root : nat) (node : nat)
    (st : heap * gmap nat nat) : result (heap * gmap nat nat) :=
  let '(h, parents) := st in
  match branch_length (h !!! node) with
  | None => Ok st
  | Some b =>
      if float_gt b minlen || bool_decide (node = root) then Ok st
      else
        match parents !! node with
        | None => Raise KeyError
        | Some parent =>
            cs ← list_remove node (clades (h !!! parent));
            let h1 := <[parent := set_clades (h !!! parent) cs]> h in
            let h2 := <[parent := set_clades (h1 !!! parent)
                         (clades (h1 !!! parent) ++ clades (h1 !!! node))]> h1 in
            let parents' :=
              index_children parent (clades (h2 !!! node)) parents in
            match truthy_name (name (h2 !!! node)) with
            | None => Ok (h2, parents')
            | Some nn =>
                match name (h2 !!! parent) with
                | None =>
                    Ok (<[parent := set_name (h2 !!! parent) (Some nn)]> h2,
                        parents')
                | Some pn =>
                    Ok (<[parent := set_name (h2 !!! parent)
                                      (Some (join_bar pn nn))]> h2,
                        parents')
                end
            end
        end
  end.

(** The first loop: [for tip in tree.get_terminals(): ...] *)
Definition prune_tips (fuel : nat) (tree : Tree) (minlen : Q)
    (parents : gmap nat nat) : result heap :=
  tips ← get_terminals fuel tree;
  for_each tips (prune_tip minlen parents) (store tree).

(** The second loop: [for node in tree.get_nonterminals(): ...] *)
Definition splice_nodes (fuel : nat) (tree : Tree) (minlen : Q)
    (parents : gmap nat nat) : result (heap * gmap nat nat) :=
  nodes ← get_nonterminals fuel tree;
  for_each nodes (splice_node minlen (root tree)) (store tree, parents).

Definition collapse_polytomies (fuel : nat) (tree : Tree) (minlen : Q)
    : result Tree :=
  parents ← get_parents fuel tree;
  h1 ← prune_tips fuel tree minlen parents;
  st ← splice_nodes fuel (mkTree h1 (root tree)) minlen parents;
  Ok (mkTree st.1 (root tree)).

(** ** annotate_tree *)

(** [s.split('|')]: the fields between the bars; never empty. *)
Fixpoint split_bar (s : string) : list string :=
  match s with
  | EmptyString => [EmptyString]
  | String c s' =>
      if Ascii.eqb c "|"%char then EmptyString :: split_bar s'
      else
        match split_bar s' with
        | [] => [String c EmptyString]
        | w :: ws => String c w :: ws
        end
  end.

(** ['|' in s] *)
Fixpoint contains_bar (s : string) : bool :=
  match s with
  | EmptyString => false
  | String c s' => Ascii.eqb c "|"%char || contains_bar s'
  end.

(** [label_dict[k]] *)
Definition getitem (label_dict : gmap string (list string)) (k : string)
    : result (list string) :=
  match label_dict !! k with
  | Some v => Ok v
  | None => Raise KeyError
  end.

(** [labels = []; for k in keys: labels.extend(label_dict[k])] *)
Definition extend_labels (label_dict : gmap string (list string))
    (keys : list string) : result (list string) :=
  concat_mapM (getitem label_dict) keys.

(** What the callback is told; the sets are kept as sets, not as text. *)
Inductive message : Type :=
  | MismatchDetected
  | TipLabels (tips : gset (option string))
  | LabelKeys (keys : gset string)
  | SetDiff (diff : gset (option string)).

(** The validation at the head of [annotate_tree]: the names of the tips
    without an entry in the table, and the calls made to the callback, if
    there is one ([callback = true]). *)
Definition set_diff (tip_names : list (option string))
    (label_dict : gmap string (list string)) : gset (option string) :=
  list_to_set tip_names ∖ set_map Some (dom label_dict).

Definition validate (tip_names : list (option string))
    (label_dict : gmap string (list string)) (callback : bool)
    : list message :=
  let diff := set_diff tip_names label_dict in
  if bool_decide (diff ≠ ∅) && callback then
    [ MismatchDetected; TipLabels (list_to_set tip_names);
      LabelKeys (dom label_dict); SetDiff diff ]
  else [].

(** Body of the loop over the terminals of the collapsed tree. *)
Definition annotate_tip (label_dict : gmap string (list string)) (tip : nat)
    (h : heap) : result heap :=
  match name (h !!! tip) with
  | None => Raise TypeError
  | Some n =>
      if contains_bar n then
        ls ← extend_labels label_dict (split_bar n);
        Ok (<[tip := set_labels (h !!! tip) ls]> h)
      else
        ls ← getitem label_dict n;
        Ok (<[tip := set_labels (h !!! tip) ls]> h)
  end.

(** Body of the loop over the non-terminals of the collapsed tree. *)
Definition annotate_node (label_dict : gmap string (list string)) (node : nat)
    (h : heap) : result heap :=
  match name (h !!! node) with
  | None =>
      Ok (<[node := set_name (set_labels (h !!! node) []) (Some EmptyString)]> h)
  | Some n =>
      ls ← extend_labels label_dict (split_bar n);
      Ok (<[node := set_labels (h !!! node) ls]> h)
  end.

(** The tree after validation: collapse, then label tips, then label the
    internal nodes. *)
Definition annotate_collapsed (fuel : nat) (tree : Tree)
    (label_dict : gmap string (list string)) (minlen : Q) : result Tree :=
  tree ← collapse_polytomies fuel tree minlen;
  tips ← get_terminals fuel tree;
  h1 ← for_each tips (annotate_tip label_dict) (store tree);
  nodes ← get_nonterminals fuel (mkTree h1 (root tree));
  h2 ← for_each nodes (annotate_node label_dict) h1;
  Ok (mkTree h2 (root tree)).

(** [annotate_tree] returns the calls made to the callback with its result. *)
Definition annotate_tree (fuel : nat) (tree : Tree)
    (label_dict : gmap string (list string)) (minlen : Q) (callback : bool)
    : list message * result Tree :=
  match get_terminals fuel tree with
  | Raise e => ([], Raise e)
  | Ok tips =>
      (validate ((λ tip, name (store tree !!! tip)) <$> tips) label_dict callback,
       annotate_collapsed fuel tree label_dict minlen)
  end.

(** ** serialize_tree *)

(** [a <= b] on strings and on lists of strings, as Python orders them. *)
Definition str_leb (a b : string) : bool :=
  match String.compare a b with
  | Gt => false
  | _ => true
  end.

Fixpoint row_compare (a b : list string) : comparison :=
  match a, b with
  | [], [] => Eq
  | [], _ :: _ => Lt
  | _ :: _, [] => Gt
  | x :: a', y :: b' =>
      match String.compare x y with
      | Eq => row_compare a' b'
      | c => c
      end
  end.

Definition row_leb (a b : list string) : bool :=
  match row_compare a b with
  | Gt => false
  | _ => true
  end.

(** [rows.sort()], as a stable insertion sort. *)
Fixpoint insert_row (r : list string) (rows : list (list string))
    : list (list string) :=
  match rows with
  | [] => [r]
  | r' :: rows' =>
      if row_leb r r' then r :: rows else r' :: insert_row r rows'
  end.

Fixpoint sort_rows (rows : list (list string)) : list (list string) :=
  match rows with
  | [] => []
  | r :: rows' => insert_row r (sort_rows rows')
  end.

(** [str(n)] for a count. *)
Definition str_nat (n : nat) : string :=
  DecimalString.NilZero.string_of_uint (Nat.to_uint n).

(** [round(x, 2)]: to the nearest hundredth, ties to the even one.  The value
    is the exact decimal; Python then takes the float next to it. *)
Definition round2 (x : Q) : Q :=
  let n := (100 * Qnum x)%Z in
  let d := Zpos (Qden x) in
  let q := (n / d)%Z in
  let up :=
    match (2 * (n mod d) ?= d)%Z with
    | Lt => false
    | Gt => true
    | Eq => Z.odd q
    end in
  Qmake (if up then q + 1 else q) 100.

(** An edge: parent id, child id, rounded branch length, node support. *)
Definition edge : Type := string * string * Q * option Q.

Record graph : Type := mkGraph {
  nodes : gmap string (list (list string));
  edges : list edge
}.

(** The variables of the loop of [serialize_tree]. *)
Record ser_state : Type := mkSer {
  obj : graph;
  variant_d : gmap nat string;
  us_count : nat
}.

(** [intermed], sorted: the reversed fields of every label. *)
Definition sorted_samples (ls : list string) : list (list string) :=
  sort_rows ((λ label, reverse (split_bar label)) <$> ls).

(** [intermed[0][3]] *)
Definition earliest_accession (intermed : list (list string))
    : result string :=
  match intermed with
  | [] => Raise IndexError
  | first :: _ =>
      match first !! 3%nat with
      | Some acc => Ok acc
      | None => Raise IndexError
      end
  end.

(** The identifier of a node with labels [ls] and its samples, with the
    count of unsampled nodes after it. *)
Definition assign_variant (ls : list string) (count : nat)
    : result (string * list (list string) * nat) :=
  match ls with
  | _ :: _ =>
      let intermed := sorted_samples ls in
      variant ← earliest_accession intermed;
      Ok (variant, intermed, count)
  | [] => Ok ("unsampled" +:+ str_nat count, [], S count)
  end.

(** Body of the loop of [serialize_tree], for one node in level order. *)
Definition serialize_node (h : heap) (root : nat) (parents : gmap nat nat)
    (node : nat) (s : ser_state) : result ser_state :=
  match labels (h !!! node) with
  | None => Raise AttributeError
  | Some ls =>
      '(variant, payload, count) ← assign_variant ls (us_count s);
      let nodes' := <[variant := payload]> (nodes (obj s)) in
      let variant_d' := <[node := variant]> (variant_d s) in
      if bool_decide (node = root) then
        Ok (mkSer (mkGraph nodes' (edges (obj s))) variant_d' count)
      else
        match parents !! node with
        | None => Raise KeyError
        | Some parent =>
            match variant_d' !! parent with
            | None => Raise KeyError
            | Some parent_variant =>
                match branch_length (h !!! node) with
                | None => Raise TypeError
                | Some b =>
                    Ok (mkSer
                          (mkGraph nodes'
                             (edges (obj s) ++
                              [(parent_variant, variant, round2 b,
                                confidence (h !!! node))]))
                          variant_d' count)
                end
            end
        end
  end.

(** The loop of [serialize_tree], with the variables it ends with. *)
Definition serialize_loop (fuel : nat) (tree : Tree) : result ser_state :=
  parents ← get_parents fuel tree;
  order ← find_clades_level fuel tree;
  for_each order (serialize_node (store tree) (root tree) parents)
    (mkSer (mkGraph ∅ []) ∅ 0).

Definition serialize_tree (fuel : nat) (tree : Tree) : result graph :=
  s ← serialize_loop fuel tree;
  Ok (obj s).

(** ** Example trees *)

Definition tip_clade (n : string) (b : Q) : Clade :=
  mkClade (Some n) (Some b) None [] None.
Definition inner_clade (n : option string) (b : option Q) (cs : list nat)
    : Clade :=
  mkClade n b None cs None.

(** [((A:0,B:0.6):0.3,(C:0.2,D:0.1):0.05);] *)
Definition four_tips : Tree :=
  mkTree (list_to_map
            [ (0, inner_clade None None [1; 4]);
              (1, inner_clade None (Some (3#10)%Q) [2; 3]);
              (2, tip_clade "A" 0);
              (3, tip_clade "B" (6#10)%Q);
              (4, inner_clade None (Some (5#100)%Q) [5; 6]);
              (5, tip_clade "C" (2#10)%Q);
              (6, tip_clade "D" (1#10)%Q) ])
         0.

(** The same objects after one run with [minlen = 0.5], and after two. *)
Definition four_tips_collapsed : Tree :=
  mkTree (list_to_map
            [ (0, inner_clade (Some "A") None [4; 3]);
              (1, inner_clade (Some "A") (Some (3#10)%Q) [3]);
              (2, tip_clade "A" 0);
              (3, tip_clade "B" (6#10)%Q);
              (4, inner_clade (Some "C|D") (Some (5#100)%Q) []);
              (5, tip_clade "C" (2#10)%Q);
              (6, tip_clade "D" (1#10)%Q) ])
         0.

Definition four_tips_twice : Tree :=
  mkTree (<[0 := inner_clade (Some "A|C|D") None [3]]>
            (store four_tips_collapsed))
         0.

(** [((A:0,B:0.6):0.3,C:0.7);] and what one run with [minlen = 0.5] leaves. *)
Definition three_tips : Tree :=
  mkTree (list_to_map
            [ (0, inner_clade None None [1; 4]);
              (1, inner_clade None (Some (3#10)%Q) [2; 3]);
              (2, tip_clade "A" 0);
              (3, tip_clade "B" (6#10)%Q);
              (4, tip_clade "C" (7#10)%Q) ])
         0.

Definition three_tips_collapsed : Tree :=
  mkTree (list_to_map
            [ (0, inner_clade (Some "A") None [4; 3]);
              (1, inner_clade (Some "A") (Some (3#10)%Q) [3]);
              (2, tip_clade "A" 0);
              (3, tip_clade "B" (6#10)%Q);
              (4, tip_clade "C" (7#10)%Q) ])
         0.

(** The depth of the clades of these trees, by object id. *)
Definition depth_of (ds : list nat) (v : nat) : nat := default 0 (ds !! v).

(** [(A,B);], a tree without branch lengths. *)
Definition no_lengths : Tree :=
  mkTree (list_to_map
            [ (0, inner_clade None None [1; 2]);
              (1, mkClade (Some "A") None None [] None);
              (2, mkClade (Some "B") None None [] None) ])
         0.

(** The store of [four_tips] between the two loops, with [minlen = 0.5]. *)
Definition four_tips_pruned : heap :=
  list_to_map
    [ (0, inner_clade None None [1; 4]);
      (1, inner_clade (Some "A") (Some (3#10)%Q) [3]);
      (2, tip_clade "A" 0);
      (3, tip_clade "B" (6#10)%Q);
      (4, inner_clade (Some "C|D") (Some (5#100)%Q) []);
      (5, tip_clade "C" (2#10)%Q);
      (6, tip_clade "D" (1#10)%Q) ].

Definition four_tips_parents : gmap nat nat :=
  list_to_map [ (1, 0); (4, 0); (2, 1); (3, 1); (5, 4); (6, 4) ].

(** A label table for the four tips. *)
Definition four_labels : gmap string (list string) :=
  list_to_map
    [ ("A", ["A|acc1|r|c|2021-01-01"; "A2|acc0|r|c|2021-01-03"]);
      ("B", ["B|acc2|r|c|2021-02-01"]);
      ("C", ["C|acc3|r|c|2021-02-01"]);
      ("D", ["D|acc4|r|c|2021-02-01"]) ].

(** The table without the labels of [B]. *)
Definition three_labels : gmap string (list string) :=
  delete "B" four_labels.

(** [(A:0.6,B:0.7)], with the empty string as the name of the root. *)
Definition empty_name : Tree :=
  mkTree (list_to_map
            [ (0, inner_clade (Some EmptyString) None [1; 2]);
              (1, tip_clade "A" (6#10)%Q);
              (2, tip_clade "B" (7#10)%Q) ])
         0.

(** [(A|B:0.6,C:0.7)]: a tip whose own name has a bar. *)
Definition bar_tip : Tree :=
  mkTree (list_to_map
            [ (0, inner_clade None None [1; 2]);
              (1, tip_clade "A|B" (6#10)%Q);
              (2, tip_clade "C" (7#10)%Q) ])
         0.

(** Annotated trees for the serializer. *)
Definition labelled (ls : list string) (b : option Q) (cs : list nat) : Clade :=
  mkClade (Some EmptyString) b None cs (Some ls).

(** One node with the two labels of the spec. *)
Definition two_samples : Tree :=
  mkTree (list_to_map
            [ (0, labelled ["B|acc2|r|c|2021-02-01"; "A|acc1|r|c|2021-01-01"]
                           None []) ])
         0.

(** Three internal nodes without labels above two sampled tips. *)
Definition three_unsampled : Tree :=
  mkTree (list_to_map
            [ (0, labelled [] None [1; 2]);
              (1, labelled [] (Some (6#10)%Q) [3]);
              (2, labelled [] (Some (7#10)%Q) [4]);
              (3, labelled ["A|acc1|r|c|2021-01-01"] (Some (8#10)%Q) []);
              (4, labelled ["B|acc2|r|c|2021-02-01"] (Some (9#10)%Q) []) ])
         0.

(** A root and a tip whose earliest samples have the same accession. *)
Definition shared_accession : Tree :=
  mkTree (list_to_map
            [ (0, labelled ["A|acc1|r|c|2021-01-01"] None [1; 2]);
              (1, labelled ["Z|acc1|r|c|2020-12-31"; "Y|acc9|r|c|2021-03-01"]
                           (Some (6#10)%Q) []);
              (2, labelled ["B|acc2|r|c|2021-02-01"] (Some (7#10)%Q) []) ])
         0.

(** ** Well-formed trees *)

(** The clades that a traversal from [r] meets. *)
Inductive reachable (h : heap) (r : nat) : nat → Prop :=
  | reach_root : reachable h r r
  | reach_child p c :
      reachable h r p → c ∈ clades (h !!! p) → reachable h r c.

(** A rooted, ordered tree in the store: a finite set [L] of clades closed
    under children, in which depth grows from parent to child, no clade is
    listed twice or by two parents, and the root is nobody's child. *)
Record tree_cert (h : heap) (r : nat) (depth : nat → nat) (L : gset nat)
    : Prop := {
  cert_root : r ∈ L;
  cert_closed : ∀ p c, p ∈ L → c ∈ clades (h !!! p) → c ∈ L;
  cert_depth : ∀ p c, p ∈ L → c ∈ clades (h !!! p) → depth p < depth c;
  cert_nodup : ∀ p, p ∈ L → NoDup (clades (h !!! p));
  cert_parent : ∀ p q c, p ∈ L → q ∈ L →
      c ∈ clades (h !!! p) → c ∈ clades (h !!! q) → p = q;
  cert_root_top : ∀ p, p ∈ L → r ∉ clades (h !!! p)
}.

Definition well_formed (t : Tree) : Prop :=
  ∃ depth L, tree_cert (store t) (root t) depth L.

(** A checker for [tree_cert] on a listed set of clades. *)
Definition check_tree (t : Tree) (depth : nat → nat) (L : list nat) : bool :=
  bool_decide (root t ∈ L) &&
  forallb (λ p,
    let cs := clades (store t !!! p) in
    bool_decide (NoDup cs) && bool_decide (root t ∉ cs) &&
    forallb (λ c, bool_decide (c ∈ L) && (depth p <? depth c)) cs &&
    forallb (λ q, bool_decide (p = q) ||
                  forallb (λ c, bool_decide (c ∉ clades (store t !!! q))) cs) L)
    L.

(** The state of the two loops of [collapse_polytomies]: the clades [L] still
    in the tree and those [D] already taken out, with a parent index that is
    right for every child of a clade of [L]. *)
Record collapsing (r : nat) (depth : nat → nat) (h : heap)
    (ps : gmap nat nat) (L D : gset nat) : Prop := {
  col_root : r ∈ L;
  col_closed : ∀ p c, p ∈ L → c ∈ clades (h !!! p) → c ∈ L;
  col_depth : ∀ p c, p ∈ L → c ∈ clades (h !!! p) → depth p < depth c;
  col_nodup : ∀ p, p ∈ L → NoDup (clades (h !!! p));
  col_index : ∀ p c, p ∈ L → c ∈ clades (h !!! p) → ps !! c = Some p;
  col_root_top : ps !! r = None;
  col_dead : ∀ d p, d ∈ D → ps !! d = Some p → d ∉ clades (h !!! p);
  col_disj : ∀ v, v ∈ L → v ∉ D;
  col_parent : ∀ v, v ∈ L → v ≠ r →
      ∃ p, ps !! v = Some p ∧ p ∈ L ∧ v ∈ clades (h !!! p)
}.

(** What holds between the store before and after a loop. *)
Definition same_lengths (h h' : heap) : Prop :=
  ∀ v, branch_length (h' !!! v) = branch_length (h !!! v).
Definition tips_stay (h h' : heap) : Prop :=
  ∀ v, clades (h !!! v) = [] → h' !!! v = h !!! v.

(** ** The name rule of the spec *)

(** "If the parent has no name, adopt the tip's name; otherwise append it,
    joined by [|]": the name of a parent once the name [n] is folded in. *)
Definition folded_name (parent_name : option string) (n : string) : string :=
  match parent_name with
  | None => n
  | Some pn => pn +:+ "|" +:+ n
  end.

(** ** The annotated tree *)

(** What the clades of the collapsed tree are after the two loops. *)
Definition annotated (d : gmap string (list string)) (tc : Tree)
    (v : nat) (c : Clade) : Prop :=
  match name (store tc !!! v) with
  | None =>
      is_terminal (store tc) v = false ∧
      c = set_name (set_labels (store tc !!! v) []) (Some EmptyString)
  | Some n =>
      ∃ ls, extend_labels d (split_bar n) = Ok ls ∧
            c = set_labels (store tc !!! v) ls
  end.


(** ** The serialized graph *)

(** A node without labels after annotation. *)
Definition unsampled (h : heap) (v : nat) : Prop := labels (h !!! v) = Some [].

#[global] Instance unsampled_dec h v : Decision (unsampled h v).
Proof. unfold unsampled. apply _. Defined.

(** The samples that the serializer records for a node. *)
Definition payload_of (h : heap) (v : nat) : list (list string) :=
  match labels (h !!! v) with
  | Some (l :: ls) => sorted_samples (l :: ls)
  | _ => []
  end.

(** Ascending order of the rows. *)
Definition row_le (a b : list string) : Prop := row_leb a b = true.

(** What the loop of [serialize_tree] has reached after the nodes [xs], in
    the store [h] of a tree with root [r]. *)
Record serialized (h : heap) (r : nat) (xs : list nat) (s : ser_state)
    : Prop := {
  ser_fresh : ∀ v, v ∉ xs → variant_d s !! v = None;
  ser_count : us_count s = length (filter (unsampled h) xs);
  ser_unsampled : ∀ k node,
      filter (unsampled h) xs !! k = Some node →
      variant_d s !! node = Some ("unsampled" +:+ str_nat k);
  ser_sampled : ∀ node ls,
      node ∈ xs → labels (h !!! node) = Some ls → ls ≠ [] →
      ∃ v, earliest_accession (sorted_samples ls) = Ok v ∧
           variant_d s !! node = Some v;
  ser_last : ∀ node v,
      variant_d s !! node = Some v →
      ∃ l1 last l2, xs = l1 ++ last :: l2 ∧
        variant_d s !! last = Some v ∧
        nodes (obj s) !! v = Some (payload_of h last) ∧
        ∀ n', n' ∈ l2 → variant_d s !! n' ≠ Some v;
  ser_all : ∀ node, node ∈ xs → is_Some (variant_d s !! node);
  ser_keys : ∀ v,
      is_Some (nodes (obj s) !! v) →
      ∃ node, node ∈ xs ∧ variant_d s !! node = Some v;
  ser_edges : ∀ node v,
      node ∈ xs → node ≠ r → variant_d s !! node = Some v →
      ∃ pv b c, (pv, v, b, c) ∈ edges (obj s)
}.

(** ** parse_labels *)

(** A row is the dictionary that [csv.DictReader] yields for one line of the
    file, read here at the two columns that the code looks up.  The code
    works for any hashable kind [V] of field: a string, or the [None] that
    the reader puts where a line is short. *)
Section parse_labels.
Context {V : Type} `{Countable V}.

(** [row[col]] *)
Definition row_get (row : gmap string V) (col : string) : result V :=
  match row !! col with
  | Some v => Ok v
  | None => Raise KeyError
  end.

(** Body of the loop of [parse_labels], for one row. *)
Definition parse_row (row : gmap string V) (results : gmap V (list V))
    : result (gmap V (list V)) :=
  idx ← row_get row "index";
  let results1 :=
    match results !! idx with
    | None => <[idx := []]> results
    | Some _ => results
    end in
  match results1 !! idx with
  | None => Raise KeyError
  | Some l =>
      nm ← row_get row "name";
      Ok (<[idx := l ++ [nm]]> results1)
  end.

Definition parse_labels (rows : list (gmap string V))
    : result (gmap V (list V)) :=
  for_each rows parse_row ∅.

(** The names of the rows whose index is [k], in the order of the file. *)
Definition names_with_index (k : V) (rows : list (gmap string V))
    : list V :=
  omap (λ row,
          match row !! "index" with
          | Some i => if decide (i = k) then row !! "name" else None
          | None => None
          end) rows.

(** The number of names that a table holds. *)
Definition label_count (results : gmap V (list V)) : nat :=
  map_fold (λ _ l n, length l + n) 0 results.
End parse_labels.

(** ** What collapsing leaves alone *)

(** The branch length, the support and the labels of a clade. *)
Definition clade_data (c : Clade) : option Q * option Q * option (list string) :=
  (branch_length c, confidence c, labels c).

(** ** The identifiers of a name *)

(** The identifiers between the bars of a clade name, the empty ones apart;
    a clade without a name has none. *)
Definition identifiers (n : option string) : list string :=
  match n with
  | None => []
  | Some s => filter (λ k, k ≠ EmptyString) (split_bar s)
  end.

(** The identifiers on the clades [l] of a store, and the labels on them. *)
Definition identifiers_on (h : heap) (l : list nat) : list string :=
  concat ((λ v, identifiers (name (h !!! v))) <$> l).
Definition labels_on (h : heap) (l : list nat) : list string :=
  concat ((λ v, default [] (labels (h !!! v))) <$> l).

(** The labels that a table lists under the identifiers [ks]. *)
Definition labels_of (label_dict : gmap string (list string))
    (ks : list string) : list string :=
  concat ((λ k, default [] (label_dict !! k)) <$> ks).

(** Every identifier between the bars of a name is a key of the table. *)
Definition known_name (label_dict : gmap string (list string)) (n : string)
    : Prop :=
  Forall (λ k, is_Some (label_dict !! k)) (split_bar n).

(** ** The serialized edges *)

(** The edge that [serialize_tree] appends for the node [x], given the parent
    index and the identifiers of the nodes. *)
Definition edge_of (h : heap) (parents : gmap nat nat)
    (ids : gmap nat string) (x : nat) : option edge :=
  p ← parents !! x;
  pv ← ids !! p;
  v ← ids !! x;
  b ← branch_length (h !!! x);
  Some (pv, v, round2 b, confidence (h !!! x)).

(** ** The checks of serialize_tree *)

(** The exception that the body of the loop of [serialize_tree] raises at the
    node [v], if any, in the order of the checks: the labels are not set; the
    earliest of the labels has fewer than the four fields up to the
    accession; the node is not the root and its branch has no length to
    round.  The lookups of the parent are left out: they fail on no node of
    a tree.  The labels of a clade are strings, here as everywhere in this
    file: a label that is [None], as the table has it for a line of the label
    file that is too short to have a name, is no value of [labels], and the
    AttributeError of [label.split] on it is not among the faults. *)
Definition node_fault (t : Tree) (v : nat) : option exn :=
  match labels (store t !!! v) with
  | None => Some AttributeError
  | Some ls =>
      match assign_variant ls 0 with
      | Raise e => Some e
      | Ok _ =>
          if bool_decide (v = root t) then None
          else
            match branch_length (store t !!! v) with
            | None => Some TypeError
            | Some _ => None
            end
      end
  end.

(** ** The command line *)

(** What the module does when it is run: read the table of labels, annotate
    the tree, without a callback, and serialize it.  The tree is the one read
    from the Newick file, or the consensus of the trees in it; the rows are
    those that the reader yields, with strings for fields. *)
Definition main (fuel : nat) (ctree : Tree) (rows : list (gmap string string))
    (minlen : Q) : result graph :=
  label_dict ← parse_labels rows;
  tree ← (annotate_tree fuel ctree label_dict minlen false).2;
  serialize_tree fuel tree.
(** ** More examples *)

(** Three rows of a label file, and the table they make. *)
Definition label_rows : list (gmap string string) :=
  [ {[ "index" := "0"; "name" := "a" ]};
    {[ "index" := "1"; "name" := "b" ]};
    {[ "index" := "0"; "name" := "c" ]} ].

Definition label_table : gmap string (list string) :=
  {[ "0" := ["a"; "c"]; "1" := ["b"] ]}.

(** [four_tips] after [annotate_tree] with [four_labels] and
    [minlen = 0.5]. *)
Definition four_tips_annotated : Tree :=
  mkTree (list_to_map
            [ (0, mkClade (Some "A") None None [4; 3]
                    (Some ["A|acc1|r|c|2021-01-01"; "A2|acc0|r|c|2021-01-03"]));
              (1, inner_clade (Some "A") (Some (3#10)%Q) [3]);
              (2, tip_clade "A" 0);
              (3, mkClade (Some "B") (Some (6#10)%Q) None []
                    (Some ["B|acc2|r|c|2021-02-01"]));
              (4, mkClade (Some "C|D") (Some (5#100)%Q) None []
                    (Some ["C|acc3|r|c|2021-02-01"; "D|acc4|r|c|2021-02-01"]));
              (5, tip_clade "C" (2#10)%Q);
              (6, tip_clade "D" (1#10)%Q) ])
         0.

(** [((A:0.6,B:0.7));]: an inner clade below the root without a branch
    length. *)
Definition unscaled_inner : Tree :=
  mkTree (list_to_map
            [ (0, inner_clade None None [1]);
              (1, inner_clade None None [2; 3]);
              (2, tip_clade "A" (6#10)%Q);
              (3, tip_clade "B" (7#10)%Q) ])
         0.

(** A label file for the four tips. *)
Definition four_rows : list (gmap string string) :=
  [ {[ "index" := "A"; "name" := "A|acc1|r|c|2021-01-01" ]};
    {[ "index" := "A"; "name" := "A2|acc0|r|c|2021-01-03" ]};
    {[ "index" := "B"; "name" := "B|acc2|r|c|2021-02-01" ]};
    {[ "index" := "C"; "name" := "C|acc3|r|c|2021-02-01" ]};
    {[ "index" := "D"; "name" := "D|acc4|r|c|2021-02-01" ]} ].

(** [((A:0,B:0.6):0,(C:0,D:0):0);]: branches of length zero. *)
Definition zero_lengths : Tree :=
  mkTree (list_to_map
            [ (0, inner_clade None None [1; 4]);
              (1, inner_clade None (Some 0%Q) [2; 3]);
              (2, tip_clade "A" 0);
              (3, tip_clade "B" (6#10)%Q);
              (4, inner_clade None (Some 0%Q) [5; 6]);
              (5, tip_clade "C" 0);
              (6, tip_clade "D" 0) ])
         0.
(** * Proofs *)

(** ** The error monad and loops *)

Lemma bind_Ok {A B : Type} (r : result A) (f : A → result B) (b : B) :
  r ≫= f = Ok b → ∃ a, r = Ok a ∧ f a = Ok b.
Proof. destruct r as [a|e]; simpl; [eauto | discriminate]. Qed.

Ltac inv_bind H :=
  let a := fresh "a" in
  let Ha := fresh "Ha" in
  apply bind_Ok in H as (a & Ha & H).

(** A loop invariant over the elements already done. *)
Lemma for_each_inv {A S : Type} (I : list A → S → Prop) (xs : list A)
    (body : A → S → result S) (s s' : S) :
  for_each xs body s = Ok s' →
  I [] s →
  (∀ done x s1 s2, x ∈ xs → I done s1 → body x s1 = Ok s2 →
                   I (done ++ [x]) s2) →
  I xs s'.
Proof.
  intros Hrun H0 Hstep.
  cut (∀ done rest s0, xs = done ++ rest → I done s0 →
         for_each rest body s0 = Ok s' → I xs s').
  { intros Hcut. by apply (Hcut [] xs s). }
  intros done rest. revert done.
  induction rest as [|x rest IH]; intros done s0 Hxs HI Hr; simpl in Hr.
  - rewrite app_nil_r in Hxs. injection Hr as <-. by subst xs.
  - inv_bind Hr.
    apply (IH (done ++ [x]) a).
    + by rewrite <- app_assoc.
    + apply (Hstep done x s0 a); [|done..].
      subst xs. apply elem_of_app. right. apply elem_of_cons. by left.
    + done.
Qed.

(** A loop whose body changes nothing returns its state. *)
Lemma for_each_skip {A S : Type} (xs : list A) (body : A → S → result S)
    (s : S) :
  (∀ x, x ∈ xs → body x s = Ok s) → for_each xs body s = Ok s.
Proof.
  induction xs as [|x xs IH]; intros Hb; [done|]. simpl.
  rewrite Hb; [|apply elem_of_cons; by left]. simpl.
  apply IH. intros y Hy. apply Hb, elem_of_cons. by right.
Qed.

Lemma concat_mapM_Ok {A B : Type} (f : A → result (list B)) xs l :
  concat_mapM f xs = Ok l →
  ∃ ls, Forall2 (λ x lx, f x = Ok lx) xs ls ∧ l = concat ls.
Proof.
  revert l. induction xs as [|x xs IH]; intros l H; simpl in H.
  - injection H as <-. by exists [].
  - inv_bind H. inv_bind H. injection H as <-.
    destruct (IH _ Ha0) as (ls & Hls & ->). exists (a :: ls). split; [|done].
    by constructor.
Qed.

(** ** Sets of clades *)

Lemma elem_of_drop (L : gset nat) x v : v ∈ L ∖ {[x]} ↔ v ∈ L ∧ v ≠ x.
Proof. by rewrite elem_of_difference, not_elem_of_singleton. Qed.

Lemma elem_of_add (D : gset nat) x v : v ∈ D ∪ {[x]} ↔ v ∈ D ∨ v = x.
Proof. by rewrite elem_of_union, elem_of_singleton. Qed.

(** ** list.remove *)

Lemma list_remove_Ok x l l' :
  list_remove x l = Ok l' →
  x ∈ l ∧ (∀ y, y ∈ l' → y ∈ l) ∧ (∀ y, y ∈ l → y ≠ x → y ∈ l').
Proof.
  revert l'. induction l as [|y l IH]; intros l' H; simpl in H; [done|].
  destruct (decide (y = x)) as [->|Hne].
  - injection H as <-. split; [apply elem_of_cons; by left|]. split.
    + intros z Hz. apply elem_of_cons. by right.
    + intros z Hz Hzx. apply elem_of_cons in Hz as [?|?]; [done|done].
  - inv_bind H. injection H as <-. destruct (IH _ Ha) as (Hx & Hsub & Hsup).
    split; [apply elem_of_cons; by right|]. split.
    + intros z Hz. apply elem_of_cons in Hz as [->|Hz];
        apply elem_of_cons; [by left | right; by apply Hsub].
    + intros z Hz Hzx. apply elem_of_cons in Hz as [->|Hz];
        apply elem_of_cons; [by left | right; by apply Hsup].
Qed.

Lemma list_remove_NoDup x l l' :
  list_remove x l = Ok l' → NoDup l → NoDup l' ∧ x ∉ l'.
Proof.
  revert l'. induction l as [|y l IH]; intros l' H Hnd; simpl in H; [done|].
  apply NoDup_cons in Hnd as [Hy Hnd].
  destruct (decide (y = x)) as [->|Hne].
  - injection H as <-. done.
  - inv_bind H. injection H as <-. destruct (IH _ Ha Hnd) as [Hnd' Hx].
    pose proof (list_remove_Ok _ _ _ Ha) as (_ & Hsub & _).
    split.
    + apply NoDup_cons. split; [|done]. intros Hin. apply Hy. by apply Hsub.
    + intros Hin. apply elem_of_cons in Hin as [->|Hin]; [done|]. by apply Hx.
Qed.

Lemma list_remove_in x l : x ∈ l → ∃ l', list_remove x l = Ok l'.
Proof.
  induction l as [|y l IH]; intros Hin; [by apply elem_of_nil in Hin|].
  simpl. destruct (decide (y = x)) as [->|Hne]; [eauto|].
  apply elem_of_cons in Hin as [->|Hin]; [done|].
  destruct (IH Hin) as [l' ->]. simpl. eauto.
Qed.

(** ** The parent index *)

Lemma index_children_lookup p cs ps x :
  index_children p cs ps !! x = if decide (x ∈ cs) then Some p else ps !! x.
Proof.
  unfold index_children. revert ps.
  induction cs as [|c cs IH]; intros ps; simpl.
  - destruct (decide (x ∈ [])) as [Hin|_]; [by apply elem_of_nil in Hin|done].
  - rewrite IH. destruct (decide (x ∈ cs)) as [Hin|Hnin].
    + rewrite decide_True; [done|]. apply elem_of_cons. by right.
    + destruct (decide (x = c)) as [->|Hne].
      * rewrite lookup_insert_eq. rewrite decide_True; [done|].
        apply elem_of_cons. by left.
      * rewrite lookup_insert_ne; [|done]. rewrite decide_False; [done|].
        intros Hin. apply elem_of_cons in Hin as [?|?]; done.
Qed.

(** ** Traversals *)

Lemma concat_mapM_elem {A B : Type} (f : A → result (list B)) xs l y :
  concat_mapM f xs = Ok l → y ∈ l →
  ∃ x lx, x ∈ xs ∧ f x = Ok lx ∧ y ∈ lx.
Proof.
  revert l. induction xs as [|x xs IH]; intros l H Hy; simpl in H.
  - injection H as <-. by apply elem_of_nil in Hy.
  - inv_bind H. inv_bind H. injection H as <-.
    apply elem_of_app in Hy as [Hy|Hy].
    + exists x, a. split; [apply elem_of_cons; by left|done].
    + destruct (IH _ Ha0 Hy) as (x' & lx & Hx' & Hf & Hin).
      exists x', lx. split; [apply elem_of_cons; by right|done].
Qed.

Lemma concat_mapM_part {A B : Type} (f : A → result (list B)) xs l x :
  concat_mapM f xs = Ok l → x ∈ xs →
  ∃ lx, f x = Ok lx ∧ ∀ y, y ∈ lx → y ∈ l.
Proof.
  revert l. induction xs as [|x' xs IH]; intros l H Hx; simpl in H.
  - by apply elem_of_nil in Hx.
  - inv_bind H. inv_bind H. injection H as <-.
    apply elem_of_cons in Hx as [->|Hx].
    + exists a. split; [done|]. intros y Hy. apply elem_of_app. by left.
    + destruct (IH _ Ha0 Hx) as (lx & Hf & Hsub). exists lx. split; [done|].
      intros y Hy. apply elem_of_app. right. by apply Hsub.
Qed.

Lemma preorder_unfold fuel h v l :
  preorder_traverse fuel h v = Ok l →
  ∃ fuel' rest, fuel = S fuel' ∧ l = v :: rest ∧
    concat_mapM (preorder_traverse fuel' h) (clades (h !!! v)) = Ok rest.
Proof.
  destruct fuel as [|fuel']; simpl; [done|]. intros H. inv_bind H.
  injection H as <-. eauto.
Qed.

Lemma preorder_root fuel h v l :
  preorder_traverse fuel h v = Ok l → v ∈ l.
Proof.
  intros H. apply preorder_unfold in H as (? & ? & _ & -> & _).
  apply elem_of_cons. by left.
Qed.

(** A traversal stays inside any set that is closed under children. *)
Lemma preorder_within (P : nat → Prop) h :
  (∀ p c, P p → c ∈ clades (h !!! p) → P c) →
  ∀ fuel v l, P v → preorder_traverse fuel h v = Ok l → ∀ x, x ∈ l → P x.
Proof.
  intros Hcl. induction fuel as [|fuel IH]; intros v l Hv H x Hx; [done|].
  apply preorder_unfold in H as (f' & rest & [= <-] & -> & Hrest).
  apply elem_of_cons in Hx as [->|Hx]; [done|].
  destruct (concat_mapM_elem _ _ _ _ Hrest Hx) as (c & lc & Hc & Hlc & Hin).
  apply (IH c lc); [by apply (Hcl v)|done..].
Qed.

(** What a traversal returns is closed under children. *)
Lemma preorder_closed fuel h v l :
  preorder_traverse fuel h v = Ok l →
  ∀ p c, p ∈ l → c ∈ clades (h !!! p) → c ∈ l.
Proof.
  revert v l. induction fuel as [|fuel IH]; intros v l H p c Hp Hc; [done|].
  apply preorder_unfold in H as (f' & rest & [= <-] & -> & Hrest).
  apply elem_of_cons. right.
  apply elem_of_cons in Hp as [->|Hp].
  - destruct (concat_mapM_part _ _ _ _ Hrest Hc) as (lc & Hlc & Hsub).
    apply Hsub. by apply (preorder_root fuel h).
  - destruct (concat_mapM_elem _ _ _ _ Hrest Hp) as (a & la & Ha & Hla & Hin).
    destruct (concat_mapM_part _ _ _ _ Hrest Ha) as (la' & Hla' & Hsub).
    rewrite Hla in Hla'. injection Hla' as <-.
    apply Hsub. by apply (IH a la Hla p c).
Qed.

Lemma preorder_reachable fuel h r l :
  preorder_traverse fuel h r = Ok l → ∀ x, x ∈ l ↔ reachable h r x.
Proof.
  intros H x. split.
  - apply (preorder_within (reachable h r) h) with (fuel := fuel) (v := r);
      [|constructor|done].
    intros p c Hp Hc. by apply (reach_child h r p c).
  - induction 1 as [|p c _ IH Hc].
    + by apply (preorder_root fuel h).
    + by apply (preorder_closed fuel h r l H p c).
Qed.

Lemma reachable_within (P : nat → Prop) h r :
  (∀ p c, P p → c ∈ clades (h !!! p) → P c) → P r →
  ∀ x, reachable h r x → P x.
Proof. intros Hcl Hr x. induction 1; [done|]. by eapply Hcl. Qed.

Lemma level_unfold fuel h v queue l :
  level_traverse fuel h (v :: queue) = Ok l →
  ∃ fuel' rest, fuel = S fuel' ∧ l = v :: rest ∧
    level_traverse fuel' h (queue ++ clades (h !!! v)) = Ok rest.
Proof.
  destruct fuel as [|fuel']; simpl; [done|]. intros H. inv_bind H.
  injection H as <-. eauto.
Qed.

Lemma level_closed fuel h queue l :
  level_traverse fuel h queue = Ok l →
  (∀ v, v ∈ queue → v ∈ l) ∧
  (∀ p c, p ∈ l → c ∈ clades (h !!! p) → c ∈ l).
Proof.
  revert queue l. induction fuel as [|fuel IH]; intros [|v queue] l H.
  - injection H as <-. split; [done|]. intros p c Hp. by apply elem_of_nil in Hp.
  - done.
  - injection H as <-. split; [done|]. intros p c Hp. by apply elem_of_nil in Hp.
  - apply level_unfold in H as (f' & rest & [= <-] & -> & Hrest).
    destruct (IH _ _ Hrest) as [Hq Hcl]. split.
    + intros x Hx. apply elem_of_cons in Hx as [->|Hx]; apply elem_of_cons;
        [by left|right]. apply Hq, elem_of_app. by left.
    + intros p c Hp Hc. apply elem_of_cons. right.
      apply elem_of_cons in Hp as [->|Hp].
      * apply Hq, elem_of_app. by right.
      * by apply (Hcl p c).
Qed.

Lemma level_within (P : nat → Prop) h :
  (∀ p c, P p → c ∈ clades (h !!! p) → P c) →
  ∀ fuel queue l, (∀ v, v ∈ queue → P v) →
    level_traverse fuel h queue = Ok l → ∀ x, x ∈ l → P x.
Proof.
  intros Hcl. induction fuel as [|fuel IH]; intros [|v queue] l HQ H x Hx.
  - injection H as <-. by apply elem_of_nil in Hx.
  - done.
  - injection H as <-. by apply elem_of_nil in Hx.
  - apply level_unfold in H as (f' & rest & [= <-] & -> & Hrest).
    apply elem_of_cons in Hx as [->|Hx].
    + apply HQ, elem_of_cons. by left.
    + apply (IH (queue ++ clades (h !!! v)) rest); [|done..].
      intros y Hy. apply elem_of_app in Hy as [Hy|Hy].
      * apply HQ, elem_of_cons. by right.
      * apply (Hcl v); [|done]. apply HQ, elem_of_cons. by left.
Qed.

Lemma level_reachable fuel h r l :
  level_traverse fuel h [r] = Ok l → ∀ x, x ∈ l ↔ reachable h r x.
Proof.
  intros H x. destruct (level_closed _ _ _ _ H) as [Hq Hcl]. split.
  - apply (level_within (reachable h r) h) with (fuel := fuel) (queue := [r]);
      [| |done].
    + intros p c Hp Hc. by apply (reach_child h r p c).
    + intros v Hv. apply list_elem_of_singleton in Hv as ->. constructor.
  - apply (reachable_within (λ y, y ∈ l)); [done|].
    apply Hq, list_elem_of_singleton. done.
Qed.

(** ** get_parents on a well-formed tree *)

Lemma index_fold_Some (h : heap) order (ps0 : gmap nat nat) c p :
  foldl (λ ps clade, index_children clade (clades (h !!! clade)) ps)
        ps0 order !! c = Some p →
  ps0 !! c = Some p ∨ (p ∈ order ∧ c ∈ clades (h !!! p)).
Proof.
  revert ps0. induction order as [|v order IH]; intros ps0 H; simpl in H.
  - by left.
  - destruct (IH _ H) as [H0|[Hp Hc]].
    + rewrite index_children_lookup in H0.
      destruct (decide (c ∈ clades (h !!! v))) as [Hin|_].
      * injection H0 as <-. right. split; [apply elem_of_cons; by left|done].
      * by left.
    + right. split; [apply elem_of_cons; by right|done].
Qed.

Lemma index_fold_is_Some (h : heap) order (ps0 : gmap nat nat) c :
  is_Some (ps0 !! c) ∨ (∃ p, p ∈ order ∧ c ∈ clades (h !!! p)) →
  is_Some (foldl (λ ps clade, index_children clade (clades (h !!! clade)) ps)
                 ps0 order !! c).
Proof.
  revert ps0. induction order as [|v order IH]; intros ps0 H; simpl.
  - destruct H as [H|(p & Hp & _)]; [done|]. by apply elem_of_nil in Hp.
  - apply IH. rewrite index_children_lookup.
    destruct (decide (c ∈ clades (h !!! v))) as [Hin|Hnin]; [left; eauto|].
    destruct H as [H|(p & Hp & Hc)]; [by left|].
    apply elem_of_cons in Hp as [->|Hp]; [done|]. right. eauto.
Qed.

Lemma cert_reachable h r depth L x :
  tree_cert h r depth L → reachable h r x → x ∈ L.
Proof.
  intros HC. apply (reachable_within (λ y, y ∈ L)); apply HC.
Qed.

Lemma get_parents_spec fuel t depth L ps :
  tree_cert (store t) (root t) depth L →
  get_parents fuel t = Ok ps →
  ps !! root t = None ∧
  (∀ p c, reachable (store t) (root t) p → c ∈ clades (store t !!! p) →
          ps !! c = Some p) ∧
  (∀ p c, ps !! c = Some p →
          reachable (store t) (root t) p ∧ c ∈ clades (store t !!! p)).
Proof.
  intros HC H. unfold get_parents, find_clades_level in H. inv_bind H.
  injection H as <-. rename a into order.
  pose proof (level_reachable _ _ _ _ Ha) as Hreach.
  assert (Hin : ∀ c q,
    foldl (λ ps clade, index_children clade (clades (store t !!! clade)) ps)
          ∅ order !! c = Some q →
    reachable (store t) (root t) q ∧ c ∈ clades (store t !!! q)).
  { intros c q Hq. apply index_fold_Some in Hq as [Hq|[Hq Hc]].
    - by rewrite lookup_empty in Hq.
    - split; [|done]. by apply Hreach. }
  split; [|split].
  - destruct (foldl _ ∅ order !! root t) as [q|] eqn:Hq; [|done].
    destruct (Hin _ _ Hq) as [HqL Hc].
    destruct (cert_root_top _ _ _ _ HC q); [|done].
    by apply (cert_reachable _ _ _ _ _ HC).
  - intros p c Hp Hc.
    destruct (index_fold_is_Some (store t) order ∅ c) as [q Hq].
    { right. exists p. split; [by apply Hreach|done]. }
    rewrite Hq. f_equal. destruct (Hin _ _ Hq) as [HqL Hcq].
    apply (cert_parent _ _ _ _ HC q p c); [| |done..];
      by apply (cert_reachable _ _ _ _ _ HC).
  - intros p c Hq. by apply Hin.
Qed.

(** ** One step of each loop of collapse_polytomies *)

Section steps.
Context (r : nat) (depth : nat → nat).
Context (h h' : heap) (ps : gmap nat nat) (L D : gset nat).
Context (x p : nat) (cs : list nat).
Hypothesis HC : collapsing r depth h ps L D.
Hypothesis Hx : x ∈ L.
Hypothesis Hp : ps !! x = Some p.
Hypothesis Hrm : list_remove x (clades (h !!! p)) = Ok cs.
Hypothesis Hoth : ∀ v, v ≠ p → clades (h' !!! v) = clades (h !!! v).

Local Lemma not_root : r ≠ x.
Proof. intros ->. by rewrite (col_root_top _ _ _ _ _ _ HC) in Hp. Qed.

Local Lemma parent_live : p ∈ L ∧ x ∈ clades (h !!! p).
Proof.
  destruct (col_parent _ _ _ _ _ _ HC x Hx) as (q & Hq & ? & ?).
  - intros Heq. by apply not_root.
  - rewrite Hp in Hq. by injection Hq as <-.
Qed.

Local Lemma parent_above : depth p < depth x.
Proof. destruct parent_live. by apply (col_depth _ _ _ _ _ _ HC). Qed.

Local Lemma rest_spec c : c ∈ cs ↔ c ∈ clades (h !!! p) ∧ c ≠ x.
Proof.
  destruct parent_live as [HpL _].
  destruct (list_remove_Ok _ _ _ Hrm) as (_ & Hsub & Hsup).
  destruct (list_remove_NoDup _ _ _ Hrm (col_nodup _ _ _ _ _ _ HC p HpL))
    as [_ Hnot].
  split.
  - intros Hc. split; [by apply Hsub|]. by intros ->.
  - intros [Hc Hne]. by apply Hsup.
Qed.

Local Lemma only_parent q : q ∈ L → x ∈ clades (h !!! q) → q = p.
Proof.
  intros Hq Hin. pose proof (col_index _ _ _ _ _ _ HC q x Hq Hin) as Hq'.
  rewrite Hp in Hq'. by injection Hq'.
Qed.

(** The tip [x], which has no children, is taken out of its parent. *)
Lemma collapsing_prune :
  clades (h !!! x) = [] →
  clades (h' !!! p) = cs →
  collapsing r depth h' ps (L ∖ {[x]}) (D ∪ {[x]}).
Proof.
  intros Hleaf Hp'.
  destruct parent_live as [HpL HxP].
  assert (Hsub : ∀ v c, c ∈ clades (h' !!! v) → c ∈ clades (h !!! v)).
  { intros v c. destruct (decide (v = p)) as [->|Hne].
    - rewrite Hp'. intros Hc. by apply rest_spec in Hc as [? _].
    - by rewrite Hoth. }
  assert (Hsub' : ∀ v c, v ∈ L → c ∈ clades (h' !!! v) → c ≠ x).
  { intros v c Hv. destruct (decide (v = p)) as [->|Hne].
    - rewrite Hp'. intros Hc. by apply rest_spec in Hc as [_ ?].
    - rewrite Hoth; [|done]. intros Hc ->. by apply Hne, only_parent. }
  split.
  - apply elem_of_drop. split; [apply HC|apply not_root].
  - intros q c Hq Hc. apply elem_of_difference in Hq as [Hq _].
    apply elem_of_difference. split.
    + apply (col_closed _ _ _ _ _ _ HC q); [done|]. by apply Hsub.
    + apply not_elem_of_singleton. by apply (Hsub' q).
  - intros q c Hq Hc. apply elem_of_difference in Hq as [Hq _].
    apply (col_depth _ _ _ _ _ _ HC); [done|]. by apply Hsub.
  - intros q Hq. apply elem_of_difference in Hq as [Hq _].
    destruct (decide (q = p)) as [->|Hne].
    + rewrite Hp'.
      by destruct (list_remove_NoDup _ _ _ Hrm
                     (col_nodup _ _ _ _ _ _ HC p HpL)).
    + rewrite Hoth; [|done]. by apply (col_nodup _ _ _ _ _ _ HC).
  - intros q c Hq Hc. apply elem_of_difference in Hq as [Hq _].
    apply (col_index _ _ _ _ _ _ HC); [done|]. by apply Hsub.
  - apply HC.
  - intros d q Hd Hq Hin. apply elem_of_union in Hd as [Hd|Hd].
    + apply (col_dead _ _ _ _ _ _ HC d q Hd Hq). by apply Hsub.
    + apply elem_of_singleton in Hd as ->.
      rewrite Hp in Hq. injection Hq as <-.
      rewrite Hp' in Hin. by apply rest_spec in Hin as [_ ?].
  - intros v Hv. apply elem_of_difference in Hv as [Hv Hne].
    rewrite elem_of_add. intros [HD|Heq];
      [by apply (col_disj _ _ _ _ _ _ HC v Hv)|].
    by apply Hne, elem_of_singleton.
  - intros v Hv Hvr. apply elem_of_difference in Hv as [Hv Hne].
    apply not_elem_of_singleton in Hne.
    destruct (col_parent _ _ _ _ _ _ HC v Hv Hvr) as (q & Hq & HqL & Hin).
    assert (q ≠ x).
    { intros ->. rewrite Hleaf in Hin. by apply elem_of_nil in Hin. }
    exists q. split; [done|]. split; [by apply elem_of_drop|].
    destruct (decide (q = p)) as [->|Hqp].
    * rewrite Hp'. by apply rest_spec.
    * by rewrite Hoth.
Qed.

(** The internal node [x] is taken out and its children move up. *)
Lemma collapsing_splice :
  clades (h' !!! p) = cs ++ clades (h !!! x) →
  collapsing r depth h' (index_children p (clades (h !!! x)) ps)
             (L ∖ {[x]}) (D ∪ {[x]}).
Proof.
  intros Hp'.
  destruct parent_live as [HpL HxP]. pose proof parent_above as Hdp.
  assert (Hkid : ∀ c, c ∈ clades (h !!! x) →
            c ∈ L ∧ depth x < depth c ∧ ps !! c = Some x).
  { intros c Hc. split; [by apply (col_closed _ _ _ _ _ _ HC x)|].
    split; [by apply (col_depth _ _ _ _ _ _ HC)|].
    by apply (col_index _ _ _ _ _ _ HC). }
  assert (Hself : x ∉ clades (h !!! x)).
  { intros Hin. destruct (Hkid _ Hin) as (_ & ? & _). lia. }
  assert (Hapart : ∀ c, c ∈ cs → c ∉ clades (h !!! x)).
  { intros c Hc Hin. apply rest_spec in Hc as [Hc _].
    destruct (Hkid _ Hin) as (_ & _ & Hcx).
    rewrite (col_index _ _ _ _ _ _ HC p c HpL Hc) in Hcx.
    injection Hcx as ->. lia. }
  assert (Hnew : ∀ q c, q ∈ L → q ≠ x → c ∈ clades (h' !!! q) →
            c ≠ x ∧
            ((q = p ∧ c ∈ clades (h !!! x)) ∨
             (c ∈ clades (h !!! q) ∧ c ∉ clades (h !!! x)))).
  { intros q c Hq Hqx. destruct (decide (q = p)) as [->|Hne].
    - rewrite Hp'. intros Hc. apply elem_of_app in Hc as [Hc|Hc].
      + split; [by apply rest_spec in Hc as [_ ?]|]. right.
        split; [by apply rest_spec in Hc as [? _]|by apply Hapart].
      + split; [by intros ->|]. by left.
    - rewrite Hoth; [|done]. intros Hc. split.
      + intros ->. by apply Hne, only_parent.
      + right. split; [done|]. intros Hin.
        destruct (Hkid _ Hin) as (_ & _ & Hcx).
        rewrite (col_index _ _ _ _ _ _ HC q c Hq Hc) in Hcx.
        by injection Hcx. }
  split.
  - apply elem_of_drop. split; [apply HC|apply not_root].
  - intros q c Hq Hc. apply elem_of_difference in Hq as [Hq Hqx].
    apply not_elem_of_singleton in Hqx.
    destruct (Hnew q c Hq Hqx Hc) as [Hcx [[-> Hin]|[Hin _]]].
    + destruct (Hkid _ Hin) as (? & _). by apply elem_of_drop.
    + pose proof (col_closed _ _ _ _ _ _ HC q c Hq Hin). by apply elem_of_drop.
  - intros q c Hq Hc. apply elem_of_difference in Hq as [Hq Hqx].
    apply not_elem_of_singleton in Hqx.
    destruct (Hnew q c Hq Hqx Hc) as [Hcx [[-> Hin]|[Hin _]]].
    + destruct (Hkid _ Hin) as (_ & ? & _). lia.
    + by apply (col_depth _ _ _ _ _ _ HC).
  - intros q Hq. apply elem_of_difference in Hq as [Hq Hqx].
    destruct (decide (q = p)) as [->|Hne].
    + rewrite Hp'. apply NoDup_app. split; [|split].
      * by destruct (list_remove_NoDup _ _ _ Hrm
                       (col_nodup _ _ _ _ _ _ HC p HpL)).
      * apply Hapart.
      * by apply (col_nodup _ _ _ _ _ _ HC).
    + rewrite Hoth; [|done]. by apply (col_nodup _ _ _ _ _ _ HC).
  - intros q c Hq Hc. apply elem_of_difference in Hq as [Hq Hqx].
    apply not_elem_of_singleton in Hqx. rewrite index_children_lookup.
    destruct (Hnew q c Hq Hqx Hc) as [Hcx [[-> Hin]|[Hin Hout]]].
    + by rewrite decide_True.
    + rewrite decide_False; [|done]. by apply (col_index _ _ _ _ _ _ HC).
  - rewrite index_children_lookup. rewrite decide_False; [apply HC|].
    intros Hin. destruct (Hkid _ Hin) as (_ & _ & Hr).
    by rewrite (col_root_top _ _ _ _ _ _ HC) in Hr.
  - intros d q Hd Hq Hin. rewrite index_children_lookup in Hq.
    assert (Hdk : d ∉ clades (h !!! x)).
    { apply elem_of_union in Hd as [Hd|Hd].
      - intros Hk. destruct (Hkid _ Hk) as (HdL & _).
        by apply (col_disj _ _ _ _ _ _ HC d).
      - by apply elem_of_singleton in Hd as ->. }
    rewrite decide_False in Hq; [|done].
    assert (Hold : d ∉ clades (h !!! q)).
    { apply elem_of_union in Hd as [Hd|Hd].
      - by apply (col_dead _ _ _ _ _ _ HC d q).
      - apply elem_of_singleton in Hd as ->.
        rewrite Hp in Hq. injection Hq as <-.
        destruct (decide (x ∈ clades (h !!! p))) as [Hi|Hi]; [|done].
        exfalso. revert Hin. rewrite Hp'. intros Hin.
        apply elem_of_app in Hin as [Hin|Hin]; [|done].
        by apply rest_spec in Hin as [_ ?]. }
    destruct (decide (q = p)) as [->|Hne].
    + rewrite Hp' in Hin. apply elem_of_app in Hin as [Hin|Hin]; [|done].
      by apply rest_spec in Hin as [? _].
    + by rewrite Hoth in Hin.
  - intros v Hv. apply elem_of_difference in Hv as [Hv Hne].
    rewrite elem_of_add. intros [HD|Heq];
      [by apply (col_disj _ _ _ _ _ _ HC v Hv)|].
    by apply Hne, elem_of_singleton.
  - intros v Hv Hvr. apply elem_of_difference in Hv as [Hv Hne].
    apply not_elem_of_singleton in Hne. rewrite index_children_lookup.
    destruct (decide (v ∈ clades (h !!! x))) as [Hin|Hout].
    + exists p. split; [done|]. split.
      * assert (p ≠ x) by (intros ->; lia). by apply elem_of_drop.
      * rewrite Hp'. apply elem_of_app. by right.
    + destruct (col_parent _ _ _ _ _ _ HC v Hv Hvr) as (q & Hq & HqL & HvQ).
      assert (q ≠ x) by (by intros ->).
      exists q. split; [done|]. split; [by apply elem_of_drop|].
      destruct (decide (q = p)) as [->|Hqp].
      * rewrite Hp'. apply elem_of_app. left. by apply rest_spec.
      * by rewrite Hoth.
Qed.
End steps.

(** ** The loop bodies, inverted *)

Lemma prune_tip_inv m ps tip (h h' : heap) :
  prune_tip m ps tip h = Ok h' →
  ∃ b, branch_length (h !!! tip) = Some b ∧
    ((float_gt b m = true ∧ h' = h) ∨
     (float_gt b m = false ∧ ∃ p cs nm,
        ps !! tip = Some p ∧
        list_remove tip (clades (h !!! p)) = Ok cs ∧
        h' = <[p := set_name (set_clades (h !!! p) cs) nm]> h)).
Proof.
  unfold prune_tip. intros H.
  destruct (branch_length (h !!! tip)) as [b|]; [|done]. exists b.
  split; [done|]. destruct (float_gt b m).
  { left. by injection H as <-. }
  right. split; [done|]. destruct (ps !! tip) as [p|]; [|done].
  inv_bind H. rename a into cs. exists p, cs.
  rewrite lookup_total_insert_eq in H. simpl in H.
  destruct (name (h !!! p)) as [pn|].
  - destruct (name (<[p:=set_clades (h !!! p) cs]> h !!! tip)) as [tn|];
      [|done].
    injection H as <-. eexists. split; [done|]. split; [done|].
    by rewrite insert_insert_eq.
  - injection H as <-. eexists. split; [done|]. split; [done|].
    by rewrite insert_insert_eq.
Qed.

Lemma splice_node_inv m r node (h h' : heap) (ps ps' : gmap nat nat) :
  splice_node m r node (h, ps) = Ok (h', ps') →
  (h' = h ∧ ps' = ps ∧
   (node = r ∨ branch_length (h !!! node) = None ∨
    ∃ b, branch_length (h !!! node) = Some b ∧ float_gt b m = true)) ∨
  (∃ b p cs nm,
     branch_length (h !!! node) = Some b ∧ float_gt b m = false ∧ node ≠ r ∧
     ps !! node = Some p ∧
     list_remove node (clades (h !!! p)) = Ok cs ∧
     (node ≠ p →
      h' = <[p := set_name
                    (set_clades (h !!! p) (cs ++ clades (h !!! node))) nm]> h ∧
      ps' = index_children p (clades (h !!! node)) ps)).
Proof.
  unfold splice_node. intros H.
  destruct (branch_length (h !!! node)) as [b|]; [|left; by injection H as <- <-; eauto].
  destruct (float_gt b m) eqn:Hgt; simpl in H.
  { left. injection H as <- <-. split; [done|]. split; [done|]. eauto. }
  destruct (bool_decide (node = r)) eqn:Hr; simpl in H.
  { left. injection H as <- <-. apply bool_decide_eq_true in Hr. eauto. }
  apply bool_decide_eq_false in Hr. right.
  destruct (ps !! node) as [p|]; [|done].
  inv_bind H. rename a into cs. exists b, p, cs.
  rewrite !lookup_total_insert_eq in H. simpl in H.
  rewrite insert_insert_eq in H.
  destruct (truthy_name _) as [nn|] in H.
  - destruct (name (h !!! p)) as [pn|]; injection H as <- <-; eexists;
      (do 5 (split; [done|])); intros Hne;
      rewrite !lookup_total_insert_ne by done;
      by rewrite insert_insert_eq.
  - injection H as <- <-. exists (name (h !!! p)).
    do 5 (split; [done|]). intros Hne.
    rewrite !lookup_total_insert_ne by done.
    split; [|done]. by destruct (h !!! p).
Qed.

(** ** The loops keep the tree a tree *)

Lemma prune_tip_step r depth m ps L D tip (h h' : heap) :
  collapsing r depth h ps L D →
  tip ∈ L ∨ tip ∈ D →
  clades (h !!! tip) = [] →
  prune_tip m ps tip h = Ok h' →
  ∃ b, branch_length (h !!! tip) = Some b ∧
    ((float_gt b m = true ∧ h' = h) ∨
     (float_gt b m = false ∧ tip ∈ L ∧
      collapsing r depth h' ps (L ∖ {[tip]}) (D ∪ {[tip]}) ∧
      same_lengths h h' ∧ tips_stay h h')).
Proof.
  intros HC Htip Hleaf H.
  apply prune_tip_inv in H as (b & Hb & [[Hgt ->]|(Hgt & p & cs & nm & Hp & Hrm & ->)]);
    exists b; (split; [done|]); [by left|right].
  destruct (list_remove_Ok _ _ _ Hrm) as (Hin & _).
  assert (HtL : tip ∈ L).
  { destruct Htip as [?|HtD]; [done|].
    by destruct (col_dead _ _ _ _ _ _ HC tip p HtD Hp). }
  split; [done|]. split; [done|]. split; [|split].
  - apply (collapsing_prune r depth h _ ps L D tip p cs); try done.
    + intros v Hv. by rewrite lookup_total_insert_ne.
    + by rewrite lookup_total_insert_eq.
  - intros v. destruct (decide (v = p)) as [->|Hne].
    + by rewrite lookup_total_insert_eq.
    + by rewrite lookup_total_insert_ne.
  - intros v Hv. destruct (decide (v = p)) as [->|Hne].
    + rewrite Hv in Hin. by apply elem_of_nil in Hin.
    + by rewrite lookup_total_insert_ne.
Qed.

Lemma splice_node_step r depth m L D node (h h' : heap) (ps ps' : gmap nat nat) :
  collapsing r depth h ps L D →
  node ∈ L ∨ node ∈ D →
  splice_node m r node (h, ps) = Ok (h', ps') →
  (h' = h ∧ ps' = ps ∧
   (node = r ∨ branch_length (h !!! node) = None ∨
    ∃ b, branch_length (h !!! node) = Some b ∧ float_gt b m = true)) ∨
  (node ∈ L ∧ node ≠ r ∧
   (∃ b, branch_length (h !!! node) = Some b ∧ float_gt b m = false) ∧
   collapsing r depth h' ps' (L ∖ {[node]}) (D ∪ {[node]}) ∧
   same_lengths h h' ∧ tips_stay h h').
Proof.
  intros HC Hnode H.
  apply splice_node_inv in H as [H|(b & p & cs & nm & Hb & Hgt & Hr & Hp & Hrm & H)];
    [by left|right].
  destruct (list_remove_Ok _ _ _ Hrm) as (Hin & _).
  assert (HnL : node ∈ L).
  { destruct Hnode as [?|HnD]; [done|].
    by destruct (col_dead _ _ _ _ _ _ HC node p HnD Hp). }
  assert (Hne : node ≠ p).
  { intros <-. pose proof (col_depth _ _ _ _ _ _ HC node node HnL Hin). lia. }
  destruct (H Hne) as [-> ->]. split; [done|]. split; [done|].
  split; [eauto|]. split; [|split].
  - apply (collapsing_splice r depth h _ ps L D node p cs); try done.
    + intros v Hv. by rewrite lookup_total_insert_ne.
    + by rewrite lookup_total_insert_eq.
  - intros v. destruct (decide (v = p)) as [->|Hvp].
    + by rewrite lookup_total_insert_eq.
    + by rewrite lookup_total_insert_ne.
  - intros v Hv. destruct (decide (v = p)) as [->|Hvp].
    + rewrite Hv in Hin. by apply elem_of_nil in Hin.
    + by rewrite lookup_total_insert_ne.
Qed.

Lemma same_lengths_trans (h0 h h' : heap) :
  same_lengths h0 h → same_lengths h h' → same_lengths h0 h'.
Proof. intros H1 H2 v. by rewrite H2, H1. Qed.

Lemma tips_stay_trans (h0 h h' : heap) :
  tips_stay h0 h → tips_stay h h' → tips_stay h0 h'.
Proof.
  intros H1 H2 v Hv. rewrite H2; [by apply H1|]. by rewrite H1.
Qed.

(** The first loop takes out the tips that are not longer than [m], and
    nothing else. *)
Lemma prune_loop r depth m ps tips (h0 h1 : heap) L0 :
  collapsing r depth h0 ps L0 ∅ →
  (∀ t, t ∈ tips → t ∈ L0 ∧ clades (h0 !!! t) = []) →
  for_each tips (prune_tip m ps) h0 = Ok h1 →
  ∃ L1 D1, collapsing r depth h1 ps L1 D1 ∧
    (∀ v, v ∈ L0 ↔ v ∈ L1 ∨ v ∈ D1) ∧
    (∀ d, d ∈ D1 → d ∈ tips ∧
       ∃ b, branch_length (h0 !!! d) = Some b ∧ float_gt b m = false) ∧
    same_lengths h0 h1 ∧ tips_stay h0 h1 ∧
    (∀ t, t ∈ tips → t ∈ L1 →
       ∃ b, branch_length (h0 !!! t) = Some b ∧ float_gt b m = true).
Proof.
  intros HC Htips Hrun.
  apply (for_each_inv (λ done h,
    ∃ L D, collapsing r depth h ps L D ∧
      (∀ v, v ∈ L0 ↔ v ∈ L ∨ v ∈ D) ∧
      (∀ d, d ∈ D → d ∈ tips ∧
         ∃ b, branch_length (h0 !!! d) = Some b ∧ float_gt b m = false) ∧
      same_lengths h0 h ∧ tips_stay h0 h ∧
      (∀ t, t ∈ done → t ∈ L →
         ∃ b, branch_length (h0 !!! t) = Some b ∧ float_gt b m = true)))
    in Hrun.
  - destruct Hrun as (L & D & ? & ? & ? & ? & ? & ?). by exists L, D.
  - exists L0, ∅. split; [done|]. split.
    { intros v. split; [by left|]. intros [?|Hv]; [done|].
      by apply not_elem_of_empty in Hv. }
    split; [intros d Hd; by apply not_elem_of_empty in Hd|].
    split; [by intros v|]. split; [by intros v Hv|].
    intros t Ht. by apply elem_of_nil in Ht.
  - intros done t h h' Ht (L & D & HCh & Hsplit & Hdead & Hlen & Hstay & Hdone) Hstep.
    destruct (Htips t Ht) as [HtL0 Hleaf].
    destruct (prune_tip_step r depth m ps L D t h h' HCh) as
      (b & Hb & [[Hgt ->]|(Hgt & HtL & HC' & Hlen' & Hstay')]); [| |done| |].
    + by apply Hsplit.
    + rewrite Hstay; done.
    + exists L, D. do 5 (split; [done|]).
      intros t' Ht' Ht'L. apply elem_of_app in Ht' as [Ht'|Ht'];
        [by apply Hdone|].
      apply list_elem_of_singleton in Ht' as ->. exists b.
      by rewrite <- Hlen.
    + exists (L ∖ {[t]}), (D ∪ {[t]}). split; [done|]. split.
      { intros v. rewrite Hsplit, elem_of_drop, elem_of_add.
        destruct (decide (v = t)) as [->|Hne]; [|tauto].
        split; [intros _; right; by right|intros _; by left]. }
      split.
      { intros d Hd. apply elem_of_union in Hd as [Hd|Hd]; [by apply Hdead|].
        apply elem_of_singleton in Hd as ->. split; [done|]. exists b.
        by rewrite <- Hlen. }
      split; [by apply (same_lengths_trans h0 h)|].
      split; [by apply (tips_stay_trans h0 h)|].
      intros t' Ht' Ht'L. apply elem_of_app in Ht' as [Ht'|Ht'].
      * apply Hdone; [done|]. by apply elem_of_drop in Ht'L as [? _].
      * apply list_elem_of_singleton in Ht' as ->.
        by apply elem_of_drop in Ht'L as [_ ?].
Qed.

(** The second loop takes out the listed nodes, the root apart, whose branch
    is defined and not longer than [m], and nothing else. *)
Lemma splice_loop r depth m nodes (h1 h2 : heap) (ps1 ps2 : gmap nat nat) L1 :
  collapsing r depth h1 ps1 L1 ∅ →
  (∀ n, n ∈ nodes → n ∈ L1) →
  for_each nodes (splice_node m r) (h1, ps1) = Ok (h2, ps2) →
  ∃ L2 D2, collapsing r depth h2 ps2 L2 D2 ∧
    (∀ v, v ∈ L1 ↔ v ∈ L2 ∨ v ∈ D2) ∧
    (∀ d, d ∈ D2 → d ∈ nodes ∧ d ≠ r ∧
       ∃ b, branch_length (h1 !!! d) = Some b ∧ float_gt b m = false) ∧
    same_lengths h1 h2 ∧ tips_stay h1 h2 ∧
    (∀ n, n ∈ nodes → n ∈ L2 →
       n = r ∨ branch_length (h1 !!! n) = None ∨
       ∃ b, branch_length (h1 !!! n) = Some b ∧ float_gt b m = true).
Proof.
  intros HC Hnodes Hrun.
  apply (for_each_inv (λ done st,
    ∃ L D, collapsing r depth st.1 st.2 L D ∧
      (∀ v, v ∈ L1 ↔ v ∈ L ∨ v ∈ D) ∧
      (∀ d, d ∈ D → d ∈ nodes ∧ d ≠ r ∧
         ∃ b, branch_length (h1 !!! d) = Some b ∧ float_gt b m = false) ∧
      same_lengths h1 st.1 ∧ tips_stay h1 st.1 ∧
      (∀ n, n ∈ done → n ∈ L →
         n = r ∨ branch_length (h1 !!! n) = None ∨
         ∃ b, branch_length (h1 !!! n) = Some b ∧ float_gt b m = true)))
    in Hrun.
  - destruct Hrun as (L & D & ? & ? & ? & ? & ? & ?). by exists L, D.
  - exists L1, ∅. split; [done|]. split.
    { intros v. split; [by left|]. intros [?|Hv]; [done|].
      by apply not_elem_of_empty in Hv. }
    split; [intros d Hd; by apply not_elem_of_empty in Hd|].
    split; [by intros v|]. split; [by intros v Hv|].
    intros n Hn. by apply elem_of_nil in Hn.
  - intros done n [h ps] [h' ps'] Hn
      (L & D & HCh & Hsplit & Hdead & Hlen & Hstay & Hdone) Hstep.
    simpl in *.
    destruct (splice_node_step r depth m L D n h h' ps ps' HCh) as
      [(-> & -> & Hskip)|(HnL & Hnr & (b & Hb & Hgt) & HC' & Hlen' & Hstay')];
      [|done| |].
    + apply Hsplit. by apply Hnodes.
    + exists L, D. do 5 (split; [done|]).
      intros n' Hn' Hn'L. apply elem_of_app in Hn' as [Hn'|Hn'];
        [by apply Hdone|].
      apply list_elem_of_singleton in Hn' as ->. by rewrite <- !Hlen.
    + exists (L ∖ {[n]}), (D ∪ {[n]}). split; [done|]. split.
      { intros v. rewrite Hsplit, elem_of_drop, elem_of_add.
        destruct (decide (v = n)) as [->|Hne]; [|tauto].
        split; [intros _; right; by right|intros _; by left]. }
      split.
      { intros d Hd. apply elem_of_union in Hd as [Hd|Hd]; [by apply Hdead|].
        apply elem_of_singleton in Hd as ->. split; [done|]. split; [done|].
        exists b. by rewrite <- Hlen. }
      split; [by apply (same_lengths_trans h1 h)|].
      split; [by apply (tips_stay_trans h1 h)|].
      intros n' Hn' Hn'L. apply elem_of_app in Hn' as [Hn'|Hn'].
      * apply Hdone; [done|]. by apply elem_of_drop in Hn'L as [? _].
      * apply list_elem_of_singleton in Hn' as ->.
        by apply elem_of_drop in Hn'L as [_ ?].
Qed.

(** ** collapse_polytomies on a well-formed tree *)

Lemma reachable_inv h r v :
  reachable h r v → v = r ∨ ∃ p, reachable h r p ∧ v ∈ clades (h !!! p).
Proof. destruct 1 as [|p c Hp Hc]; [by left|right; eauto]. Qed.

(** A well-formed tree and its parent index start the loops. *)
Lemma collapsing_start fuel fuel' t depth Lc ps l :
  tree_cert (store t) (root t) depth Lc →
  get_parents fuel t = Ok ps →
  preorder_traverse fuel' (store t) (root t) = Ok l →
  collapsing (root t) depth (store t) ps (list_to_set l) ∅ ∧
  list_to_set l ⊆ Lc.
Proof.
  intros HC Hps Hl.
  destruct (get_parents_spec _ _ _ _ _ HC Hps) as (Htop & Hidx & Hback).
  pose proof (preorder_reachable _ _ _ _ Hl) as Hreach.
  assert (Hsub : ∀ v, v ∈ l → v ∈ Lc).
  { intros v Hv. apply (cert_reachable _ _ _ _ _ HC). by apply Hreach. }
  split; [|intros v Hv; apply Hsub; by apply elem_of_list_to_set in Hv].
  split.
  - apply elem_of_list_to_set. by apply (preorder_root fuel' (store t)).
  - intros p c Hp Hc. apply elem_of_list_to_set in Hp.
    apply elem_of_list_to_set.
    by apply (preorder_closed fuel' (store t) (root t) l Hl p).
  - intros p c Hp Hc. apply elem_of_list_to_set in Hp.
    apply (cert_depth _ _ _ _ HC); [by apply Hsub|done].
  - intros p Hp. apply elem_of_list_to_set in Hp.
    apply (cert_nodup _ _ _ _ HC). by apply Hsub.
  - intros p c Hp Hc. apply elem_of_list_to_set in Hp.
    apply Hidx; [by apply Hreach|done].
  - done.
  - intros d p Hd. by apply not_elem_of_empty in Hd.
  - intros v _. apply not_elem_of_empty.
  - intros v Hv Hvr. apply elem_of_list_to_set, Hreach in Hv.
    apply reachable_inv in Hv as [?|(q & Hq & Hin)]; [done|].
    exists q. split; [by apply Hidx|]. split; [|done].
    apply elem_of_list_to_set. by apply Hreach.
Qed.

Lemma collapsing_forget r depth (h : heap) ps L D :
  collapsing r depth h ps L D → collapsing r depth h ps L ∅.
Proof.
  intros HC. split; try apply HC.
  - intros d p Hd. by apply not_elem_of_empty in Hd.
  - intros v _. apply not_elem_of_empty.
Qed.

(** The clades of [L] are those that a traversal from the root meets. *)
Lemma collapsing_reach r depth (h : heap) ps L D :
  collapsing r depth h ps L D → ∀ v, v ∈ L ↔ reachable h r v.
Proof.
  intros HC v. split.
  - revert v. cut (∀ n v, depth v < n → v ∈ L → reachable h r v).
    { intros Hcut v. apply (Hcut (S (depth v))). lia. }
    induction n as [|n IH]; intros v Hd Hv; [lia|].
    destruct (decide (v = r)) as [->|Hne]; [constructor|].
    destruct (col_parent _ _ _ _ _ _ HC v Hv Hne) as (p & _ & Hp & Hin).
    apply (reach_child _ _ p); [|done]. apply IH; [|done].
    pose proof (col_depth _ _ _ _ _ _ HC p v Hp Hin). lia.
  - apply (reachable_within (λ y, y ∈ L)); apply HC.
Qed.

(** The invariant of the loops makes the store a well-formed tree. *)
Lemma collapsing_cert r depth (h : heap) ps L D :
  collapsing r depth h ps L D → tree_cert h r depth L.
Proof.
  intros HC. split; try apply HC.
  - intros p q c Hp Hq Hcp Hcq.
    pose proof (col_index _ _ _ _ _ _ HC p c Hp Hcp) as H1.
    pose proof (col_index _ _ _ _ _ _ HC q c Hq Hcq) as H2.
    rewrite H1 in H2. by injection H2.
  - intros p Hp Hin.
    pose proof (col_index _ _ _ _ _ _ HC p r Hp Hin) as H1.
    by rewrite (col_root_top _ _ _ _ _ _ HC) in H1.
Qed.

Lemma is_terminal_true (h : heap) v :
  is_terminal h v = true ↔ clades (h !!! v) = [].
Proof. unfold is_terminal. by destruct (clades (h !!! v)). Qed.

Lemma is_terminal_false (h : heap) v :
  is_terminal h v = false ↔ clades (h !!! v) ≠ [].
Proof. unfold is_terminal. by destruct (clades (h !!! v)). Qed.

Lemma tips_stay_terminal (h h' : heap) v :
  tips_stay h h' → is_terminal h v = true → is_terminal h' v = true.
Proof.
  intros Hstay Hv. apply is_terminal_true in Hv. apply is_terminal_true.
  by rewrite (Hstay v Hv).
Qed.

(** The first loop on a well-formed tree: the tips with a branch longer than
    [m] stay, the other tips go, and every internal node stays. *)
Lemma prune_tips_sound fuel fuel' t m ps h1 depth Lc :
  tree_cert (store t) (root t) depth Lc →
  get_parents fuel' t = Ok ps →
  prune_tips fuel t m ps = Ok h1 →
  (∃ L1, collapsing (root t) depth h1 ps L1 ∅ ∧ L1 ⊆ Lc) ∧
  same_lengths (store t) h1 ∧ tips_stay (store t) h1 ∧
  (∀ v, reachable h1 (root t) v → reachable (store t) (root t) v) ∧
  (∀ v, reachable (store t) (root t) v →
     if is_terminal (store t) v
     then ∃ b, branch_length (store t !!! v) = Some b ∧
               (reachable h1 (root t) v ↔ float_gt b m = true)
     else reachable h1 (root t) v).
Proof.
  intros HC Hps H. unfold prune_tips, get_terminals in H.
  inv_bind H. inv_bind Ha. rename a0 into l0, Ha0 into Hl0.
  injection Ha as <-.
  destruct (collapsing_start _ _ _ _ _ _ _ HC Hps Hl0) as [HC0 Hsub0].
  assert (Htips : ∀ v, v ∈ filter (λ v, is_terminal (store t) v = true) l0 →
            v ∈ (list_to_set l0 : gset nat) ∧ clades (store t !!! v) = []).
  { intros v Hv. apply list_elem_of_filter in Hv as [Hv Hin].
    split; [by apply elem_of_list_to_set|by apply is_terminal_true]. }
  destruct (prune_loop _ _ _ _ _ _ _ _ HC0 Htips H)
    as (L1 & D1 & HC1 & Hsplit & Hdead & Hlen & Hstay & Hdone).
  pose proof (collapsing_reach _ _ _ _ _ _ HC1) as Hreach1.
  pose proof (preorder_reachable _ _ _ _ Hl0) as Hreach0.
  split.
  { exists L1. split; [by apply (collapsing_forget _ _ _ _ _ D1)|].
    intros v Hv. apply Hsub0, Hsplit. by left. }
  split; [done|]. split; [done|]. split.
  { intros v Hv. apply Hreach0.
    apply (elem_of_list_to_set (C := gset nat)), Hsplit. left.
    by apply Hreach1. }
  intros v Hv. apply Hreach0 in Hv.
  assert (HvL : v ∈ L1 ∨ v ∈ D1) by (by apply Hsplit, elem_of_list_to_set).
  destruct (is_terminal (store t) v) eqn:Hterm.
  - assert (Hvt : v ∈ filter (λ v, is_terminal (store t) v = true) l0)
      by (by apply list_elem_of_filter).
    destruct HvL as [HvL|HvD].
    + destruct (Hdone v Hvt HvL) as (b & Hb & Hgt). exists b.
      split; [done|]. split; [done|]. intros _. by apply Hreach1.
    + destruct (Hdead v HvD) as (_ & b & Hb & Hgt). exists b.
      split; [done|]. rewrite Hgt. split; [|done]. intros Hr.
      apply Hreach1 in Hr. by destruct (col_disj _ _ _ _ _ _ HC1 v Hr).
  - destruct HvL as [HvL|HvD]; [by apply Hreach1|].
    destruct (Hdead v HvD) as (Hvt & _).
    apply list_elem_of_filter in Hvt as [Hvt _]. congruence.
Qed.

(** The second loop on what the first one leaves: a clade stays unless it has
    children, is not the root, and has a defined branch not longer than
    [m]. *)
Lemma splice_nodes_sound fuel r m depth (h1 h2 : heap) ps ps2 L1 :
  collapsing r depth h1 ps L1 ∅ →
  splice_nodes fuel (mkTree h1 r) m ps = Ok (h2, ps2) →
  (∃ L2, tree_cert h2 r depth L2 ∧ L2 ⊆ L1) ∧
  same_lengths h1 h2 ∧ tips_stay h1 h2 ∧
  (∀ v, reachable h2 r v → reachable h1 r v) ∧
  (∀ v, reachable h1 r v →
     (reachable h2 r v ↔
      (is_terminal h1 v = true ∨ v = r ∨ branch_length (h1 !!! v) = None ∨
       ∃ b, branch_length (h1 !!! v) = Some b ∧ float_gt b m = true))).
Proof.
  intros HC1 H. unfold splice_nodes, get_nonterminals in H. simpl in H.
  inv_bind H. inv_bind Ha. rename a0 into l1, Ha0 into Hl1.
  injection Ha as <-.
  pose proof (collapsing_reach _ _ _ _ _ _ HC1) as Hreach1.
  pose proof (preorder_reachable _ _ _ _ Hl1) as Hlist1.
  assert (Hnodes : ∀ v, v ∈ filter (λ v, is_terminal h1 v = false) l1 →
            v ∈ L1).
  { intros v Hv. apply list_elem_of_filter in Hv as [_ Hin].
    by apply Hreach1, Hlist1. }
  destruct (splice_loop _ _ _ _ _ _ _ _ _ HC1 Hnodes H)
    as (L2 & D2 & HC2 & Hsplit & Hdead & Hlen & Hstay & Hdone).
  pose proof (collapsing_reach _ _ _ _ _ _ HC2) as Hreach2.
  split.
  { exists L2. split; [by apply (collapsing_cert _ _ _ ps2 _ D2)|].
    intros v Hv. apply Hsplit. by left. }
  split; [done|]. split; [done|]. split.
  { intros v Hv. apply Hreach1, Hsplit. left. by apply Hreach2. }
  intros v Hv.
  assert (HvL : v ∈ L2 ∨ v ∈ D2) by (by apply Hsplit, Hreach1).
  destruct HvL as [HvL|HvD].
  - split; [intros _|intros _; by apply Hreach2].
    destruct (is_terminal h1 v) eqn:Hterm; [by left|]. right.
    apply Hdone; [|done]. apply list_elem_of_filter. split; [done|].
    by apply Hlist1.
  - destruct (Hdead v HvD) as (Hvn & Hvr & b & Hb & Hgt).
    apply list_elem_of_filter in Hvn as [Hterm _]. split.
    + intros Hr. apply Hreach2 in Hr.
      by destruct (col_disj _ _ _ _ _ _ HC2 v Hr).
    + rewrite Hterm, Hb.
      intros [?|[?|[?|(b' & [= <-] & ?)]]]; try done. congruence.
Qed.

(** Both loops together. *)
Lemma collapse_sound fuel t m t' depth Lc :
  tree_cert (store t) (root t) depth Lc →
  collapse_polytomies fuel t m = Ok t' →
  root t' = root t ∧
  ∃ ps h1 ps2,
    get_parents fuel t = Ok ps ∧
    prune_tips fuel t m ps = Ok h1 ∧
    splice_nodes fuel (mkTree h1 (root t)) m ps = Ok (store t', ps2) ∧
    (∃ L1, collapsing (root t) depth h1 ps L1 ∅ ∧ L1 ⊆ Lc) ∧
    (∃ L2, tree_cert (store t') (root t) depth L2 ∧ L2 ⊆ Lc).
Proof.
  intros HC H. unfold collapse_polytomies in H.
  inv_bind H. rename a into ps, Ha into Hps.
  inv_bind H. rename a into h1, Ha into Hloop1.
  inv_bind H. destruct a as [h2 ps2]. rename Ha into Hloop2.
  injection H as <-. simpl. split; [done|]. exists ps, h1, ps2.
  do 3 (split; [done|]).
  destruct (prune_tips_sound _ _ _ _ _ _ _ _ HC Hps Hloop1)
    as ((L1 & HC1 & Hsub1) & _).
  split; [by exists L1|].
  destruct (splice_nodes_sound _ _ _ _ _ _ _ _ _ HC1 Hloop2)
    as ((L2 & HC2 & Hsub2) & _).
  exists L2. split; [done|]. by transitivity L1.
Qed.

(** ** Enough fuel *)

Lemma concat_mapM_ext {A B : Type} (f g : A → result (list B)) xs l :
  (∀ x lx, x ∈ xs → f x = Ok lx → g x = Ok lx) →
  concat_mapM f xs = Ok l → concat_mapM g xs = Ok l.
Proof.
  revert l. induction xs as [|x xs IH]; intros l Hfg H; simpl in *; [done|].
  inv_bind H. inv_bind H. injection H as <-.
  rewrite (Hfg x a); [|apply elem_of_cons; by left|done]. simpl.
  rewrite (IH a0); [done| |done].
  intros y ly Hy. apply Hfg, elem_of_cons. by right.
Qed.

Lemma concat_mapM_total {A B : Type} (f : A → result (list B)) xs :
  (∀ x, x ∈ xs → ∃ lx, f x = Ok lx) → ∃ l, concat_mapM f xs = Ok l.
Proof.
  induction xs as [|x xs IH]; intros Hf; simpl; [eauto|].
  destruct (Hf x) as [lx ->]; [apply elem_of_cons; by left|]. simpl.
  destruct IH as [l ->]; [|simpl; eauto].
  intros y Hy. apply Hf, elem_of_cons. by right.
Qed.

Lemma preorder_fuel_mono fuel fuel' (h : heap) v l :
  preorder_traverse fuel h v = Ok l → fuel ≤ fuel' →
  preorder_traverse fuel' h v = Ok l.
Proof.
  revert fuel' v l. induction fuel as [|fuel IH]; intros fuel' v l H Hle;
    [done|].
  destruct fuel' as [|fuel']; [lia|]. simpl in *. inv_bind H.
  rewrite (concat_mapM_ext (preorder_traverse fuel h)
             (preorder_traverse fuel' h) _ a); [done| |done].
  intros c lc _ Hc. apply IH; [done|lia].
Qed.

(** Depth that grows along every edge and is bounded makes the depth-first
    traversal finish. *)
Lemma preorder_total depth (L : gset nat) bound (h : heap) :
  (∀ p c, p ∈ L → c ∈ clades (h !!! p) → c ∈ L ∧ depth p < depth c) →
  (∀ v, v ∈ L → depth v ≤ bound) →
  ∀ fuel v, v ∈ L → bound - depth v < fuel →
    ∃ l, preorder_traverse fuel h v = Ok l.
Proof.
  intros Hedge Hb. induction fuel as [|fuel IH]; intros v Hv Hf; [lia|].
  simpl.
  destruct (concat_mapM_total (preorder_traverse fuel h) (clades (h !!! v)))
    as [rest ->]; [|simpl; eauto].
  intros c Hc. destruct (Hedge v c Hv Hc) as [HcL Hd].
  apply IH; [done|]. pose proof (Hb c HcL). lia.
Qed.

(** The breadth-first traversal takes one step for every clade that the
    depth-first traversals of its queue return. *)
Lemma level_total fuel0 (h : heap) :
  ∀ n queue ls,
    Forall2 (λ v l, preorder_traverse fuel0 h v = Ok l) queue ls →
    length (concat ls) ≤ n →
    ∀ fuel, n ≤ fuel → ∃ order, level_traverse fuel h queue = Ok order.
Proof.
  induction n as [|n IH]; intros queue ls Hall Hlen fuel Hfuel.
  - destruct Hall as [|v l queue ls Hv Hall].
    + destruct fuel; simpl; eauto.
    + apply preorder_unfold in Hv as (? & ? & _ & -> & _). simpl in Hlen. lia.
  - destruct Hall as [|v l queue ls Hv Hall].
    + destruct fuel; simpl; eauto.
    + destruct fuel as [|fuel]; [lia|]. simpl.
      apply preorder_unfold in Hv as (f' & rest & -> & -> & Hrest).
      apply concat_mapM_Ok in Hrest as (lcs & Hlcs & ->).
      destruct (IH (queue ++ clades (h !!! v)) (ls ++ lcs)) with (fuel := fuel)
        as [order ->]; [| |lia|simpl; eauto].
      * apply Forall2_app; [done|].
        eapply Forall2_impl; [exact Hlcs|]. intros c lc Hc.
        apply (preorder_fuel_mono f' (S f') h c lc Hc). lia.
      * simpl in Hlen. rewrite concat_app, length_app.
        rewrite length_app in Hlen. lia.
Qed.

Lemma level_fuel_mono fuel fuel' (h : heap) queue l :
  level_traverse fuel h queue = Ok l → fuel ≤ fuel' →
  level_traverse fuel' h queue = Ok l.
Proof.
  revert fuel' queue l. induction fuel as [|fuel IH];
    intros fuel' [|v queue] l H Hle.
  - by destruct fuel'.
  - done.
  - by destruct fuel'.
  - destruct fuel' as [|fuel']; [lia|]. simpl in *. inv_bind H.
    rewrite (IH fuel' _ a); [done|done|lia].
Qed.

(** Both traversals of a well-formed tree finish, given enough fuel. *)
Lemma traversals_total t :
  well_formed t →
  ∃ N, ∀ fuel, N ≤ fuel →
    (∃ l, preorder_traverse fuel (store t) (root t) = Ok l) ∧
    (∃ order, find_clades_level fuel t = Ok order).
Proof.
  intros (depth & L & HC).
  destruct (preorder_total depth L (max_list (depth <$> elements L)) (store t))
    with (fuel := S (max_list (depth <$> elements L))) (v := root t)
    as [l Hl].
  - intros p c Hp Hc. split; [by apply (cert_closed _ _ _ _ HC p)|].
    by apply (cert_depth _ _ _ _ HC).
  - intros v Hv. apply max_list_elem_of_le, list_elem_of_fmap.
    exists v. split; [done|]. by apply elem_of_elements.
  - apply HC.
  - lia.
  - exists (S (max_list (depth <$> elements L)) + length l).
    intros fuel Hfuel. split.
    + exists l. apply (preorder_fuel_mono _ _ _ _ _ Hl). lia.
    + apply (level_total (S (max_list (depth <$> elements L))) (store t)
               (length l) [root t] [l]).
      * by repeat constructor.
      * simpl. rewrite app_nil_r. lia.
      * lia.
Qed.

(** ** A tree with nothing to collapse *)

Lemma float_gt_spec b m : float_gt b m = true ↔ (m < b)%Q.
Proof.
  unfold float_gt. rewrite negb_true_iff. split.
  - intros H. apply Qnot_le_lt. intros Hle.
    apply Qle_bool_iff in Hle. congruence.
  - intros H. destruct (Qle_bool b m) eqn:Hb; [|done].
    apply Qle_bool_iff in Hb. by apply Qlt_not_le in H.
Qed.

Lemma collapse_fixed fuel t m ps l :
  get_parents fuel t = Ok ps →
  preorder_traverse fuel (store t) (root t) = Ok l →
  (∀ v, v ∈ l → is_terminal (store t) v = true →
     ∃ b, branch_length (store t !!! v) = Some b ∧ float_gt b m = true) →
  (∀ v, v ∈ l → is_terminal (store t) v = false → v ≠ root t →
     branch_length (store t !!! v) = None ∨
     ∃ b, branch_length (store t !!! v) = Some b ∧ float_gt b m = true) →
  collapse_polytomies fuel t m = Ok t.
Proof.
  intros Hps Hl Htips Hnodes.
  unfold collapse_polytomies, prune_tips, splice_nodes.
  rewrite Hps. simpl. unfold get_terminals, get_nonterminals. simpl.
  rewrite Hl. simpl. rewrite for_each_skip.
  - simpl. rewrite Hl. simpl. rewrite for_each_skip; [by destruct t|].
    intros v Hv. apply list_elem_of_filter in Hv as [Hterm Hv].
    unfold splice_node. destruct (decide (v = root t)) as [->|Hne].
    + destruct (branch_length _); [|done].
      rewrite bool_decide_eq_true_2 by done. by rewrite orb_true_r.
    + destruct (Hnodes v Hv Hterm Hne) as [->|(b & -> & ->)]; done.
  - intros v Hv. apply list_elem_of_filter in Hv as [Hterm Hv].
    unfold prune_tip. by destruct (Htips v Hv Hterm) as (b & -> & ->).
Qed.

(** ** The checker of well-formed trees *)

Lemma check_tree_sound t depth L :
  check_tree t depth L = true → well_formed t.
Proof.
  intros H. exists depth, (list_to_set L). unfold check_tree in H.
  apply andb_prop in H as [Hroot Hall]. apply bool_decide_eq_true in Hroot.
  assert (Hcheck : ∀ p, p ∈ L →
    NoDup (clades (store t !!! p)) ∧ (root t ∉ clades (store t !!! p)) ∧
    (∀ c, c ∈ clades (store t !!! p) → c ∈ L ∧ depth p < depth c) ∧
    (∀ q c, q ∈ L → c ∈ clades (store t !!! p) → c ∈ clades (store t !!! q) →
       p = q)).
  { intros p Hp. apply Is_true_true_2, forallb_True in Hall.
    rewrite Forall_forall in Hall. specialize (Hall p Hp). simpl in Hall.
    apply andb_True in Hall as [Hall Hpar]. apply andb_True in Hall as [Hall Hkids].
    apply andb_True in Hall as [Hnd Htop].
    apply bool_decide_spec in Hnd. apply bool_decide_spec in Htop.
    split; [done|]. split; [done|]. split.
    - intros c Hc. apply forallb_True in Hkids. rewrite Forall_forall in Hkids.
      specialize (Hkids c Hc). apply andb_True in Hkids as [HcL Hd].
      apply bool_decide_spec in HcL. apply Is_true_true_1, Nat.ltb_lt in Hd.
      done.
    - intros q c Hq Hcp Hcq. apply forallb_True in Hpar.
      rewrite Forall_forall in Hpar. specialize (Hpar q Hq).
      apply orb_True in Hpar as [Heq|Hdis]; [by apply bool_decide_spec in Heq|].
      apply forallb_True in Hdis. rewrite Forall_forall in Hdis.
      specialize (Hdis c Hcp). by apply bool_decide_spec in Hdis. }
  split.
  - by apply elem_of_list_to_set.
  - intros p c Hp Hc. apply elem_of_list_to_set in Hp.
    apply elem_of_list_to_set. by apply (Hcheck p Hp).
  - intros p c Hp Hc. apply elem_of_list_to_set in Hp. by apply (Hcheck p Hp).
  - intros p Hp. apply elem_of_list_to_set in Hp. by apply (Hcheck p Hp).
  - intros p q c Hp Hq Hcp Hcq. apply elem_of_list_to_set in Hp, Hq.
    by apply (Hcheck p Hp) with (c := c).
  - intros p Hp. apply elem_of_list_to_set in Hp. by apply (Hcheck p Hp).
Qed.

(** ** A traversal of a well-formed tree meets every clade once *)

Lemma reachable_trans (h : heap) a b c :
  reachable h a b → reachable h b c → reachable h a c.
Proof.
  intros Hab. induction 1 as [|p x _ IH Hx]; [done|].
  by apply (reach_child _ _ p).
Qed.

Section cert.
Context (h : heap) (r : nat) (depth : nat → nat) (L : gset nat).
Hypothesis HC : tree_cert h r depth L.

Lemma cert_reach_in a x : a ∈ L → reachable h a x → x ∈ L.
Proof.
  intros Ha. apply (reachable_within (λ y, y ∈ L)); [apply HC|done].
Qed.

Lemma cert_reach_depth a x : a ∈ L → reachable h a x → depth a ≤ depth x.
Proof.
  intros Ha. induction 1 as [|p c Hp IH Hc]; [done|].
  pose proof (cert_depth _ _ _ _ HC p c (cert_reach_in a p Ha Hp) Hc). lia.
Qed.

(** Two clades above the same clade lie on one path from the root. *)
Lemma cert_chain a b x :
  a ∈ L → b ∈ L → reachable h a x → reachable h b x →
  reachable h a b ∨ reachable h b a.
Proof.
  intros Ha Hb Hax. revert b Hb.
  induction Hax as [|p c Hp IH Hc]; intros b Hb Hbx; [by right|].
  apply reachable_inv in Hbx as [->|(q & Hq & Hcq)].
  - left. by apply (reach_child _ _ p).
  - assert (p = q) as <-.
    { apply (cert_parent _ _ _ _ HC p q c); [| |done..].
      - by apply (cert_reach_in a).
      - by apply (cert_reach_in b). }
    by apply IH.
Qed.

(** The subtrees of two children of a clade have no clade in common. *)
Lemma cert_apart v c1 c2 x :
  v ∈ L → c1 ∈ clades (h !!! v) → c2 ∈ clades (h !!! v) → c1 ≠ c2 →
  reachable h c1 x → reachable h c2 x → False.
Proof.
  intros Hv H1 H2 Hne Hx1 Hx2.
  pose proof (cert_closed _ _ _ _ HC v c1 Hv H1) as Hc1.
  pose proof (cert_closed _ _ _ _ HC v c2 Hv H2) as Hc2.
  assert (Hup : ∀ a b, a ∈ clades (h !!! v) → b ∈ clades (h !!! v) →
            a ≠ b → reachable h a b → False).
  { intros a b Ha Hb Hab Hr.
    pose proof (cert_closed _ _ _ _ HC v a Hv Ha) as HaL.
    apply reachable_inv in Hr as [?|(q & Hq & Hbq)]; [done|].
    assert (q = v) as ->.
    { apply (cert_parent _ _ _ _ HC q v b); [|done..].
      by apply (cert_reach_in a). }
    pose proof (cert_reach_depth a v HaL Hq).
    pose proof (cert_depth _ _ _ _ HC v a Hv Ha). lia. }
  destruct (cert_chain c1 c2 x Hc1 Hc2 Hx1 Hx2) as [Hr|Hr].
  - by apply (Hup c1 c2).
  - by apply (Hup c2 c1).
Qed.

Lemma preorder_NoDup fuel v l :
  v ∈ L → preorder_traverse fuel h v = Ok l → NoDup l.
Proof.
  revert v l. induction fuel as [|fuel IH]; intros v l Hv Hl; [done|].
  pose proof Hl as Hl'.
  apply preorder_unfold in Hl' as (f' & rest & [= <-] & -> & Hrest).
  apply NoDup_cons. split.
  - intros Hin.
    destruct (concat_mapM_elem _ _ _ _ Hrest Hin) as (c & lc & Hc & Hlc & Hvc).
    apply (preorder_reachable _ _ _ _ Hlc) in Hvc.
    pose proof (cert_closed _ _ _ _ HC v c Hv Hc) as HcL.
    pose proof (cert_reach_depth c v HcL Hvc).
    pose proof (cert_depth _ _ _ _ HC v c Hv Hc). lia.
  - assert (Haux : ∀ cs rest,
      (∀ c, c ∈ cs → c ∈ clades (h !!! v)) → NoDup cs →
      concat_mapM (preorder_traverse fuel h) cs = Ok rest → NoDup rest).
    { clear rest Hrest Hl.
      induction cs as [|c cs IHcs]; intros rest Hsub Hnd Hrest;
        simpl in Hrest.
      - injection Hrest as <-. constructor.
      - inv_bind Hrest. inv_bind Hrest. injection Hrest as <-.
        apply NoDup_cons in Hnd as [Hc Hnd].
        assert (Hcv : c ∈ clades (h !!! v)).
        { apply Hsub, elem_of_cons. by left. }
        apply NoDup_app. split; [|split].
        + apply (IH c); [|done]. by apply (cert_closed _ _ _ _ HC v).
        + intros x Hx Hx'.
          destruct (concat_mapM_elem _ _ _ _ Ha0 Hx')
            as (c' & lc' & Hc' & Hlc' & Hxc').
          apply (preorder_reachable _ _ _ _ Ha) in Hx.
          apply (preorder_reachable _ _ _ _ Hlc') in Hxc'.
          apply (cert_apart v c c' x); try done.
          * apply Hsub, elem_of_cons. by right.
          * by intros ->.
        + apply IHcs; [|done|done]. intros c' Hc'.
          apply Hsub, elem_of_cons. by right. }
    apply (Haux (clades (h !!! v))); [done| |done].
    by apply (cert_nodup _ _ _ _ HC).
Qed.
End cert.

(** The breadth-first order lists the clades of the depth-first one. *)
Lemma level_perm fuel0 (h : heap) :
  ∀ fuel queue ls l,
    Forall2 (λ v lv, preorder_traverse fuel0 h v = Ok lv) queue ls →
    level_traverse fuel h queue = Ok l →
    l ≡ₚ concat ls.
Proof.
  induction fuel as [|fuel IH]; intros queue ls l Hall Hl.
  - destruct Hall as [|v lv queue ls Hv Hall]; [|done].
    by injection Hl as <-.
  - destruct Hall as [|v lv queue ls Hv Hall].
    + by injection Hl as <-.
    + apply level_unfold in Hl as (f' & rest & [= <-] & -> & Hrest).
      apply preorder_unfold in Hv as (f0 & tl & -> & -> & Htl).
      apply concat_mapM_Ok in Htl as (lcs & Hlcs & ->).
      assert (Hperm : rest ≡ₚ concat (ls ++ lcs)).
      { apply (IH (queue ++ clades (h !!! v))); [|done].
        apply Forall2_app; [done|].
        eapply Forall2_impl; [exact Hlcs|]. intros c lc Hc.
        apply (preorder_fuel_mono f0 (S f0) h c lc Hc). lia. }
      simpl. constructor. rewrite Hperm, concat_app.
      apply Permutation_app_comm.
Qed.

Lemma level_NoDup fuel t order :
  well_formed t → find_clades_level fuel t = Ok order → NoDup order.
Proof.
  intros Hwf Horder. destruct (traversals_total t Hwf) as [N HN].
  destruct (HN N) as [[l Hl] _]; [done|].
  destruct Hwf as (depth & L & HC).
  pose proof (preorder_NoDup _ _ _ _ HC _ _ _ (cert_root _ _ _ _ HC) Hl) as Hnd.
  unfold find_clades_level in Horder.
  rewrite (level_perm N (store t) fuel [root t] [l] order); [|by repeat constructor|done].
  simpl. by rewrite app_nil_r.
Qed.

Lemma preorder_NoDup_wf fuel t l :
  well_formed t → preorder_traverse fuel (store t) (root t) = Ok l → NoDup l.
Proof.
  intros (depth & L & HC).
  apply (preorder_NoDup _ _ _ _ HC). apply HC.
Qed.

(** ** annotate_tree *)

Lemma concat_mapM_Raise {A B : Type} (f : A → result (list B)) xs e e0 :
  (∀ x e', f x = Raise e' → e' = e0) →
  concat_mapM f xs = Raise e → e = e0.
Proof.
  intros Hf. induction xs as [|x xs IH]; simpl; [done|].
  destruct (f x) as [l|e'] eqn:Hx; simpl.
  - destruct (concat_mapM f xs) as [r|e'']; simpl; [done|].
    intros [= <-]. by apply IH.
  - intros [= <-]. by apply (Hf x).
Qed.

Lemma preorder_Raise fuel (h : heap) v e :
  preorder_traverse fuel h v = Raise e → e = OutOfFuel.
Proof.
  revert v e. induction fuel as [|fuel IH]; intros v e; simpl;
    [by intros [= <-]|].
  destruct (concat_mapM _ _) as [l|e'] eqn:H; simpl; [done|].
  intros [= <-]. apply (concat_mapM_Raise _ _ _ _ IH H).
Qed.

Lemma level_Raise fuel (h : heap) queue e :
  level_traverse fuel h queue = Raise e → e = OutOfFuel.
Proof.
  revert queue e. induction fuel as [|fuel IH]; intros [|v queue] e; simpl;
    try done; [by intros [= <-]|].
  destruct (level_traverse fuel h _) as [l|e'] eqn:H; simpl; [done|].
  intros [= <-]. by apply (IH _ _ H).
Qed.

(** The traversals read the children of a clade and nothing else. *)
Lemma concat_mapM_fun {A B : Type} (f g : A → result (list B)) xs :
  (∀ x, f x = g x) → concat_mapM f xs = concat_mapM g xs.
Proof.
  intros Hfg. induction xs as [|x xs IH]; simpl; [done|].
  by rewrite Hfg, IH.
Qed.

Lemma preorder_same_clades fuel (h h' : heap) v :
  (∀ x, clades (h' !!! x) = clades (h !!! x)) →
  preorder_traverse fuel h' v = preorder_traverse fuel h v.
Proof.
  intros Hcl. revert v. induction fuel as [|fuel IH]; intros v; simpl; [done|].
  by rewrite Hcl, (concat_mapM_fun _ _ _ IH).
Qed.

Lemma is_terminal_same_clades (h h' : heap) v :
  clades (h' !!! v) = clades (h !!! v) → is_terminal h' v = is_terminal h v.
Proof. unfold is_terminal. by intros ->. Qed.

(** A loop over distinct clades whose body writes only the clade it is given:
    every clade of the list is written once, starting from what it was. *)
Lemma for_each_heap (body : nat → heap → result heap) xs (h h' : heap) :
  (∀ x (h1 h2 : heap), body x h1 = Ok h2 → ∀ v, v ≠ x → h2 !!! v = h1 !!! v) →
  NoDup xs →
  for_each xs body h = Ok h' →
  (∀ v, v ∉ xs → h' !!! v = h !!! v) ∧
  (∀ x, x ∈ xs → ∃ h1 h2 : heap,
     body x h1 = Ok h2 ∧ h1 !!! x = h !!! x ∧ h' !!! x = h2 !!! x).
Proof.
  intros Hframe. revert h. induction xs as [|y xs IH]; intros h Hnd H;
    simpl in H.
  - injection H as <-. split; [done|]. intros x Hx. by apply elem_of_nil in Hx.
  - inv_bind H. apply NoDup_cons in Hnd as [Hy Hnd].
    destruct (IH a Hnd H) as [Hout Hin]. split.
    + intros v Hv. rewrite Hout.
      * apply (Hframe y h a Ha). intros ->. apply Hv, elem_of_cons. by left.
      * intros Hv'. apply Hv, elem_of_cons. by right.
    + intros x Hx. apply elem_of_cons in Hx as [->|Hx].
      * exists h, a. split; [done|]. split; [done|]. by apply Hout.
      * destruct (Hin x Hx) as (h1 & h2 & Hb & H1 & H2).
        exists h1, h2. split; [done|]. split; [|done].
        rewrite H1. apply (Hframe y h a Ha). by intros ->.
Qed.

(** Looking up all the identifiers of a name. *)
Lemma extend_labels_Ok (d : gmap string (list string)) ks lss :
  Forall2 (λ k ls, d !! k = Some ls) ks lss →
  extend_labels d ks = Ok (concat lss).
Proof.
  unfold extend_labels. induction 1 as [|k ls ks lss Hk _ IH]; simpl; [done|].
  assert (Hget : getitem d k = Ok ls) by (unfold getitem; by rewrite Hk).
  by rewrite Hget, IH.
Qed.

Lemma extend_labels_inv (d : gmap string (list string)) ks ls :
  extend_labels d ks = Ok ls →
  ∃ lss, Forall2 (λ k ls, d !! k = Some ls) ks lss ∧ ls = concat lss.
Proof.
  unfold extend_labels. intros H.
  apply concat_mapM_Ok in H as (lss & Hall & ->). exists lss. split; [|done].
  eapply Forall2_impl; [exact Hall|]. intros k l. unfold getitem.
  destruct (d !! k); [|done]. by intros [= ->].
Qed.

Lemma extend_labels_missing (d : gmap string (list string)) ks k :
  k ∈ ks → d !! k = None → extend_labels d ks = Raise KeyError.
Proof.
  unfold extend_labels. intros Hk Hnone.
  induction ks as [|k' ks IH]; [by apply elem_of_nil in Hk|]. simpl.
  destruct (d !! k') as [l|] eqn:Hk'.
  - assert (Hget : getitem d k' = Ok l) by (unfold getitem; by rewrite Hk').
    rewrite Hget. simpl.
    apply elem_of_cons in Hk as [->|Hk]; [congruence|]. by rewrite IH.
  - assert (Hget : getitem d k' = Raise KeyError)
      by (unfold getitem; by rewrite Hk').
    by rewrite Hget.
Qed.

Lemma split_bar_no_bar n : contains_bar n = false → split_bar n = [n].
Proof.
  induction n as [|c n IH]; simpl; [done|].
  destruct (Ascii.eqb c "|"); simpl; [done|]. intros H. by rewrite IH.
Qed.

(** The two branches of the loop over the tips look up the same list. *)
Lemma annotate_tip_spec (d : gmap string (list string)) tip (h : heap) n :
  name (h !!! tip) = Some n →
  annotate_tip d tip h =
  ls ← extend_labels d (split_bar n);
  Ok (<[tip := set_labels (h !!! tip) ls]> h).
Proof.
  intros Hn. unfold annotate_tip. rewrite Hn.
  destruct (contains_bar n) eqn:Hbar; [done|].
  rewrite (split_bar_no_bar n Hbar). unfold extend_labels. simpl.
  destruct (getitem d n); simpl; [|done]. by rewrite app_nil_r.
Qed.

Lemma annotate_tip_frame (d : gmap string (list string)) tip (h h' : heap) :
  annotate_tip d tip h = Ok h' → ∀ v, v ≠ tip → h' !!! v = h !!! v.
Proof.
  unfold annotate_tip. intros H v Hv.
  destruct (name (h !!! tip)) as [n|]; [|done].
  destruct (contains_bar n); inv_bind H; injection H as <-;
    by rewrite lookup_total_insert_ne.
Qed.

Lemma annotate_node_frame (d : gmap string (list string)) node (h h' : heap) :
  annotate_node d node h = Ok h' → ∀ v, v ≠ node → h' !!! v = h !!! v.
Proof.
  unfold annotate_node. intros H v Hv.
  destruct (name (h !!! node)) as [n|].
  - inv_bind H. injection H as <-. by rewrite lookup_total_insert_ne.
  - injection H as <-. by rewrite lookup_total_insert_ne.
Qed.

Lemma annotate_tip_inv (d : gmap string (list string)) tip (h h' : heap) :
  annotate_tip d tip h = Ok h' →
  ∃ n ls, name (h !!! tip) = Some n ∧
    extend_labels d (split_bar n) = Ok ls ∧
    h' = <[tip := set_labels (h !!! tip) ls]> h.
Proof.
  intros H. destruct (name (h !!! tip)) as [n|] eqn:Hn.
  - rewrite (annotate_tip_spec d tip h n Hn) in H. inv_bind H.
    injection H as <-. by exists n, a.
  - unfold annotate_tip in H. by rewrite Hn in H.
Qed.

Lemma collapse_well_formed fuel t m tc :
  well_formed t → collapse_polytomies fuel t m = Ok tc → well_formed tc.
Proof.
  intros (depth & L & HC) H.
  destruct (collapse_sound _ _ _ _ _ _ HC H)
    as (Hr & _ & _ & _ & _ & _ & _ & _ & (L2 & HC2 & _)).
  exists depth, L2. by rewrite Hr.
Qed.

(** The result of the body of [annotate_tree] that follows the validation:
    every clade of the collapsed tree carries the labels that its name looks
    up, and nothing else has changed. *)
Lemma annotate_collapsed_inv fuel t d m t' :
  well_formed t →
  annotate_collapsed fuel t d m = Ok t' →
  ∃ tc, collapse_polytomies fuel t m = Ok tc ∧ root t' = root tc ∧
    ∀ v, reachable (store tc) (root tc) v → annotated d tc v (store t' !!! v).
Proof.
  intros Hwf H. unfold annotate_collapsed in H.
  inv_bind H. rename a into tc, Ha into Hc. exists tc. split; [done|].
  inv_bind H. rename a into tips, Ha into Htips.
  inv_bind H. rename a into h1, Ha into Hloop1.
  inv_bind H. rename a into nodes, Ha into Hnodes.
  inv_bind H. rename a into h2, Ha into Hloop2.
  injection H as <-. simpl. split; [done|].
  pose proof (collapse_well_formed _ _ _ _ Hwf Hc) as Hwfc.
  unfold get_terminals in Htips. inv_bind Htips. rename a into l, Ha into Hl.
  injection Htips as <-.
  pose proof (preorder_NoDup_wf _ _ _ Hwfc Hl) as Hnd.
  destruct (for_each_heap _ _ _ _ (annotate_tip_frame d)
              (NoDup_filter _ _ Hnd) Hloop1) as [Hout1 Hin1].
  assert (Hmid : ∀ v,
    (v ∈ filter (λ v, is_terminal (store tc) v = true) l ∧
     ∃ n ls, name (store tc !!! v) = Some n ∧
       extend_labels d (split_bar n) = Ok ls ∧
       h1 !!! v = set_labels (store tc !!! v) ls) ∨
    ((v ∉ filter (λ v, is_terminal (store tc) v = true) l) ∧
     h1 !!! v = store tc !!! v)).
  { intros v.
    destruct (decide (v ∈ filter (λ v, is_terminal (store tc) v = true) l))
      as [Hv|Hv]; [left|right; split; [done|by apply Hout1]].
    split; [done|]. destruct (Hin1 v Hv) as (ha & hb & Hb & Ha & Hh1).
    apply annotate_tip_inv in Hb as (n & ls & Hn & Hls & ->).
    rewrite lookup_total_insert_eq in Hh1. rewrite Ha in Hn, Hh1.
    by exists n, ls. }
  assert (Hcl : ∀ v, clades (h1 !!! v) = clades (store tc !!! v)).
  { intros v. destruct (Hmid v) as [(_ & n & ls & _ & _ & ->)|[_ ->]]; done. }
  unfold get_nonterminals in Hnodes. simpl in Hnodes.
  rewrite (preorder_same_clades _ _ _ _ Hcl), Hl in Hnodes. simpl in Hnodes.
  injection Hnodes as <-.
  destruct (for_each_heap _ _ _ _ (annotate_node_frame d)
              (NoDup_filter _ _ Hnd) Hloop2) as [Hout2 Hin2].
  intros v Hv. apply (preorder_reachable _ _ _ _ Hl) in Hv.
  unfold annotated.
  destruct (is_terminal (store tc) v) eqn:Hterm.
  - destruct (Hmid v) as [(_ & n & ls & Hn & Hls & Hh1)|[Hnot _]].
    + rewrite Hn. exists ls. split; [done|]. rewrite Hout2; [done|].
      intros Hin. apply list_elem_of_filter in Hin as [Hin _].
      rewrite (is_terminal_same_clades _ _ _ (Hcl v)) in Hin. congruence.
    + destruct Hnot. by apply list_elem_of_filter.
  - destruct (Hmid v) as [(Hin & _)|[_ Hh1]].
    { apply list_elem_of_filter in Hin as [Hin _]. congruence. }
    destruct (Hin2 v) as (ha & hb & Hb & Ha & Hh2).
    { apply list_elem_of_filter. split; [|done].
      by rewrite (is_terminal_same_clades _ _ _ (Hcl v)). }
    rewrite Hh1 in Ha. unfold annotate_node in Hb. rewrite Ha in Hb.
    destruct (name (store tc !!! v)) as [n|].
    + inv_bind Hb. injection Hb as <-.
      rewrite lookup_total_insert_eq in Hh2. exists a. by rewrite Hh2.
    + injection Hb as <-. rewrite lookup_total_insert_eq in Hh2.
      by rewrite Hh2.
Qed.

(** The validation does not touch the result. *)
Lemma annotate_tree_result fuel t d m cb :
  (annotate_tree fuel t d m cb).2 = annotate_collapsed fuel t d m.
Proof.
  unfold annotate_tree. destruct (get_terminals fuel t) as [tips|e] eqn:H;
    [done|].
  simpl. unfold annotate_collapsed, collapse_polytomies, prune_tips.
  rewrite H. unfold get_terminals in H.
  destruct (preorder_traverse fuel (store t) (root t)) as [l|e'] eqn:Hl;
    [done|].
  injection H as <-. apply preorder_Raise in Hl as ->.
  unfold get_parents, find_clades_level.
  destruct (level_traverse fuel (store t) [root t]) as [o|e'] eqn:Ho; [done|].
  by apply level_Raise in Ho as ->.
Qed.

(** ** serialize_tree *)

(** A loop invariant that knows where in the list the loop is. *)
Lemma for_each_inv_pos {A S : Type} (I : list A → S → Prop) (xs : list A)
    (body : A → S → result S) (s s' : S) :
  for_each xs body s = Ok s' →
  I [] s →
  (∀ done x rest s1 s2, xs = done ++ x :: rest → I done s1 →
                        body x s1 = Ok s2 → I (done ++ [x]) s2) →
  I xs s'.
Proof.
  intros Hrun H0 Hstep.
  cut (∀ done rest s0, xs = done ++ rest → I done s0 →
         for_each rest body s0 = Ok s' → I xs s').
  { intros Hcut. by apply (Hcut [] xs s). }
  intros done rest. revert done.
  induction rest as [|x rest IH]; intros done s0 Hxs HI Hr; simpl in Hr.
  - rewrite app_nil_r in Hxs. injection Hr as <-. by subst xs.
  - inv_bind Hr.
    apply (IH (done ++ [x]) a); [by rewrite <- app_assoc| |done].
    by apply (Hstep done x rest s0 a).
Qed.

Lemma assign_variant_inv ls count variant payload count' :
  assign_variant ls count = Ok (variant, payload, count') →
  (ls = [] ∧ variant = "unsampled" +:+ str_nat count ∧ payload = [] ∧
   count' = S count) ∨
  (ls ≠ [] ∧ earliest_accession (sorted_samples ls) = Ok variant ∧
   payload = sorted_samples ls ∧ count' = count).
Proof.
  unfold assign_variant. destruct ls as [|l ls].
  - intros [= <- <- <-]. by left.
  - intros H. inv_bind H. injection H as <- <- <-. by right.
Qed.

(** The body of the loop, inverted. *)
Lemma serialize_node_inv (h : heap) r parents node s s' :
  serialize_node h r parents node s = Ok s' →
  ∃ ls variant payload,
    labels (h !!! node) = Some ls ∧
    assign_variant ls (us_count s) = Ok (variant, payload, us_count s') ∧
    payload = payload_of h node ∧
    variant_d s' = <[node := variant]> (variant_d s) ∧
    nodes (obj s') = <[variant := payload]> (nodes (obj s)) ∧
    ((node = r ∧ edges (obj s') = edges (obj s)) ∨
     (node ≠ r ∧ ∃ parent pv b,
        parents !! node = Some parent ∧
        <[node := variant]> (variant_d s) !! parent = Some pv ∧
        branch_length (h !!! node) = Some b ∧
        edges (obj s') =
        edges (obj s) ++ [(pv, variant, round2 b, confidence (h !!! node))])).
Proof.
  unfold serialize_node. intros H.
  destruct (labels (h !!! node)) as [ls|] eqn:Hls; [|done].
  inv_bind H. destruct a as [[variant payload] count].
  exists ls, variant, payload. split; [done|].
  assert (Hpay : payload = payload_of h node).
  { unfold payload_of. rewrite Hls.
    apply assign_variant_inv in Ha as [(-> & _ & -> & _)|(Hne & _ & -> & _)];
      [done|]. by destruct ls. }
  destruct (bool_decide (node = r)) eqn:Hr.
  - apply bool_decide_eq_true in Hr. injection H as <-. simpl.
    do 4 (split; [done|]). by left.
  - apply bool_decide_eq_false in Hr.
    destruct (parents !! node) as [parent|]; [|done].
    destruct (<[node:=variant]> (variant_d s) !! parent) as [pv|] eqn:Hpv;
      [|done].
    destruct (branch_length (h !!! node)) as [b|]; [|done].
    injection H as <-. simpl. do 4 (split; [done|]). right.
    split; [done|]. by exists parent, pv, b.
Qed.

(** ** The sort of the samples *)

Lemma row_compare_antisym a b :
  row_compare a b = CompOpp (row_compare b a).
Proof.
  revert b. induction a as [|x a IH]; intros [|y b]; simpl; try done.
  rewrite (String.compare_antisym y x).
  destruct (String.compare x y); simpl; [apply IH|done|done].
Qed.

Lemma row_leb_total a b : row_leb a b = false → row_leb b a = true.
Proof.
  unfold row_leb. rewrite (row_compare_antisym b a).
  by destruct (row_compare a b).
Qed.

Lemma insert_row_perm r rows : insert_row r rows ≡ₚ r :: rows.
Proof.
  induction rows as [|r' rows IH]; simpl; [done|].
  destruct (row_leb r r'); [done|]. rewrite IH. apply perm_swap.
Qed.

Lemma sort_rows_perm rows : sort_rows rows ≡ₚ rows.
Proof.
  induction rows as [|r rows IH]; simpl; [done|].
  by rewrite insert_row_perm, IH.
Qed.

Lemma insert_row_sorted r rows :
  Sorted row_le rows → Sorted row_le (insert_row r rows).
Proof.
  induction 1 as [|r' rows Hs IH Hhd]; simpl.
  - by repeat constructor.
  - destruct (row_leb r r') eqn:Hle.
    + constructor; [by constructor|]. by constructor.
    + constructor; [done|]. apply row_leb_total in Hle.
      destruct Hhd as [|r'' rows' Hr'']; simpl.
      * by constructor.
      * destruct (row_leb r r''); by constructor.
Qed.

Lemma sort_rows_sorted rows : Sorted row_le (sort_rows rows).
Proof.
  induction rows as [|r rows IH]; simpl; [constructor|].
  by apply insert_row_sorted.
Qed.

(** ** The loop of serialize_tree *)

Lemma serialized_step (h : heap) r ps done x s s' :
  x ∉ done →
  serialized h r done s →
  serialize_node h r ps x s = Ok s' →
  serialized h r (done ++ [x]) s'.
Proof.
  intros Hx HS H.
  apply serialize_node_inv in H
    as (ls & variant & payload & Hls & Hvar & Hpay & Hvd & Hnodes & Hedges).
  assert (Hold : ∀ n, n ∈ done → variant_d s' !! n = variant_d s !! n).
  { intros n Hn. rewrite Hvd, lookup_insert_ne; [done|]. by intros ->. }
  assert (Hnew : variant_d s' !! x = Some variant).
  { by rewrite Hvd, lookup_insert_eq. }
  assert (Hkeep : ∀ e, e ∈ edges (obj s) → e ∈ edges (obj s')).
  { intros e He. destruct Hedges as [[_ ->]|(_ & p & pv & b & _ & _ & _ & ->)];
      [done|]. apply elem_of_app. by left. }
  apply assign_variant_inv in Hvar.
  assert (Hfilter : filter (unsampled h) (done ++ [x]) =
            filter (unsampled h) done ++
            (if decide (ls = []) then [x] else [])).
  { rewrite filter_app. f_equal. destruct (decide (ls = [])) as [->|Hne].
    - by rewrite filter_cons_True.
    - rewrite filter_cons_False; [done|]. unfold unsampled. rewrite Hls.
      by intros [= ->]. }
  split.
  - intros v Hv. rewrite Hvd, lookup_insert_ne.
    + apply (ser_fresh _ _ _ _ HS). intros Hin. apply Hv, elem_of_app.
      by left.
    + intros ->. apply Hv, elem_of_app. right. by apply list_elem_of_singleton.
  - rewrite Hfilter, length_app, <- (ser_count _ _ _ _ HS).
    destruct Hvar as [(-> & _ & _ & ->)|(Hne & _ & _ & ->)].
    + rewrite decide_True by done. simpl. lia.
    + rewrite decide_False by done. simpl. lia.
  - intros k node Hk. rewrite Hfilter in Hk.
    destruct (decide (k < length (filter (unsampled h) done))) as [Hlt|Hge].
    + rewrite lookup_app_l in Hk by done. rewrite Hold.
      * by apply (ser_unsampled _ _ _ _ HS).
      * apply list_elem_of_lookup_2 in Hk.
        by apply list_elem_of_filter in Hk as [_ ?].
    + rewrite lookup_app_r in Hk by lia.
      destruct Hvar as [(-> & -> & _ & _)|(Hne & _ & _ & _)].
      * rewrite decide_True in Hk by done.
        apply list_lookup_singleton_Some in Hk as [Hk <-].
        assert (k = us_count s) as ->
          by (rewrite (ser_count _ _ _ _ HS); lia).
        by rewrite Hnew.
      * rewrite decide_False in Hk by done. done.
  - intros node ls' Hnode Hls' Hne. apply elem_of_app in Hnode as [Hnode|Hnode].
    + rewrite Hold by done. by apply (ser_sampled _ _ _ _ HS).
    + apply list_elem_of_singleton in Hnode as ->.
      rewrite Hls in Hls'. injection Hls' as <-.
      destruct Hvar as [(-> & _)|(_ & Hv & _)]; [done|]. by exists variant.
  - intros node v Hv. destruct (decide (v = variant)) as [->|Hne].
    + exists done, x, []. split; [done|]. split; [done|]. split.
      * by rewrite Hnodes, lookup_insert_eq, Hpay.
      * intros n' Hn'. by apply elem_of_nil in Hn'.
    + assert (Hnode : node ≠ x).
      { intros ->. rewrite Hnew in Hv. by injection Hv as ->. }
      rewrite Hvd, lookup_insert_ne in Hv by done.
      destruct (ser_last _ _ _ _ HS node v Hv)
        as (l1 & last & l2 & -> & Hlast & Hpayload & Hafter).
      exists l1, last, (l2 ++ [x]). split; [by rewrite <- app_assoc|].
      split; [|split].
      * rewrite Hold; [done|]. apply elem_of_app. right.
        apply elem_of_cons. by left.
      * by rewrite Hnodes, lookup_insert_ne.
      * intros n' Hn'. apply elem_of_app in Hn' as [Hn'|Hn'].
        -- rewrite Hold; [by apply Hafter|]. apply elem_of_app. right.
           apply elem_of_cons. by right.
        -- apply list_elem_of_singleton in Hn' as ->. rewrite Hnew.
           by intros [= ->].
  - intros node Hnode. apply elem_of_app in Hnode as [Hnode|Hnode].
    + rewrite Hold by done. by apply (ser_all _ _ _ _ HS).
    + apply list_elem_of_singleton in Hnode as ->. by rewrite Hnew.
  - intros v Hv. rewrite Hnodes in Hv.
    destruct (decide (v = variant)) as [->|Hne].
    + exists x. split; [|done]. apply elem_of_app. right.
      by apply list_elem_of_singleton.
    + rewrite lookup_insert_ne in Hv by done.
      destruct (ser_keys _ _ _ _ HS v Hv) as (node & Hnode & Hvn).
      exists node. split; [apply elem_of_app; by left|]. by rewrite Hold.
  - intros node v Hnode Hr Hv. apply elem_of_app in Hnode as [Hnode|Hnode].
    + rewrite Hold in Hv by done.
      destruct (ser_edges _ _ _ _ HS node v Hnode Hr Hv) as (pv & b & c & He).
      exists pv, b, c. by apply Hkeep.
    + apply list_elem_of_singleton in Hnode as ->.
      rewrite Hnew in Hv. injection Hv as <-.
      destruct Hedges as [[? _]|(_ & p & pv & b & _ & _ & _ & ->)]; [done|].
      exists pv, (round2 b), (confidence (h !!! x)). apply elem_of_app.
      right. by apply list_elem_of_singleton.
Qed.

Lemma serialized_start (h : heap) r :
  serialized h r [] (mkSer (mkGraph ∅ []) ∅ 0).
Proof.
  split; simpl; try done; intros;
    try match goal with H : _ ∈ [] |- _ => by apply elem_of_nil in H end.
  match goal with H : is_Some (∅ !! _) |- _ =>
    rewrite lookup_empty in H; by destruct H end.
Qed.

(** The loop over a well-formed tree, which it meets in level order. *)
Lemma serialize_loop_sound fuel t s :
  well_formed t →
  serialize_loop fuel t = Ok s →
  ∃ order, find_clades_level fuel t = Ok order ∧ NoDup order ∧
    (∀ v, v ∈ order ↔ reachable (store t) (root t) v) ∧
    serialized (store t) (root t) order s.
Proof.
  intros Hwf H. unfold serialize_loop in H.
  inv_bind H. rename a into ps. inv_bind H. rename a into order.
  exists order. split; [done|].
  pose proof (level_NoDup _ _ _ Hwf Ha0) as Hnd. split; [done|].
  split; [by apply (level_reachable fuel)|].
  apply (for_each_inv_pos (serialized (store t) (root t))) in H; [done| |].
  - apply serialized_start.
  - intros done x rest s1 s2 Hsplit HS Hstep.
    apply (serialized_step _ _ ps done x s1 s2); [|done|done].
    rewrite Hsplit in Hnd. apply NoDup_app in Hnd as (_ & Hdis & _).
    intros Hin. apply (Hdis x Hin). apply elem_of_cons. by left.
Qed.


Lemma size_list_to_set_le (l : list string) :
  size (list_to_set l : gset string) ≤ length l.
Proof.
  induction l as [|x l IH]; [done|].
  rewrite list_to_set_cons, size_union_alt, size_singleton. simpl.
  assert (size ((list_to_set l : gset string) ∖ {[x]})
          ≤ size (list_to_set l : gset string))
    by (apply subseteq_size; intros y Hy;
        by apply elem_of_difference in Hy as [? _]).
  lia.
Qed.

(** Two nodes under one identifier leave the node map with fewer entries
    than there are nodes. *)
Lemma serialized_collision (h : heap) r order s n1 n2 v :
  serialized h r order s →
  n1 ∈ order → n2 ∈ order → n1 ≠ n2 →
  variant_d s !! n1 = Some v → variant_d s !! n2 = Some v →
  size (nodes (obj s)) < length order.
Proof.
  intros HS H1 H2 Hne Hv1 Hv2.
  set (g := λ n, default EmptyString (variant_d s !! n)).
  assert (Hsub : dom (nodes (obj s)) ⊆
            (list_to_set (g <$> filter (λ n, n ≠ n1) order) : gset string)).
  { intros v' Hv'. apply elem_of_dom in Hv'.
    destruct (ser_keys _ _ _ _ HS v' Hv') as (node & Hnode & Hvn).
    apply elem_of_list_to_set, list_elem_of_fmap.
    destruct (decide (node = n1)) as [->|Hn].
    - exists n2. split.
      + unfold g. rewrite Hv2. rewrite Hv1 in Hvn. by injection Hvn.
      + apply list_elem_of_filter. split; [by intros ->|done].
    - exists node. split; [unfold g; by rewrite Hvn|].
      by apply list_elem_of_filter. }
  apply subseteq_size in Hsub. rewrite size_dom in Hsub.
  pose proof (size_list_to_set_le (g <$> filter (λ n, n ≠ n1) order)) as Hle.
  rewrite length_fmap in Hle.
  pose proof (length_filter_lt (λ n, n ≠ n1) order n1 H1) as Hlt.
  assert (length (filter (λ n, n ≠ n1) order) < length order)
    by (apply Hlt; by intros ?).
  lia.
Qed.

(** In a list without duplicates an element has one place. *)
Lemma NoDup_split_unique {A : Type} (x : A) l1 l2 k1 k2 :
  NoDup (l1 ++ x :: l2) → l1 ++ x :: l2 = k1 ++ x :: k2 → l1 = k1 ∧ l2 = k2.
Proof.
  revert k1. induction l1 as [|a l1 IH]; intros [|b k1] Hnd Heq; simpl in *.
  - by injection Heq.
  - injection Heq as <- ->. apply NoDup_cons in Hnd as [Hx _].
    destruct Hx. apply elem_of_app. right. apply elem_of_cons. by left.
  - injection Heq as -> <-. apply NoDup_cons in Hnd as [Hx _].
    destruct Hx. apply elem_of_app. right. apply elem_of_cons. by left.
  - injection Heq as <- Heq. apply NoDup_cons in Hnd as [_ Hnd].
    destruct (IH k1 Hnd Heq) as [-> ->]. done.
Qed.
(** ** collapse_polytomies returns *)

(** A loop returns when its body does, from every state of the invariant. *)
Lemma for_each_total {A S : Type} (I : list A → S → Prop) (xs : list A)
    (body : A → S → result S) (s : S) :
  I [] s →
  (∀ done x rest s1, xs = done ++ x :: rest → I done s1 →
     ∃ s2, body x s1 = Ok s2 ∧ I (done ++ [x]) s2) →
  ∃ s', for_each xs body s = Ok s' ∧ I xs s'.
Proof.
  intros H0 Hstep.
  cut (∀ rest done s0, xs = done ++ rest → I done s0 →
         ∃ s', for_each rest body s0 = Ok s' ∧ I xs s').
  { intros Hcut. by apply (Hcut xs [] s). }
  induction rest as [|x rest IH]; intros done s0 Hxs HI; simpl.
  - rewrite app_nil_r in Hxs. subst xs. by exists s0.
  - destruct (Hstep done x rest s0 Hxs HI) as (s2 & -> & HI2). simpl.
    apply (IH (done ++ [x])); [by rewrite <- app_assoc|done].
Qed.

Lemma prune_tip_returns r depth m ps L D tip (h : heap) b :
  collapsing r depth h ps L D →
  tip ∈ L → clades (h !!! tip) = [] →
  branch_length (h !!! tip) = Some b →
  is_Some (name (h !!! tip)) →
  (tip = r → float_gt b m = true) →
  ∃ h', prune_tip m ps tip h = Ok h'.
Proof.
  intros HC Htip Hleaf Hb [tn Htn] Hroot. unfold prune_tip. rewrite Hb.
  destruct (float_gt b m) eqn:Hgt; [eauto|].
  assert (Hne : tip ≠ r).
  { intros Heq. by specialize (Hroot Heq). }
  destruct (col_parent _ _ _ _ _ _ HC tip Htip Hne) as (p & -> & _ & Hin).
  destruct (list_remove_in _ _ Hin) as [cs ->]. simpl.
  assert (Hp : tip ≠ p).
  { intros <-. rewrite Hleaf in Hin. by apply elem_of_nil in Hin. }
  rewrite lookup_total_insert_eq, lookup_total_insert_ne by done.
  rewrite Htn. simpl. destruct (name (h !!! p)); eauto.
Qed.

Lemma splice_node_returns r depth m L D node (h : heap) (ps : gmap nat nat) :
  collapsing r depth h ps L D →
  node ∈ L →
  ∃ st, splice_node m r node (h, ps) = Ok st.
Proof.
  intros HC Hnode. unfold splice_node.
  destruct (branch_length (h !!! node)) as [b|]; [|eauto].
  destruct (float_gt b m); simpl; [eauto|].
  destruct (bool_decide (node = r)) eqn:Hr; [eauto|].
  apply bool_decide_eq_false in Hr.
  destruct (col_parent _ _ _ _ _ _ HC node Hnode Hr) as (p & -> & _ & Hin).
  destruct (list_remove_in _ _ Hin) as [cs ->]. simpl.
  destruct (truthy_name _); [|eauto].
  destruct (name _); eauto.
Qed.

(** The first loop returns on a well-formed tree whose tips have a length
    and a name, unless the root is itself a tip to prune. *)
Lemma prune_tips_returns fuel fuel' t m ps depth Lc l :
  tree_cert (store t) (root t) depth Lc →
  get_parents fuel' t = Ok ps →
  preorder_traverse fuel (store t) (root t) = Ok l →
  (∀ v, reachable (store t) (root t) v → is_terminal (store t) v = true →
     ∃ b, branch_length (store t !!! v) = Some b ∧
          is_Some (name (store t !!! v)) ∧
          (v = root t → float_gt b m = true)) →
  ∃ h1, prune_tips fuel t m ps = Ok h1.
Proof.
  intros HC Hps Hl Hgood. unfold prune_tips, get_terminals. rewrite Hl.
  simpl. set (tips := filter (λ v, is_terminal (store t) v = true) l).
  destruct (collapsing_start _ _ _ _ _ _ _ HC Hps Hl) as [HC0 _].
  assert (Hnd : NoDup tips).
  { apply NoDup_filter, (preorder_NoDup _ _ _ _ HC _ _ _ (cert_root _ _ _ _ HC) Hl). }
  destruct (for_each_total (λ done h,
      ∃ L D, collapsing (root t) depth h ps L D ∧
        (∀ v, v ∈ tips → v ∉ done → v ∈ L) ∧
        same_lengths (store t) h ∧ tips_stay (store t) h)
      tips (prune_tip m ps) (store t)) as (h1 & Hh1 & _); [| |by exists h1].
  - exists (list_to_set l), ∅. split; [done|]. split.
    + intros v Hv _. apply list_elem_of_filter in Hv as [_ Hv].
      by apply elem_of_list_to_set.
    + split; [by intros v|by intros v Hv].
  - intros done x rest h Hsplit (L & D & HCh & Hlive & Hlen & Hstay).
    assert (Hx : x ∈ tips).
    { rewrite Hsplit. apply elem_of_app. right. apply elem_of_cons. by left. }
    assert (Hfresh : x ∉ done).
    { rewrite Hsplit in Hnd. apply NoDup_app in Hnd as (_ & Hdis & _).
      intros Hin. apply (Hdis x Hin). apply elem_of_cons. by left. }
    pose proof Hx as Hx'. apply list_elem_of_filter in Hx' as [Hterm Hxl].
    apply is_terminal_true in Hterm.
    destruct (Hgood x) as (b & Hb & Hname & Hroot).
    { by apply (preorder_reachable _ _ _ _ Hl). }
    { by apply is_terminal_true. }
    destruct (prune_tip_returns (root t) depth m ps L D x h b HCh)
      as [h' Hh']; [by apply Hlive| | | |done|].
    { by rewrite (Hstay x Hterm). }
    { by rewrite Hlen. }
    { by rewrite (Hstay x Hterm). }
    exists h'. split; [done|].
    destruct (prune_tip_step _ _ _ _ _ _ _ _ _ HCh
                (or_introl (Hlive x Hx Hfresh))
                (eq_trans (f_equal clades (Hstay x Hterm)) Hterm) Hh')
      as (b' & _ & [[_ ->]|(_ & _ & HC' & Hlen' & Hstay')]).
    + exists L, D. split; [done|]. split; [|done].
      intros v Hv Hnot. apply Hlive; [done|]. intros Hin. apply Hnot.
      apply elem_of_app. by left.
    + exists (L ∖ {[x]}), (D ∪ {[x]}). split; [done|]. split.
      * intros v Hv Hnot. apply elem_of_drop. split.
        -- apply Hlive; [done|]. intros Hin. apply Hnot, elem_of_app.
           by left.
        -- intros ->. apply Hnot, elem_of_app. right.
           by apply list_elem_of_singleton.
      * split; [by apply (same_lengths_trans _ h)|].
        by apply (tips_stay_trans _ h).
Qed.

(** The second loop returns on every tree that the first one leaves. *)
Lemma splice_nodes_returns fuel r m depth (h1 : heap) ps L1 l1 :
  collapsing r depth h1 ps L1 ∅ →
  preorder_traverse fuel h1 r = Ok l1 →
  ∃ st, splice_nodes fuel (mkTree h1 r) m ps = Ok st.
Proof.
  intros HC1 Hl1. unfold splice_nodes, get_nonterminals. simpl.
  rewrite Hl1. simpl.
  set (nodes := filter (λ v, is_terminal h1 v = false) l1).
  pose proof (collapsing_cert _ _ _ _ _ _ HC1) as HCc.
  assert (Hnd : NoDup nodes).
  { apply NoDup_filter, (preorder_NoDup _ _ _ _ HCc _ _ _ (cert_root _ _ _ _ HCc) Hl1). }
  destruct (for_each_total (λ done st,
      ∃ L D, collapsing r depth st.1 st.2 L D ∧
        (∀ v, v ∈ nodes → v ∉ done → v ∈ L))
      nodes (splice_node m r) (h1, ps)) as (st & Hst & _); [| |by exists st].
  - exists L1, ∅. split; [done|]. intros v Hv _.
    apply list_elem_of_filter in Hv as [_ Hv].
    apply (collapsing_reach _ _ _ _ _ _ HC1).
    by apply (preorder_reachable _ _ _ _ Hl1).
  - intros done x rest [h ps0] Hsplit (L & D & HCh & Hlive). simpl in *.
    assert (Hx : x ∈ nodes).
    { rewrite Hsplit. apply elem_of_app. right. apply elem_of_cons. by left. }
    assert (Hfresh : x ∉ done).
    { rewrite Hsplit in Hnd. apply NoDup_app in Hnd as (_ & Hdis & _).
      intros Hin. apply (Hdis x Hin). apply elem_of_cons. by left. }
    destruct (splice_node_returns r depth m L D x h ps0 HCh (Hlive x Hx Hfresh))
      as [[h' ps'] Hstep].
    exists (h', ps'). split; [done|]. simpl.
    destruct (splice_node_step _ _ _ _ _ _ _ _ _ _ HCh
                (or_introl (Hlive x Hx Hfresh)) Hstep)
      as [(-> & -> & _)|(_ & _ & _ & HC' & _)].
    + exists L, D. split; [done|]. intros v Hv Hnot. apply Hlive; [done|].
      intros Hin. apply Hnot. apply elem_of_app. by left.
    + exists (L ∖ {[x]}), (D ∪ {[x]}). split; [done|].
      intros v Hv Hnot. apply elem_of_drop. split.
      * apply Hlive; [done|]. intros Hin. apply Hnot, elem_of_app. by left.
      * intros ->. apply Hnot, elem_of_app. right.
        by apply list_elem_of_singleton.
Qed.

Lemma get_parents_fuel_mono fuel fuel' t ps :
  get_parents fuel t = Ok ps → fuel ≤ fuel' → get_parents fuel' t = Ok ps.
Proof.
  unfold get_parents, find_clades_level. intros H Hle. inv_bind H.
  by rewrite (level_fuel_mono _ _ _ _ _ Ha Hle).
Qed.

Lemma prune_tips_fuel_mono fuel fuel' t m ps h1 :
  prune_tips fuel t m ps = Ok h1 → fuel ≤ fuel' →
  prune_tips fuel' t m ps = Ok h1.
Proof.
  unfold prune_tips, get_terminals. intros H Hle. inv_bind H. inv_bind Ha.
  injection Ha as <-. by rewrite (preorder_fuel_mono _ _ _ _ _ Ha0 Hle).
Qed.

(** Given enough fuel, [collapse_polytomies] returns on every well-formed
    tree whose tips have a branch length and a name, unless the root is a tip
    that the first loop would prune. *)
Lemma collapse_returns t m :
  well_formed t →
  (∀ v, reachable (store t) (root t) v → is_terminal (store t) v = true →
     ∃ b, branch_length (store t !!! v) = Some b ∧
          is_Some (name (store t !!! v)) ∧
          (v = root t → (m < b)%Q)) →
  ∃ N, ∀ fuel, N ≤ fuel → ∃ t', collapse_polytomies fuel t m = Ok t'.
Proof.
  intros Hwf Hgood. destruct (traversals_total t Hwf) as [N0 HN0].
  destruct (HN0 N0) as [[l Hl] [order Horder]]; [done|].
  destruct Hwf as (depth & Lc & HC).
  assert (Hps : ∃ ps, get_parents N0 t = Ok ps).
  { unfold get_parents. rewrite Horder. simpl. eauto. }
  destruct Hps as [ps Hps].
  destruct (prune_tips_returns N0 N0 t m ps depth Lc l HC Hps Hl) as [h1 Hh1].
  { intros v Hv Hterm. destruct (Hgood v Hv Hterm) as (b & Hb & Hn & Hr).
    exists b. split; [done|]. split; [done|]. intros Heq.
    by apply float_gt_spec, Hr. }
  destruct (prune_tips_sound _ _ _ _ _ _ _ _ HC Hps Hh1)
    as ((L1 & HC1 & _) & _).
  destruct (traversals_total (mkTree h1 (root t))) as [N1 HN1].
  { exists depth, L1. by apply (collapsing_cert _ _ _ ps _ ∅). }
  exists (N0 `max` N1). intros fuel Hfuel.
  destruct (HN1 fuel) as [[l1 Hl1] _]; [lia|]. simpl in Hl1.
  destruct (splice_nodes_returns fuel (root t) m depth h1 ps L1 l1 HC1 Hl1)
    as [st Hst].
  exists (mkTree st.1 (root t)). unfold collapse_polytomies.
  rewrite (get_parents_fuel_mono N0 fuel t ps Hps) by lia. simpl.
  rewrite (prune_tips_fuel_mono N0 fuel t m ps h1 Hh1) by lia. simpl.
  by rewrite Hst.
Qed.

(** ** parse_labels *)

Section parse_labels_proofs.
Context {V : Type} `{Countable V}.

Lemma parse_row_inv (row : gmap string V) (d d' : gmap V (list V)) :
  parse_row row d = Ok d' →
  ∃ idx nm, row !! "index" = Some idx ∧ row !! "name" = Some nm ∧
    d' = <[idx := default [] (d !! idx) ++ [nm]]> d.
Proof.
  unfold parse_row, row_get. intros Hrun.
  destruct (row !! "index") as [idx|] eqn:Hi; [|done]. simpl in Hrun.
  destruct (d !! idx) as [l|] eqn:Hd.
  - rewrite Hd in Hrun.
    destruct (row !! "name") as [nm|] eqn:Hn; [|done]. simpl in Hrun.
    injection Hrun as <-. exists idx, nm. by rewrite Hd.
  - rewrite lookup_insert_eq in Hrun.
    destruct (row !! "name") as [nm|] eqn:Hn; [|done]. simpl in Hrun.
    injection Hrun as <-. exists idx, nm. by rewrite Hd, insert_insert_eq.
Qed.

Lemma parse_row_complete (row : gmap string V) (d : gmap V (list V)) :
  is_Some (row !! "index") → is_Some (row !! "name") →
  ∃ d', parse_row row d = Ok d'.
Proof.
  intros [idx Hi] [nm Hn]. unfold parse_row, row_get. rewrite Hi. simpl.
  destruct (d !! idx) as [l|] eqn:Hd.
  - rewrite Hd, Hn. simpl. eauto.
  - rewrite lookup_insert_eq, Hn. simpl. eauto.
Qed.

Lemma parse_row_Raise (row : gmap string V) (d : gmap V (list V)) e :
  parse_row row d = Raise e →
  e = KeyError ∧ (row !! "index" = None ∨ row !! "name" = None).
Proof.
  unfold parse_row, row_get. intros Hrun.
  destruct (row !! "index") as [idx|] eqn:Hi; simpl in Hrun;
    [|injection Hrun as <-; auto].
  destruct (d !! idx) as [l|] eqn:Hd.
  - rewrite Hd in Hrun.
    destruct (row !! "name") as [nm|] eqn:Hn; simpl in Hrun;
      [done|injection Hrun as <-; auto].
  - rewrite lookup_insert_eq in Hrun.
    destruct (row !! "name") as [nm|] eqn:Hn; simpl in Hrun;
      [done|injection Hrun as <-; auto].
Qed.

Lemma names_with_index_snoc (k : V) rows (row : gmap string V) idx nm :
  row !! "index" = Some idx → row !! "name" = Some nm →
  names_with_index k (rows ++ [row]) =
  names_with_index k rows ++ (if decide (idx = k) then [nm] else []).
Proof.
  intros Hi Hn. unfold names_with_index. rewrite omap_app. f_equal.
  simpl. rewrite Hi. destruct (decide (idx = k)); [by rewrite Hn|done].
Qed.

Lemma label_count_insert (d : gmap V (list V)) i l :
  label_count (<[i := l]> d) + length (default [] (d !! i)) =
  length l + label_count d.
Proof.
  unfold label_count.
  assert (Hcomm : ∀ (m : gmap V (list V)) (j1 j2 : V) (z1 z2 : list V)
                    (y : nat),
            j1 ≠ j2 → m !! j1 = Some z1 → m !! j2 = Some z2 →
            length z1 + (length z2 + y) = length z2 + (length z1 + y)).
  { intros. lia. }
  rewrite <- (insert_delete_eq d i l).
  rewrite (map_fold_insert_L _ _ _ _ _ (Hcomm _)) by apply lookup_delete_eq.
  destruct (d !! i) as [l0|] eqn:Hd; simpl.
  - rewrite (map_fold_delete_L _ _ i l0 d (Hcomm d) Hd). lia.
  - rewrite (delete_id d i Hd). lia.
Qed.

Lemma parse_labels_lookup (rows : list (gmap string V))
    (d : gmap V (list V)) :
  parse_labels rows = Ok d →
  ∀ k, d !! k = if decide (names_with_index k rows = []) then None
                else Some (names_with_index k rows).
Proof.
  unfold parse_labels. intros Hrun.
  apply (for_each_inv
           (λ done (d : gmap V (list V)),
              ∀ k, d !! k = if decide (names_with_index k done = []) then None
                            else Some (names_with_index k done))
           _ _ _ _ Hrun).
  - intros k. by rewrite lookup_empty.
  - intros done row d1 d2 _ IH Hstep k.
    destruct (parse_row_inv _ _ _ Hstep) as (idx & nm & Hi & Hn & ->).
    rewrite (names_with_index_snoc k done row idx nm Hi Hn).
    destruct (decide (idx = k)) as [->|Hne].
    + rewrite lookup_insert_eq. rewrite IH.
      destruct (decide (names_with_index k done = [])) as [Heq|Hneq].
      * rewrite Heq. simpl. done.
      * simpl. rewrite decide_False; [done|].
        intros Happ. by apply app_eq_nil in Happ as [_ ?].
    + rewrite lookup_insert_ne by done. rewrite app_nil_r. apply IH.
Qed.

Lemma parse_labels_rows (rows : list (gmap string V))
    (d : gmap V (list V)) :
  parse_labels rows = Ok d →
  Forall (λ row, is_Some (row !! "index") ∧ is_Some (row !! "name")) rows.
Proof.
  unfold parse_labels. intros Hrun.
  apply (for_each_inv
           (λ done (_ : gmap V (list V)),
              Forall (λ row, is_Some (row !! "index") ∧
                             is_Some (row !! "name")) done)
           _ _ _ _ Hrun); [constructor|].
  intros done row d1 d2 _ IH Hstep.
  destruct (parse_row_inv _ _ _ Hstep) as (idx & nm & Hi & Hn & _).
  apply Forall_app. split; [done|]. constructor; [|constructor].
  rewrite Hi, Hn. eauto.
Qed.

Lemma parse_labels_complete (rows : list (gmap string V)) :
  Forall (λ row, is_Some (row !! "index") ∧ is_Some (row !! "name")) rows →
  ∃ d, parse_labels rows = Ok d.
Proof.
  unfold parse_labels. generalize (∅ : gmap V (list V)).
  induction rows as [|row rows IH]; intros d Hall; simpl; [eauto|].
  apply Forall_cons in Hall as [[Hi Hn] Hall].
  destruct (parse_row_complete row d Hi Hn) as [d' ->]. simpl.
  by apply IH.
Qed.

Lemma elem_of_names_with_index (k nm : V) (rows : list (gmap string V)) :
  nm ∈ names_with_index k rows ↔
  ∃ row, row ∈ rows ∧ row !! "index" = Some k ∧ row !! "name" = Some nm.
Proof.
  unfold names_with_index. rewrite list_elem_of_omap. split.
  - intros (row & Hrow & Hnm). exists row. split; [done|].
    destruct (row !! "index") as [i|]; [|done].
    destruct (decide (i = k)) as [->|]; done.
  - intros (row & Hrow & Hi & Hn). exists row. split; [done|].
    rewrite Hi. by rewrite decide_True.
Qed.

End parse_labels_proofs.
(** ** Names and their identifiers *)

Lemma split_bar_nonempty s : split_bar s ≠ [].
Proof.
  destruct s as [|c s]; simpl; [done|].
  destruct (Ascii.eqb c "|"%char); [done|]. by destruct (split_bar s).
Qed.

(** Splitting a joined name gives the fields of the one, then of the other. *)
Lemma split_bar_join a b :
  split_bar (join_bar a b) = split_bar a ++ split_bar b.
Proof.
  unfold join_bar. induction a as [|c a IH]; simpl; [done|].
  destruct (Ascii.eqb c "|"%char); [by rewrite IH|]. simpl in IH.
  rewrite IH. pose proof (split_bar_nonempty a) as Hne.
  by destruct (split_bar a).
Qed.

Lemma identifiers_join (pn : option string) n :
  identifiers (Some (folded_name pn n)) =
  identifiers pn ++ identifiers (Some n).
Proof.
  destruct pn as [p|]; simpl; [|done].
  change (p +:+ "|" +:+ n) with (join_bar p n).
  by rewrite split_bar_join, filter_app.
Qed.

Lemma identifiers_truthy n : identifiers (truthy_name n) = identifiers n.
Proof. by destruct n as [[|c s]|]. Qed.

Lemma concat_fmap_perm {A B : Type} (f : A → list B) l l' :
  l ≡ₚ l' → concat (f <$> l) ≡ₚ concat (f <$> l').
Proof.
  induction 1 as [|x l l' _ IH|x y l|l l' l'' _ IH1 _ IH2]; simpl.
  - done.
  - by rewrite IH.
  - rewrite !app_assoc. f_equiv. apply Permutation_app_comm.
  - by rewrite IH1.
Qed.

(** Moving what [x] carries onto [p], and taking [x] out of the set. *)
Lemma concat_elements_move {B : Type} (f f' : nat → list B) (L : gset nat) x p :
  x ∈ L → p ∈ L → p ≠ x →
  (∀ v, v ≠ p → f' v = f v) →
  f' p ≡ₚ f p ++ f x →
  concat (f' <$> elements (L ∖ {[x]})) ≡ₚ concat (f <$> elements L).
Proof.
  intros Hx Hp Hpx Hsame Hmove.
  assert (HpLx : p ∈ L ∖ {[x]}) by (by apply elem_of_drop).
  assert (E1 : elements L ≡ₚ x :: elements (L ∖ {[x]})).
  { rewrite (union_difference_singleton_L x L Hx) at 1.
    apply elements_union_singleton. rewrite elem_of_drop. tauto. }
  assert (E2 : elements (L ∖ {[x]}) ≡ₚ p :: elements (L ∖ {[x]} ∖ {[p]})).
  { rewrite (union_difference_singleton_L p (L ∖ {[x]}) HpLx) at 1.
    apply elements_union_singleton. rewrite elem_of_drop. tauto. }
  assert (Hrest : f' <$> elements (L ∖ {[x]} ∖ {[p]})
                  = f <$> elements (L ∖ {[x]} ∖ {[p]})).
  { apply list_fmap_ext. intros i v Hv. apply Hsame.
    apply list_elem_of_lookup_2 in Hv. apply elem_of_elements in Hv.
    apply elem_of_drop in Hv as [_ ?]. done. }
  rewrite (concat_fmap_perm f' _ _ E2), (concat_fmap_perm f _ _ E1).
  rewrite !fmap_cons, !concat_cons.
  rewrite (concat_fmap_perm f _ _ E2), fmap_cons, concat_cons.
  rewrite Hmove.
  rewrite Hrest. rewrite !app_assoc. f_equiv. apply Permutation_app_comm.
Qed.

(** ** The names that the two loops write *)

Lemma prune_tip_name m ps tip (h h' : heap) b p :
  prune_tip m ps tip h = Ok h' →
  branch_length (h !!! tip) = Some b → float_gt b m = false →
  ps !! tip = Some p → p ≠ tip →
  (∀ v, v ≠ p → h' !!! v = h !!! v) ∧
  ((name (h !!! p) = None ∧ name (h' !!! p) = name (h !!! tip)) ∨
   (∃ pn tn, name (h !!! p) = Some pn ∧ name (h !!! tip) = Some tn ∧
             name (h' !!! p) = Some (join_bar pn tn))).
Proof.
  unfold prune_tip. intros Hrun Hb Hgt Hp Hne.
  rewrite Hb, Hgt, Hp in Hrun.
  destruct (list_remove tip (clades (h !!! p))) as [cs|] eqn:Hcs; [|done].
  simpl in Hrun. rewrite lookup_total_insert_eq in Hrun.
  rewrite lookup_total_insert_ne in Hrun by done. simpl in Hrun.
  destruct (name (h !!! p)) as [pn|] eqn:Hpn.
  - destruct (name (h !!! tip)) as [tn|] eqn:Htn; [|done].
    injection Hrun as <-. split.
    + intros v Hv. by rewrite !lookup_total_insert_ne.
    + right. exists pn, tn. by rewrite lookup_total_insert_eq.
  - injection Hrun as <-. split.
    + intros v Hv. by rewrite !lookup_total_insert_ne.
    + left. by rewrite lookup_total_insert_eq.
Qed.

Lemma splice_node_name m r node (h h' : heap) (ps ps' : gmap nat nat) b p :
  splice_node m r node (h, ps) = Ok (h', ps') →
  branch_length (h !!! node) = Some b → float_gt b m = false → node ≠ r →
  ps !! node = Some p → p ≠ node →
  (∀ v, v ≠ p → h' !!! v = h !!! v) ∧
  (∃ cs, clades (h' !!! p) = cs ++ clades (h !!! node)) ∧
  name (h' !!! p) =
    match truthy_name (name (h !!! node)) with
    | Some nn => Some (folded_name (name (h !!! p)) nn)
    | None => name (h !!! p)
    end.
Proof.
  unfold splice_node. intros Hrun Hb Hgt Hnr Hp Hne.
  rewrite Hb, Hgt, Hp in Hrun.
  rewrite bool_decide_eq_false_2 in Hrun by done. simpl in Hrun.
  destruct (list_remove node (clades (h !!! p))) as [cs|] eqn:Hcs; [|done].
  simpl in Hrun.
  rewrite !lookup_total_insert_eq in Hrun.
  rewrite !(lookup_total_insert_ne _ p node) in Hrun by done.
  simpl in Hrun.
  destruct (truthy_name (name (h !!! node))) as [nn|] eqn:Hnn.
  - destruct (name (h !!! p)) as [pn|] eqn:Hpn; injection Hrun as <- <-.
    + split; [intros v Hv; by rewrite !lookup_total_insert_ne|].
      rewrite !lookup_total_insert_eq. simpl. split; [by exists cs|done].
    + split; [intros v Hv; by rewrite !lookup_total_insert_ne|].
      rewrite !lookup_total_insert_eq. simpl. split; [by exists cs|done].
  - injection Hrun as <- <-.
    split; [intros v Hv; by rewrite !lookup_total_insert_ne|].
    rewrite !lookup_total_insert_eq. simpl. split; [by exists cs|done].
Qed.
(** ** The two loops, with one more invariant *)

(** A property [J] of the store and of the clades still in the tree that
    every tip taken out by the first loop keeps holds when the loop ends. *)
Lemma prune_loop_with (J : heap → gset nat → Prop) r depth m ps tips
    (h0 h1 : heap) L0 :
  collapsing r depth h0 ps L0 ∅ →
  (∀ t, t ∈ tips → t ∈ L0 ∧ clades (h0 !!! t) = []) →
  J h0 L0 →
  (∀ (h h' : heap) L D tip p b,
     collapsing r depth h ps L D → J h L →
     tip ∈ L → p ∈ L → p ≠ tip → ps !! tip = Some p →
     clades (h !!! tip) = [] →
     branch_length (h !!! tip) = Some b → float_gt b m = false →
     prune_tip m ps tip h = Ok h' →
     J h' (L ∖ {[tip]})) →
  for_each tips (prune_tip m ps) h0 = Ok h1 →
  ∃ L1 D1, collapsing r depth h1 ps L1 D1 ∧ J h1 L1.
Proof.
  intros HC Htips HJ0 HJ Hrun.
  apply (for_each_inv (λ (done : list nat) h,
    ∃ L D, collapsing r depth h ps L D ∧
      (∀ v, v ∈ L0 ↔ v ∈ L ∨ v ∈ D) ∧ tips_stay h0 h ∧ J h L))
    in Hrun.
  - destruct Hrun as (L & D & ? & _ & _ & ?). by exists L, D.
  - exists L0, ∅. split; [done|]. split.
    { intros v. split; [by left|]. intros [?|Hv]; [done|].
      by apply not_elem_of_empty in Hv. }
    split; [by intros v Hv|done].
  - intros done t h h' Ht (L & D & HCh & Hsplit & Hstay & HJh) Hstep.
    destruct (Htips t Ht) as [HtL0 Hleaf].
    assert (Hleaf' : clades (h !!! t) = []) by (rewrite Hstay; done).
    destruct (prune_tip_step r depth m ps L D t h h' HCh) as
      (b & Hb & [[Hgt ->]|(Hgt & HtL & HC' & Hlen' & Hstay')]);
      [by apply Hsplit|done|done| |].
    + by exists L, D.
    + exists (L ∖ {[t]}), (D ∪ {[t]}). split; [done|]. split.
      { intros v. rewrite Hsplit, elem_of_drop, elem_of_add.
        destruct (decide (v = t)) as [->|Hne]; [|tauto].
        split; [intros _; right; by right|intros _; by left]. }
      split; [by apply (tips_stay_trans h0 h)|].
      destruct (prune_tip_inv _ _ _ _ _ Hstep)
        as (b' & Hb' & [[Hgt' _]|(_ & p & cs & nm & Hp & _)]);
        [congruence|].
      assert (Htr : t ≠ r).
      { intros ->. rewrite (col_root_top _ _ _ _ _ _ HCh) in Hp. done. }
      destruct (col_parent _ _ _ _ _ _ HCh t HtL Htr)
        as (p' & Hp' & Hp'L & Hin).
      assert (p' = p) as -> by congruence.
      assert (Hpt : p ≠ t).
      { intros ->. pose proof (col_depth _ _ _ _ _ _ HCh t t Hp'L Hin). lia. }
      by apply (HJ h h' L D t p b).
Qed.

Lemma splice_loop_with (J : heap → gset nat → Prop) r depth m nodes
    (h1 h2 : heap) (ps1 ps2 : gmap nat nat) L1 :
  collapsing r depth h1 ps1 L1 ∅ →
  (∀ n, n ∈ nodes → n ∈ L1) →
  J h1 L1 →
  (∀ (h h' : heap) (ps ps' : gmap nat nat) L D node p b,
     collapsing r depth h ps L D → J h L →
     node ∈ nodes → node ∈ L → p ∈ L → p ≠ node → node ≠ r →
     ps !! node = Some p →
     branch_length (h !!! node) = Some b → float_gt b m = false →
     splice_node m r node (h, ps) = Ok (h', ps') →
     J h' (L ∖ {[node]})) →
  for_each nodes (splice_node m r) (h1, ps1) = Ok (h2, ps2) →
  ∃ L2 D2, collapsing r depth h2 ps2 L2 D2 ∧ J h2 L2.
Proof.
  intros HC Hnodes HJ0 HJ Hrun.
  apply (for_each_inv (λ (done : list nat) (st : heap * gmap nat nat),
    ∃ L D, collapsing r depth st.1 st.2 L D ∧
      (∀ v, v ∈ L1 ↔ v ∈ L ∨ v ∈ D) ∧ J st.1 L))
    in Hrun.
  - destruct Hrun as (L & D & ? & _ & ?). by exists L, D.
  - exists L1, ∅. split; [done|]. split; [|done].
    intros v. split; [by left|]. intros [?|Hv]; [done|].
    by apply not_elem_of_empty in Hv.
  - intros done n [h ps] [h' ps'] Hn (L & D & HCh & Hsplit & HJh) Hstep.
    simpl in *.
    destruct (splice_node_step r depth m L D n h h' ps ps' HCh) as
      [(-> & -> & Hskip)|(HnL & Hnr & (b & Hb & Hgt) & HC' & Hlen' & Hstay')];
      [by apply Hsplit, Hnodes|done| |].
    + by exists L, D.
    + exists (L ∖ {[n]}), (D ∪ {[n]}). split; [done|]. split.
      { intros v. rewrite Hsplit, elem_of_drop, elem_of_add.
        destruct (decide (v = n)) as [->|Hne]; [|tauto].
        split; [intros _; right; by right|intros _; by left]. }
      destruct (col_parent _ _ _ _ _ _ HCh n HnL Hnr)
        as (p & Hp & HpL & Hin).
      assert (Hpn : p ≠ n).
      { intros ->. pose proof (col_depth _ _ _ _ _ _ HCh n n HpL Hin). lia. }
      by apply (HJ h h' ps ps' L D n p b).
Qed.

(** The same for the loops as [collapse_polytomies] runs them. *)
Lemma prune_tips_with (J : heap → gset nat → Prop) fuel fuel' t m ps h1
    depth Lc l :
  tree_cert (store t) (root t) depth Lc →
  get_parents fuel' t = Ok ps →
  prune_tips fuel t m ps = Ok h1 →
  preorder_traverse fuel (store t) (root t) = Ok l →
  J (store t) (list_to_set l) →
  (∀ (h h' : heap) L D tip p b,
     collapsing (root t) depth h ps L D → J h L →
     tip ∈ L → p ∈ L → p ≠ tip → ps !! tip = Some p →
     clades (h !!! tip) = [] →
     branch_length (h !!! tip) = Some b → float_gt b m = false →
     prune_tip m ps tip h = Ok h' →
     J h' (L ∖ {[tip]})) →
  ∃ L1, collapsing (root t) depth h1 ps L1 ∅ ∧ J h1 L1.
Proof.
  intros HC Hps H Hl HJ0 HJ. unfold prune_tips, get_terminals in H.
  rewrite Hl in H. simpl in H.
  destruct (collapsing_start _ _ _ _ _ _ _ HC Hps Hl) as [HC0 _].
  assert (Htips : ∀ v, v ∈ filter (λ v, is_terminal (store t) v = true) l →
            v ∈ (list_to_set l : gset nat) ∧ clades (store t !!! v) = []).
  { intros v Hv. apply list_elem_of_filter in Hv as [Hv Hin].
    split; [by apply elem_of_list_to_set|by apply is_terminal_true]. }
  destruct (prune_loop_with J _ _ _ _ _ _ _ _ HC0 Htips HJ0 HJ H)
    as (L1 & D1 & HC1 & HJ1).
  exists L1. split; [by apply (collapsing_forget _ _ _ _ _ D1)|done].
Qed.

Lemma splice_nodes_with (J : heap → gset nat → Prop) fuel r m depth
    (h1 h2 : heap) ps ps2 L1 :
  collapsing r depth h1 ps L1 ∅ →
  splice_nodes fuel (mkTree h1 r) m ps = Ok (h2, ps2) →
  J h1 L1 →
  (∀ (h h' : heap) (ps ps' : gmap nat nat) L D node p b,
     collapsing r depth h ps L D → J h L →
     is_terminal h1 node = false → node ∈ L → p ∈ L → p ≠ node → node ≠ r →
     ps !! node = Some p →
     branch_length (h !!! node) = Some b → float_gt b m = false →
     splice_node m r node (h, ps) = Ok (h', ps') →
     J h' (L ∖ {[node]})) →
  ∃ L2 D2, collapsing r depth h2 ps2 L2 D2 ∧ J h2 L2.
Proof.
  intros HC1 H HJ0 HJ. unfold splice_nodes, get_nonterminals in H.
  simpl in H. inv_bind H. inv_bind Ha. rename a0 into l1, Ha0 into Hl1.
  injection Ha as <-.
  pose proof (collapsing_reach _ _ _ _ _ _ HC1) as Hreach1.
  pose proof (preorder_reachable _ _ _ _ Hl1) as Hlist1.
  assert (Hnodes : ∀ v, v ∈ filter (λ v, is_terminal h1 v = false) l1 →
            v ∈ L1).
  { intros v Hv. apply list_elem_of_filter in Hv as [_ Hin].
    by apply Hreach1, Hlist1. }
  apply (splice_loop_with J r depth m _ h1 h2 ps ps2 L1 HC1 Hnodes HJ0);
    [|done].
  intros h h' ps0 ps' L D node p b HCh HJh Hnode.
  apply (HJ h h' ps0 ps' L D node p b HCh HJh).
  by apply list_elem_of_filter in Hnode as [? _].
Qed.
(** ** What collapse_polytomies leaves alone *)

Lemma insert_clade_data (h : heap) p c v :
  clade_data c = clade_data (h !!! p) →
  clade_data (<[p := c]> h !!! v) = clade_data (h !!! v).
Proof.
  intros Hc. destruct (decide (v = p)) as [->|Hne].
  - by rewrite lookup_total_insert_eq.
  - by rewrite lookup_total_insert_ne.
Qed.

Lemma prune_tip_data m ps tip (h h' : heap) :
  prune_tip m ps tip h = Ok h' →
  ∀ v, clade_data (h' !!! v) = clade_data (h !!! v).
Proof.
  intros Hrun v.
  destruct (prune_tip_inv _ _ _ _ _ Hrun)
    as (b & Hb & [[_ ->]|(_ & p & cs & nm & _ & _ & ->)]); [done|].
  by apply insert_clade_data.
Qed.

Lemma splice_node_data m r node (st st' : heap * gmap nat nat) :
  splice_node m r node st = Ok st' →
  ∀ v, clade_data (st'.1 !!! v) = clade_data (st.1 !!! v).
Proof.
  destruct st as [h ps]. unfold splice_node. intros Hrun v.
  destruct (branch_length (h !!! node)) as [b|]; [|by injection Hrun as <-].
  destruct (float_gt b m || bool_decide (node = r));
    [by injection Hrun as <-|].
  destruct (ps !! node) as [p|]; [|done].
  destruct (list_remove node (clades (h !!! p))) as [cs|]; [|done].
  simpl in Hrun.
  destruct (truthy_name _) as [nn|].
  - destruct (name _) as [pn|]; injection Hrun as <-; simpl;
      by rewrite !insert_clade_data.
  - injection Hrun as <-. simpl. by rewrite !insert_clade_data.
Qed.

Lemma collapse_data fuel t m t' :
  collapse_polytomies fuel t m = Ok t' →
  ∀ v, clade_data (store t' !!! v) = clade_data (store t !!! v).
Proof.
  unfold collapse_polytomies, prune_tips, splice_nodes. intros H.
  inv_bind H. rename a into ps. inv_bind H. rename a into h1, Ha0 into Hp1.
  inv_bind H. rename a into st, Ha0 into Hp2. injection H as <-. simpl.
  inv_bind Hp1. inv_bind Hp2. simpl in *.
  assert (H1 : ∀ v, clade_data (h1 !!! v) = clade_data (store t !!! v)).
  { apply (for_each_inv (λ _ (h : heap),
             ∀ v, clade_data (h !!! v) = clade_data (store t !!! v))
             _ _ _ _ Hp1); [done|].
    intros done x h2 h3 _ IH Hstep v.
    by rewrite (prune_tip_data _ _ _ _ _ Hstep). }
  apply (for_each_inv (λ _ (st : heap * gmap nat nat),
           ∀ v, clade_data (st.1 !!! v) = clade_data (store t !!! v))
           _ _ _ _ Hp2); [done|].
  intros done x st1 st2 _ IH Hstep v.
  by rewrite (splice_node_data _ _ _ _ _ Hstep).
Qed.

(** ** The identifiers that collapse_polytomies keeps *)

Lemma prune_tip_identifiers m ps tip (h h' : heap) b p (L : gset nat) :
  prune_tip m ps tip h = Ok h' →
  branch_length (h !!! tip) = Some b → float_gt b m = false →
  ps !! tip = Some p → p ≠ tip → tip ∈ L → p ∈ L →
  identifiers_on h' (elements (L ∖ {[tip]})) ≡ₚ identifiers_on h (elements L).
Proof.
  intros Hrun Hb Hgt Hp Hne HtL HpL.
  destruct (prune_tip_name _ _ _ _ _ _ _ Hrun Hb Hgt Hp Hne)
    as [Hframe Hname].
  apply (concat_elements_move
           (λ v, identifiers (name (h !!! v)))
           (λ v, identifiers (name (h' !!! v))) L tip p HtL HpL Hne).
  - intros v Hv. by rewrite Hframe.
  - destruct Hname as [[Hnone ->]|(pn & tn & Hpn & Htn & ->)].
    + by rewrite Hnone.
    + rewrite Hpn, Htn. change (join_bar pn tn) with (folded_name (Some pn) tn).
      by rewrite identifiers_join.
Qed.

Lemma splice_node_identifiers m r node (h h' : heap) (ps ps' : gmap nat nat)
    b p (L : gset nat) :
  splice_node m r node (h, ps) = Ok (h', ps') →
  branch_length (h !!! node) = Some b → float_gt b m = false → node ≠ r →
  ps !! node = Some p → p ≠ node → node ∈ L → p ∈ L →
  identifiers_on h' (elements (L ∖ {[node]})) ≡ₚ
  identifiers_on h (elements L).
Proof.
  intros Hrun Hb Hgt Hnr Hp Hne HnL HpL.
  destruct (splice_node_name _ _ _ _ _ _ _ _ _ Hrun Hb Hgt Hnr Hp Hne)
    as (Hframe & _ & Hname).
  apply (concat_elements_move
           (λ v, identifiers (name (h !!! v)))
           (λ v, identifiers (name (h' !!! v))) L node p HnL HpL Hne).
  - intros v Hv. by rewrite Hframe.
  - rewrite Hname, <- (identifiers_truthy (name (h !!! node))).
    destruct (truthy_name (name (h !!! node))) as [nn|].
    + by rewrite identifiers_join.
    + simpl. by rewrite app_nil_r.
Qed.

Lemma collapse_identifiers_set fuel t m t' depth Lc :
  tree_cert (store t) (root t) depth Lc →
  collapse_polytomies fuel t m = Ok t' →
  ∃ l (L2 : gset nat), preorder_traverse fuel (store t) (root t) = Ok l ∧
    (∀ v, v ∈ L2 ↔ reachable (store t') (root t) v) ∧
    identifiers_on (store t') (elements L2) ≡ₚ identifiers_on (store t) l.
Proof.
  intros HC Hrun.
  destruct (collapse_sound _ _ _ _ _ _ HC Hrun)
    as (Hr & ps & h1 & ps2 & Hps & Hp1 & Hp2 & _ & _).
  assert (Hl : ∃ l, preorder_traverse fuel (store t) (root t) = Ok l).
  { unfold prune_tips, get_terminals in Hp1. inv_bind Hp1. inv_bind Ha.
    eauto. }
  destruct Hl as [l Hl]. exists l.
  pose (J := λ (h : heap) (L : gset nat),
          identifiers_on h (elements L) ≡ₚ identifiers_on (store t) l).
  destruct (prune_tips_with J _ _ _ _ _ _ _ _ _ HC Hps Hp1 Hl)
    as (L1 & HC1 & HJ1).
  { unfold J. apply concat_fmap_perm, elements_list_to_set.
    apply (preorder_NoDup_wf fuel t); [by exists depth, Lc|done]. }
  { unfold J. intros h h' L D tip p b _ HJh HtL HpL Hne Hp _ Hb Hgt Hstep.
    rewrite <- HJh.
    by apply (prune_tip_identifiers m ps tip h h' b p L). }
  destruct (splice_nodes_with J _ _ _ _ _ _ _ _ _ HC1 Hp2 HJ1)
    as (L2 & D2 & HC2 & HJ2).
  { unfold J. intros h h' ps0 ps' L D node p b _ HJh _ HnL HpL Hne Hnr Hp
      Hb Hgt Hstep.
    rewrite <- HJh.
    by apply (splice_node_identifiers m (root t) node h h' ps0 ps' b p L). }
  exists L2. split; [done|]. split; [|done].
  apply (collapsing_reach _ _ _ _ _ _ HC2).
Qed.

(** The clades of a well-formed tree, listed in preorder, are those of any
    set that holds exactly the clades in reach of the root. *)
Lemma preorder_elements fuel t l (L : gset nat) :
  well_formed t →
  preorder_traverse fuel (store t) (root t) = Ok l →
  (∀ v, v ∈ L ↔ reachable (store t) (root t) v) →
  l ≡ₚ elements L.
Proof.
  intros Hwf Hl HL. apply NoDup_Permutation.
  - by apply (preorder_NoDup_wf fuel t).
  - apply NoDup_elements.
  - intros v. rewrite elem_of_elements, HL.
    apply (preorder_reachable _ _ _ _ Hl).
Qed.

Lemma collapse_identifiers fuel t m t' l l' :
  well_formed t →
  collapse_polytomies fuel t m = Ok t' →
  preorder_traverse fuel (store t) (root t) = Ok l →
  preorder_traverse fuel (store t') (root t') = Ok l' →
  identifiers_on (store t') l' ≡ₚ identifiers_on (store t) l.
Proof.
  intros Hwf Hrun Hl Hl'. pose proof Hwf as (depth & Lc & HC).
  destruct (collapse_identifiers_set _ _ _ _ _ _ HC Hrun)
    as (l0 & L2 & Hl0 & HL2 & Hids).
  assert (l0 = l) as -> by congruence.
  rewrite <- Hids. apply concat_fmap_perm.
  apply (preorder_elements fuel t'); [|done|].
  - by apply (collapse_well_formed fuel t m).
  - destruct (collapse_sound _ _ _ _ _ _ HC Hrun) as (-> & _). done.
Qed.
(** ** More fuel, the same result *)

Lemma splice_nodes_fuel_mono fuel fuel' t m ps st :
  splice_nodes fuel t m ps = Ok st → fuel ≤ fuel' →
  splice_nodes fuel' t m ps = Ok st.
Proof.
  unfold splice_nodes, get_nonterminals. intros H Hle. inv_bind H.
  inv_bind Ha. injection Ha as <-.
  by rewrite (preorder_fuel_mono _ _ _ _ _ Ha0 Hle).
Qed.

Lemma collapse_fuel_mono fuel fuel' t m t' :
  collapse_polytomies fuel t m = Ok t' → fuel ≤ fuel' →
  collapse_polytomies fuel' t m = Ok t'.
Proof.
  unfold collapse_polytomies. intros H Hle.
  inv_bind H. rename a into ps, Ha into Hps.
  inv_bind H. rename a into h1, Ha into Hp1.
  inv_bind H. rename a into st, Ha into Hp2.
  rewrite (get_parents_fuel_mono _ _ _ _ Hps Hle). simpl.
  rewrite (prune_tips_fuel_mono _ _ _ _ _ _ Hp1 Hle). simpl.
  by rewrite (splice_nodes_fuel_mono _ _ _ _ _ _ Hp2 Hle).
Qed.

(** ** The names of the collapsed tree *)

Lemma truthy_name_Some n nn : truthy_name n = Some nn → n = Some nn.
Proof. by destruct n as [[|c s]|]. Qed.

(** A property of names that joining keeps, and that the names of the input
    have, holds of the names of the result. *)
Lemma collapse_names_closed (Q : string → Prop) fuel t m t' depth Lc :
  (∀ a b, Q a → Q b → Q (join_bar a b)) →
  tree_cert (store t) (root t) depth Lc →
  collapse_polytomies fuel t m = Ok t' →
  (∀ v n, reachable (store t) (root t) v → name (store t !!! v) = Some n →
          Q n) →
  ∀ v n, reachable (store t') (root t') v → name (store t' !!! v) = Some n →
         Q n.
Proof.
  intros Hjoin HC Hrun Hin.
  destruct (collapse_sound _ _ _ _ _ _ HC Hrun)
    as (Hr & ps & h1 & ps2 & Hps & Hp1 & Hp2 & _ & _).
  assert (Hl : ∃ l, preorder_traverse fuel (store t) (root t) = Ok l).
  { unfold prune_tips, get_terminals in Hp1. inv_bind Hp1. inv_bind Ha.
    eauto. }
  destruct Hl as [l Hl].
  pose (J := λ (h : heap) (L : gset nat),
          ∀ v n, v ∈ L → name (h !!! v) = Some n → Q n).
  destruct (prune_tips_with J _ _ _ _ _ _ _ _ _ HC Hps Hp1 Hl)
    as (L1 & HC1 & HJ1).
  { intros v n Hv. apply Hin, (preorder_reachable _ _ _ _ Hl).
    by apply elem_of_list_to_set in Hv. }
  { intros h h' L D tip p b _ HJh HtL HpL Hne Hp _ Hb Hgt Hstep v n Hv Hn.
    apply elem_of_drop in Hv as [Hv Hvt].
    destruct (prune_tip_name _ _ _ _ _ _ _ Hstep Hb Hgt Hp Hne)
      as [Hframe Hname].
    destruct (decide (v = p)) as [->|Hvp];
      [|rewrite Hframe in Hn by done; by apply (HJh v)].
    destruct Hname as [[_ Hnew]|(pn & tn & Hpn & Htn & Hnew)].
    - rewrite Hnew in Hn. by apply (HJh tip).
    - rewrite Hnew in Hn. injection Hn as <-.
      apply Hjoin; [by apply (HJh p)|by apply (HJh tip)]. }
  destruct (splice_nodes_with J _ _ _ _ _ _ _ _ _ HC1 Hp2 HJ1)
    as (L2 & D2 & HC2 & HJ2).
  { intros h h' ps0 ps' L D node p b _ HJh _ HnL HpL Hne Hnr Hp Hb Hgt Hstep
      v n Hv Hn.
    apply elem_of_drop in Hv as [Hv Hvt].
    destruct (splice_node_name _ _ _ _ _ _ _ _ _ Hstep Hb Hgt Hnr Hp Hne)
      as (Hframe & _ & Hname).
    destruct (decide (v = p)) as [->|Hvp];
      [|rewrite Hframe in Hn by done; by apply (HJh v)].
    rewrite Hname in Hn.
    destruct (truthy_name (name (h !!! node))) as [nn|] eqn:Hnn;
      [|by apply (HJh p)].
    apply truthy_name_Some in Hnn. injection Hn as <-.
    destruct (name (h !!! p)) as [pn|] eqn:Hpn; simpl.
    - apply (Hjoin pn nn); [by apply (HJh p)|by apply (HJh node)].
    - by apply (HJh node). }
  intros v n Hv. rewrite Hr in Hv. apply (HJ2 v n).
  by apply (collapsing_reach _ _ _ _ _ _ HC2).
Qed.

(** When the tips of the input have names, so have those of the result: a
    clade that the first loop leaves without children has the name of a tip,
    and the second loop leaves no clade without children. *)
Lemma collapse_tips_named fuel t m t' depth Lc :
  tree_cert (store t) (root t) depth Lc →
  collapse_polytomies fuel t m = Ok t' →
  (∀ v, reachable (store t) (root t) v → is_terminal (store t) v = true →
        is_Some (name (store t !!! v))) →
  ∀ v, reachable (store t') (root t') v → is_terminal (store t') v = true →
       is_Some (name (store t' !!! v)).
Proof.
  intros HC Hrun Hin.
  destruct (collapse_sound _ _ _ _ _ _ HC Hrun)
    as (Hr & ps & h1 & ps2 & Hps & Hp1 & Hp2 & _ & _).
  assert (Hl : ∃ l, preorder_traverse fuel (store t) (root t) = Ok l).
  { unfold prune_tips, get_terminals in Hp1. inv_bind Hp1. inv_bind Ha.
    eauto. }
  destruct Hl as [l Hl].
  pose (J1 := λ (h : heap) (L : gset nat),
          ∀ v, v ∈ L → clades (h !!! v) = [] → is_Some (name (h !!! v))).
  destruct (prune_tips_with J1 _ _ _ _ _ _ _ _ _ HC Hps Hp1 Hl)
    as (L1 & HC1 & HJ1).
  { intros v Hv Hleaf. apply Hin; [|by apply is_terminal_true].
    apply (preorder_reachable _ _ _ _ Hl). by apply elem_of_list_to_set in Hv. }
  { intros h h' L D tip p b _ HJh HtL HpL Hne Hp Hleaf Hb Hgt Hstep v Hv Hvl.
    apply elem_of_drop in Hv as [Hv Hvt].
    destruct (prune_tip_name _ _ _ _ _ _ _ Hstep Hb Hgt Hp Hne)
      as [Hframe Hname].
    destruct (decide (v = p)) as [->|Hvp];
      [|rewrite Hframe in Hvl |- * by done; by apply (HJh v)].
    destruct Hname as [[_ ->]|(pn & tn & _ & _ & ->)]; [|done].
    by apply (HJh tip). }
  pose (J2 := λ (h : heap) (L : gset nat),
          J1 h L ∧ ∀ v, clades (h1 !!! v) ≠ [] → clades (h !!! v) ≠ []).
  destruct (splice_nodes_with J2 _ _ _ _ _ _ _ _ _ HC1 Hp2)
    as (L2 & D2 & HC2 & HJ2 & _); [by split| |].
  { intros h h' ps0 ps' L D node p b _ [HJh Hstay] Hterm HnL HpL Hne Hnr Hp
      Hb Hgt Hstep.
    destruct (splice_node_name _ _ _ _ _ _ _ _ _ Hstep Hb Hgt Hnr Hp Hne)
      as (Hframe & (cs & Hcs) & _).
    assert (Hfull : clades (h' !!! p) ≠ []).
    { rewrite Hcs. apply is_terminal_false, Hstay in Hterm.
      intros Happ. by apply app_eq_nil in Happ as [_ ?]. }
    split.
    - intros v Hv Hvl. apply elem_of_drop in Hv as [Hv Hvt].
      destruct (decide (v = p)) as [->|Hvp]; [done|].
      rewrite Hframe in Hvl |- * by done. by apply (HJh v).
    - intros v Hv. destruct (decide (v = p)) as [->|Hvp]; [done|].
      rewrite Hframe by done. by apply Hstay. }
  intros v Hv Hterm. rewrite Hr in Hv. apply (HJ2 v).
  - by apply (collapsing_reach _ _ _ _ _ _ HC2).
  - by apply is_terminal_true.
Qed.

(** ** What annotate_tree leaves alone *)

Lemma annotate_tip_shape (d : gmap string (list string)) tip (h h' : heap) :
  annotate_tip d tip h = Ok h' →
  ∀ v, clades (h' !!! v) = clades (h !!! v) ∧
       branch_length (h' !!! v) = branch_length (h !!! v) ∧
       confidence (h' !!! v) = confidence (h !!! v) ∧
       name (h' !!! v) = name (h !!! v).
Proof.
  intros Hrun v. apply annotate_tip_inv in Hrun as (n & ls & _ & _ & ->).
  destruct (decide (v = tip)) as [->|Hne].
  - by rewrite lookup_total_insert_eq.
  - by rewrite lookup_total_insert_ne.
Qed.

Lemma annotate_node_shape (d : gmap string (list string)) node (h h' : heap) :
  annotate_node d node h = Ok h' →
  ∀ v, clades (h' !!! v) = clades (h !!! v) ∧
       branch_length (h' !!! v) = branch_length (h !!! v) ∧
       confidence (h' !!! v) = confidence (h !!! v).
Proof.
  unfold annotate_node. intros Hrun v.
  destruct (name (h !!! node)) as [n|].
  - inv_bind Hrun. injection Hrun as <-.
    destruct (decide (v = node)) as [->|Hne].
    + by rewrite lookup_total_insert_eq.
    + by rewrite lookup_total_insert_ne.
  - injection Hrun as <-. destruct (decide (v = node)) as [->|Hne].
    + by rewrite lookup_total_insert_eq.
    + by rewrite lookup_total_insert_ne.
Qed.

Lemma annotate_collapsed_shape fuel t d m t' tc :
  annotate_collapsed fuel t d m = Ok t' →
  collapse_polytomies fuel t m = Ok tc →
  ∀ v, clades (store t' !!! v) = clades (store tc !!! v) ∧
       branch_length (store t' !!! v) = branch_length (store tc !!! v) ∧
       confidence (store t' !!! v) = confidence (store tc !!! v).
Proof.
  unfold annotate_collapsed. intros H Hc. rewrite Hc in H. simpl in H.
  inv_bind H. rename a into tips. inv_bind H. rename a into h1, Ha0 into H1.
  inv_bind H. rename a into nodes. inv_bind H. rename a into h2, Ha1 into H2.
  injection H as <-. simpl.
  assert (Hh1 : ∀ v, clades (h1 !!! v) = clades (store tc !!! v) ∧
            branch_length (h1 !!! v) = branch_length (store tc !!! v) ∧
            confidence (h1 !!! v) = confidence (store tc !!! v)).
  { apply (for_each_inv (λ _ (h : heap),
             ∀ v, clades (h !!! v) = clades (store tc !!! v) ∧
               branch_length (h !!! v) = branch_length (store tc !!! v) ∧
               confidence (h !!! v) = confidence (store tc !!! v))
             _ _ _ _ H1); [done|].
    intros done x ha hb _ IH Hstep v.
    destruct (annotate_tip_shape _ _ _ _ Hstep v) as (-> & -> & -> & _).
    apply IH. }
  apply (for_each_inv (λ _ (h : heap),
           ∀ v, clades (h !!! v) = clades (store tc !!! v) ∧
             branch_length (h !!! v) = branch_length (store tc !!! v) ∧
             confidence (h !!! v) = confidence (store tc !!! v))
           _ _ _ _ H2); [done|].
  intros done x ha hb _ IH Hstep v.
  destruct (annotate_node_shape _ _ _ _ Hstep v) as (-> & -> & ->).
  apply IH.
Qed.

(** ** Two stores with the same children *)

Lemma reachable_same_clades (h h' : heap) r :
  (∀ v, clades (h' !!! v) = clades (h !!! v)) →
  ∀ v, reachable h' r v ↔ reachable h r v.
Proof.
  intros Hcl v. split.
  - induction 1 as [|p c _ IH Hc]; [constructor|].
    apply (reach_child _ _ p); [done|]. by rewrite <- Hcl.
  - induction 1 as [|p c _ IH Hc]; [constructor|].
    apply (reach_child _ _ p); [done|]. by rewrite Hcl.
Qed.

Lemma tree_cert_same_clades (h h' : heap) r depth L :
  (∀ v, clades (h' !!! v) = clades (h !!! v)) →
  tree_cert h r depth L → tree_cert h' r depth L.
Proof.
  intros Hcl HC. split.
  - apply (cert_root _ _ _ _ HC).
  - intros p c. rewrite Hcl. apply (cert_closed _ _ _ _ HC).
  - intros p c. rewrite Hcl. apply (cert_depth _ _ _ _ HC).
  - intros p. rewrite Hcl. apply (cert_nodup _ _ _ _ HC).
  - intros p q c. rewrite !Hcl. apply (cert_parent _ _ _ _ HC).
  - intros p. rewrite Hcl. apply (cert_root_top _ _ _ _ HC).
Qed.

(** ** The labels that annotate_tree sets *)

Lemma labels_of_Forall2 (d : gmap string (list string)) ks lss :
  Forall2 (λ k ls, d !! k = Some ls) ks lss → labels_of d ks = concat lss.
Proof.
  unfold labels_of. induction 1 as [|k ls ks lss Hk _ IH]; [done|].
  by rewrite fmap_cons, !concat_cons, Hk, IH.
Qed.

Lemma labels_of_app (d : gmap string (list string)) ks1 ks2 :
  labels_of d (ks1 ++ ks2) = labels_of d ks1 ++ labels_of d ks2.
Proof. unfold labels_of. by rewrite fmap_app, concat_app. Qed.

Lemma labels_of_concat (d : gmap string (list string)) kss :
  labels_of d (concat kss) = concat (labels_of d <$> kss).
Proof.
  induction kss as [|ks kss IH]; [done|].
  by rewrite fmap_cons, !concat_cons, labels_of_app, IH.
Qed.

(** The labels of an annotated clade are those that the table lists under
    the fields of its name in the collapsed tree. *)
Lemma annotated_labels (d : gmap string (list string)) tc v c :
  annotated d tc v c →
  labels c = Some (labels_of d (match name (store tc !!! v) with
                                | Some n => split_bar n
                                | None => []
                                end)).
Proof.
  unfold annotated. destruct (name (store tc !!! v)) as [n|].
  - intros (ls & Hls & ->). simpl.
    apply extend_labels_inv in Hls as (lss & Hlss & ->).
    by rewrite (labels_of_Forall2 _ _ _ Hlss).
  - by intros [_ ->].
Qed.

Lemma filter_all {A : Type} (P : A → Prop) `{∀ x, Decision (P x)} l :
  Forall P l → filter P l = l.
Proof.
  induction 1 as [|x l Hx _ IH]; [done|].
  by rewrite filter_cons_True, IH.
Qed.

Lemma extend_labels_known (d : gmap string (list string)) ks :
  Forall (λ k, is_Some (d !! k)) ks → ∃ ls, extend_labels d ks = Ok ls.
Proof.
  intros Hall.
  assert (Hlss : ∃ lss, Forall2 (λ k ls, d !! k = Some ls) ks lss).
  { induction Hall as [|k ks [ls Hk] _ [lss IH]].
    - exists []. constructor.
    - exists (ls :: lss). by constructor. }
  destruct Hlss as [lss Hlss]. exists (concat lss).
  by apply extend_labels_Ok.
Qed.

Lemma known_name_join (d : gmap string (list string)) a b :
  known_name d a → known_name d b → known_name d (join_bar a b).
Proof.
  unfold known_name. intros Ha Hb. rewrite split_bar_join.
  by apply Forall_app.
Qed.

(** ** The report of the validation *)

Lemma elem_of_set_diff (names : list (option string))
    (d : gmap string (list string)) (on : option string) :
  on ∈ set_diff names d ↔
  on ∈ names ∧ ∀ n, on = Some n → d !! n = None.
Proof.
  unfold set_diff. rewrite elem_of_difference, elem_of_list_to_set.
  rewrite elem_of_map. split.
  - intros [Hin Hnot]. split; [done|]. intros n ->.
    apply eq_None_not_Some. intros Hsome. apply Hnot. exists n.
    split; [done|]. by apply elem_of_dom.
  - intros [Hin Hnone]. split; [done|]. intros (n & -> & Hdom).
    apply elem_of_dom in Hdom. rewrite (Hnone n eq_refl) in Hdom.
    by destruct Hdom.
Qed.

(** ** annotate_tree returns *)

Lemma annotate_tip_returns (d : gmap string (list string)) tip (h : heap) n :
  name (h !!! tip) = Some n → known_name d n →
  ∃ ls, annotate_tip d tip h = Ok (<[tip := set_labels (h !!! tip) ls]> h).
Proof.
  intros Hn Hk. unfold annotate_tip. rewrite Hn.
  destruct (contains_bar n) eqn:Hbar.
  - destruct (extend_labels_known d _ Hk) as [ls ->]. simpl. eauto.
  - unfold known_name in Hk. rewrite (split_bar_no_bar n Hbar) in Hk.
    apply Forall_cons in Hk as [[ls Hls] _].
    unfold getitem. rewrite Hls. simpl. eauto.
Qed.

Lemma annotate_node_returns (d : gmap string (list string)) node (h : heap) :
  (∀ n, name (h !!! node) = Some n → known_name d n) →
  ∃ c, annotate_node d node h = Ok (<[node := c]> h) ∧
       clades c = clades (h !!! node).
Proof.
  intros Hk. unfold annotate_node. destruct (name (h !!! node)) as [n|].
  - destruct (extend_labels_known d _ (Hk n eq_refl)) as [ls ->]. simpl.
    eauto.
  - eauto.
Qed.

Lemma annotate_collapsed_returns t d m :
  well_formed t →
  (∀ v, reachable (store t) (root t) v → is_terminal (store t) v = true →
     ∃ b, branch_length (store t !!! v) = Some b ∧
          is_Some (name (store t !!! v)) ∧ (v = root t → (m < b)%Q)) →
  (∀ v n, reachable (store t) (root t) v → name (store t !!! v) = Some n →
          known_name d n) →
  ∃ N, ∀ fuel, N ≤ fuel → ∃ t', annotate_collapsed fuel t d m = Ok t'.
Proof.
  intros Hwf Htips Hknown.
  destruct (collapse_returns t m Hwf Htips) as [N1 HN1].
  destruct (HN1 N1) as [tc Hc]; [done|].
  pose proof (collapse_well_formed _ _ _ _ Hwf Hc) as Hwfc.
  destruct (traversals_total tc Hwfc) as [N2 HN2].
  pose proof Hwf as (depth & Lc & HC).
  assert (Hnamed : ∀ v, reachable (store tc) (root tc) v →
            is_terminal (store tc) v = true →
            is_Some (name (store tc !!! v))).
  { apply (collapse_tips_named N1 t m tc depth Lc HC Hc).
    intros v Hv Hterm. by destruct (Htips v Hv Hterm) as (b & _ & ? & _). }
  assert (Hknownc : ∀ v n, reachable (store tc) (root tc) v →
            name (store tc !!! v) = Some n → known_name d n).
  { apply (collapse_names_closed (known_name d) N1 t m tc depth Lc);
      [apply known_name_join|done..]. }
  exists (N1 `max` N2). intros fuel Hfuel.
  unfold annotate_collapsed.
  rewrite (collapse_fuel_mono N1 fuel t m tc Hc) by lia. simpl.
  destruct (HN2 fuel) as [[l Hl] _]; [lia|].
  pose proof (preorder_reachable _ _ _ _ Hl) as Hreach.
  pose proof (preorder_NoDup_wf _ _ _ Hwfc Hl) as Hnd.
  unfold get_terminals. rewrite Hl. simpl.
  destruct (for_each_total
              (λ (done : list nat) (h : heap),
                 ∀ v, name (h !!! v) = name (store tc !!! v) ∧
                      clades (h !!! v) = clades (store tc !!! v))
              (filter (λ v, is_terminal (store tc) v = true) l)
              (annotate_tip d) (store tc)) as (h1 & -> & Hh1); [done| |].
  { intros done x rest s1 Hxs IH.
    assert (Hx : x ∈ filter (λ v, is_terminal (store tc) v = true) l).
    { rewrite Hxs. apply elem_of_app. right. apply elem_of_cons. by left. }
    apply list_elem_of_filter in Hx as [Hterm Hx]. apply Hreach in Hx.
    destruct (Hnamed x Hx Hterm) as [n Hn].
    destruct (annotate_tip_returns d x s1 n) as [ls Hls].
    { by rewrite (proj1 (IH x)). }
    { by apply (Hknownc x). }
    eexists. split; [exact Hls|]. intros v.
    destruct (decide (v = x)) as [->|Hne].
    - rewrite lookup_total_insert_eq. simpl. apply IH.
    - rewrite lookup_total_insert_ne by done. apply IH. }
  simpl. unfold get_nonterminals. simpl.
  rewrite (preorder_same_clades fuel (store tc) h1 (root tc))
    by (intros x; apply Hh1).
  rewrite Hl. simpl.
  destruct (for_each_total
              (λ (done : list nat) (h : heap),
                 ∀ v, v ∉ done → name (h !!! v) = name (store tc !!! v))
              (filter (λ v, is_terminal h1 v = false) l)
              (annotate_node d) h1) as (h2 & -> & _).
  { intros v _. apply Hh1. }
  { intros done x rest s1 Hxs IH.
    assert (Hndx : NoDup (done ++ x :: rest)).
    { rewrite <- Hxs. by apply NoDup_filter. }
    apply NoDup_app in Hndx as (_ & Hxd & _).
    assert (Hxdone : x ∉ done).
    { intros Hin. apply (Hxd x Hin). apply elem_of_cons. by left. }
    assert (Hx : x ∈ filter (λ v, is_terminal h1 v = false) l).
    { rewrite Hxs. apply elem_of_app. right. apply elem_of_cons. by left. }
    apply list_elem_of_filter in Hx as [_ Hx]. apply Hreach in Hx.
    destruct (annotate_node_returns d x s1) as (c & Hc' & _).
    { intros n Hn. rewrite (IH x Hxdone) in Hn. by apply (Hknownc x). }
    eexists. split; [exact Hc'|]. intros v Hv.
    rewrite lookup_total_insert_ne.
    - apply IH. intros Hin. apply Hv, elem_of_app. by left.
    - intros ->. apply Hv, elem_of_app. right. apply elem_of_cons. by left. }
  simpl. eauto.
Qed.
(** ** The level order *)

(** In level order a clade comes after the clade that lists it, unless it
    was in the queue from the start. *)
Lemma level_parent_first fuel (h : heap) queue l :
  level_traverse fuel h queue = Ok l →
  ∀ i x, l !! i = Some x →
    queue !! i = Some x ∨
    ∃ j p, j < i ∧ l !! j = Some p ∧ x ∈ clades (h !!! p).
Proof.
  revert queue l. induction fuel as [|fuel IH]; intros queue l Hl i x Hi.
  - destruct queue; [|done]. injection Hl as <-. done.
  - destruct queue as [|v queue]; [injection Hl as <-; done|].
    apply level_unfold in Hl as (fuel' & rest & [= <-] & -> & Hrest).
    destruct i as [|i]; [left; done|]. simpl in Hi.
    destruct (IH _ _ Hrest i x Hi) as [Hq|(j & p & Hj & Hp & Hc)].
    + destruct (decide (i < length queue)) as [Hlt|Hge].
      * left. simpl. by rewrite lookup_app_l in Hq.
      * right. exists 0, v. split; [lia|]. split; [done|].
        rewrite lookup_app_r in Hq by lia.
        by apply list_elem_of_lookup_2 in Hq.
    + right. exists (S j), p. split; [lia|]. by split.
Qed.

Lemma length_filter_remove (x : nat) l :
  NoDup l → x ∈ l → length (filter (λ y, y ≠ x) l) + 1 = length l.
Proof.
  induction l as [|y l IH]; intros Hnd Hx; [by apply elem_of_nil in Hx|].
  apply NoDup_cons in Hnd as [Hy Hnd].
  destruct (decide (y = x)) as [->|Hne].
  - rewrite filter_cons_False by (intros Hc; by apply Hc).
    rewrite (filter_all (λ y, y ≠ x) l); [simpl; lia|].
    apply Forall_forall. by intros z Hz ->.
  - rewrite filter_cons_True by done. simpl.
    apply elem_of_cons in Hx as [->|Hx]; [done|]. rewrite <- IH; [lia|done..].
Qed.

(** ** The identifiers of the nodes without labels *)

Lemma str_nat_inj a b : str_nat a = str_nat b → a = b.
Proof.
  unfold str_nat. intros Heq. apply DecimalNat.Unsigned.to_uint_inj.
  assert (Hnn : ∀ n, Nat.to_uint n ≠ Decimal.Nil).
  { intros n. rewrite <- (DecimalNat.Unsigned.of_to n) at 1.
    rewrite DecimalNat.Unsigned.to_of.
    unfold Decimal.unorm. by destruct (Decimal.nzhead (Nat.to_uint n)). }
  pose proof (NilZero.usu _ (Hnn a)) as Ha.
  pose proof (NilZero.usu _ (Hnn b)) as Hb.
  rewrite Heq in Ha. congruence.
Qed.

(** ** The loop of serialize_tree, fault by fault *)

(** A loop whose body fails exactly at the elements with a fault stops at
    the first of them, with its fault. *)
Lemma for_each_first_fault {A S : Type} (fault : A → option exn)
    (I : list A → S → Prop) (xs : list A) (body : A → S → result S) (s : S) :
  I [] s →
  (∀ done x rest s1, xs = done ++ x :: rest → I done s1 →
     match fault x with
     | Some e => body x s1 = Raise e
     | None => ∃ s2, body x s1 = Ok s2 ∧ I (done ++ [x]) s2
     end) →
  match head (omap fault xs) with
  | Some e => for_each xs body s = Raise e
  | None => ∃ s', for_each xs body s = Ok s' ∧ I xs s'
  end.
Proof.
  intros H0 Hstep.
  cut (∀ rest done s0, xs = done ++ rest → I done s0 →
         match head (omap fault rest) with
         | Some e => for_each rest body s0 = Raise e
         | None => ∃ s', for_each rest body s0 = Ok s' ∧ I xs s'
         end).
  { intros Hcut. by apply (Hcut xs [] s). }
  induction rest as [|x rest IH]; intros done s0 Hxs HI; simpl.
  - rewrite app_nil_r in Hxs. subst xs. by exists s0.
  - specialize (Hstep done x rest s0 Hxs HI).
    destruct (fault x) as [e|]; simpl.
    + by rewrite Hstep.
    + destruct Hstep as (s2 & -> & HI2). simpl.
      apply (IH (done ++ [x])); [by rewrite <- app_assoc|done].
Qed.

Lemma assign_variant_count ls c c' :
  match assign_variant ls c with
  | Ok _ => ∃ r, assign_variant ls c' = Ok r
  | Raise e => assign_variant ls c' = Raise e
  end.
Proof.
  unfold assign_variant. destruct ls as [|l ls]; [eauto|].
  destruct (earliest_accession _); simpl; eauto.
Qed.

Lemma assign_variant_Raise ls c e :
  assign_variant ls c = Raise e → e = IndexError.
Proof.
  unfold assign_variant, earliest_accession. destruct ls as [|l ls]; [done|].
  destruct (sorted_samples (l :: ls)) as [|first rest]; simpl;
    [by intros [= <-]|].
  destruct (first !! 3); simpl; [done|by intros [= <-]].
Qed.

(** The body of the loop at a node whose parent, if it has one, is indexed
    and has its identifier. *)
Lemma serialize_node_fault t ps x s :
  (x ≠ root t → ∃ p, ps !! x = Some p ∧ is_Some (variant_d s !! p)) →
  match node_fault t x with
  | Some e => serialize_node (store t) (root t) ps x s = Raise e
  | None =>
      ∃ s', serialize_node (store t) (root t) ps x s = Ok s' ∧
            ∃ v, variant_d s' = <[x := v]> (variant_d s)
  end.
Proof.
  intros Hparent. unfold node_fault, serialize_node.
  destruct (labels (store t !!! x)) as [ls|]; [|done].
  pose proof (assign_variant_count ls 0 (us_count s)) as Hcount.
  destruct (assign_variant ls 0) as [r0|e].
  2:{ by rewrite Hcount. }
  destruct Hcount as [[[variant payload] count] ->]. simpl.
  destruct (bool_decide (x = root t)) eqn:Hr; [eauto|].
  apply bool_decide_eq_false in Hr.
  destruct (Hparent Hr) as (p & -> & Hpv).
  assert (Hpv' : is_Some (<[x := variant]> (variant_d s) !! p)).
  { apply lookup_insert_is_Some. destruct (decide (x = p)); auto. }
  destruct Hpv' as [pv ->].
  destruct (branch_length (store t !!! x)); [eauto|done].
Qed.

(** [serialize_tree] stops at the first node, in level order, with a
    fault, and returns a graph when no node has one. *)
Lemma serialize_loop_first_fault fuel t order :
  well_formed t →
  find_clades_level fuel t = Ok order →
  match head (omap (node_fault t) order) with
  | Some e => serialize_loop fuel t = Raise e
  | None => ∃ s, serialize_loop fuel t = Ok s
  end.
Proof.
  intros Hwf Ho. pose proof Hwf as (depth & Lc & HC).
  assert (Hps : ∃ ps, get_parents fuel t = Ok ps).
  { unfold get_parents. rewrite Ho. simpl. eauto. }
  destruct Hps as [ps Hps].
  destruct (get_parents_spec _ _ _ _ _ HC Hps) as (_ & Hidx & _).
  pose proof (level_reachable _ _ _ _ Ho) as Hreach.
  unfold serialize_loop. rewrite Hps, Ho. simpl.
  pose proof (for_each_first_fault (node_fault t)
                (λ done s, ∀ v, v ∈ done → is_Some (variant_d s !! v))
                order (serialize_node (store t) (root t) ps)
                (mkSer (mkGraph ∅ []) ∅ 0)) as Hloop.
  assert (Hgo : match head (omap (node_fault t) order) with
                | Some e =>
                    for_each order (serialize_node (store t) (root t) ps)
                      (mkSer (mkGraph ∅ []) ∅ 0) = Raise e
                | None =>
                    ∃ s', for_each order
                            (serialize_node (store t) (root t) ps)
                            (mkSer (mkGraph ∅ []) ∅ 0) = Ok s' ∧
                          ∀ v, v ∈ order → is_Some (variant_d s' !! v)
                end).
  { apply Hloop; [intros v Hv; by apply elem_of_nil in Hv|].
    intros done x rest s1 Hxs IH.
    pose proof (serialize_node_fault t ps x s1) as Hnode.
    assert (Hparent : x ≠ root t →
              ∃ p, ps !! x = Some p ∧ is_Some (variant_d s1 !! p)).
    { intros Hxr.
      assert (Hi : order !! length done = Some x).
      { rewrite Hxs. by apply list_lookup_middle. }
      destruct (level_parent_first _ _ _ _ Ho _ _ Hi)
        as [Hq|(j & p & Hj & Hp & Hc)].
      { destruct (length done); simpl in Hq; [by injection Hq as <-|done]. }
      exists p. split.
      - apply Hidx; [|done]. apply Hreach.
        by apply list_elem_of_lookup_2 in Hp.
      - apply IH. rewrite Hxs, lookup_app_l in Hp by done.
        by apply list_elem_of_lookup_2 in Hp. }
    destruct (node_fault t x) as [e'|]; [by apply Hnode|].
    destruct (Hnode Hparent) as (s' & Hs' & v & Hv).
    exists s'. split; [done|]. intros w Hw. rewrite Hv.
    apply lookup_insert_is_Some. destruct (decide (x = w)); [auto|].
    right. split; [done|]. apply IH.
    apply elem_of_app in Hw as [?|Hw]; [done|].
    by apply list_elem_of_singleton in Hw as ->. }
  destruct (head (omap (node_fault t) order)) as [e|]; [done|].
  destruct Hgo as (s' & Hs' & _). by exists s'.
Qed.

Lemma head_omap_Some {A B : Type} (f : A → option B) l b :
  head (omap f l) = Some b → ∃ x, x ∈ l ∧ f x = Some b.
Proof.
  induction l as [|x l IH]; simpl; [done|].
  destruct (f x) as [b'|] eqn:Hx; simpl.
  - intros [= <-]. exists x. split; [apply elem_of_cons; by left|done].
  - intros Hb. destruct (IH Hb) as (y & Hy & Hfy). exists y.
    split; [apply elem_of_cons; by right|done].
Qed.

(** ** The edges *)

Lemma edge_of_inv (h : heap) ps (ids : gmap nat string) x pv v b c :
  edge_of h ps ids x = Some (pv, v, b, c) →
  ∃ p b0, ps !! x = Some p ∧ ids !! p = Some pv ∧ ids !! x = Some v ∧
          branch_length (h !!! x) = Some b0 ∧ b = round2 b0 ∧
          c = confidence (h !!! x).
Proof.
  unfold edge_of. intros He.
  destruct (ps !! x) as [p|]; simpl in He; [|done].
  destruct (ids !! p) as [pv'|] eqn:Hp; simpl in He; [|done].
  destruct (ids !! x) as [v'|] eqn:Hx; simpl in He; [|done].
  destruct (branch_length (h !!! x)) as [b0|]; simpl in He; [|done].
  injection He as <- <- <- <-. by exists p, b0.
Qed.

Lemma edge_of_insert (h : heap) ps (ids : gmap nat string) y variant x e :
  ids !! y = None →
  edge_of h ps ids x = Some e →
  edge_of h ps (<[y := variant]> ids) x = Some e.
Proof.
  destruct e as [[[pv v] b] c]. intros Hy He.
  apply edge_of_inv in He as (p & b0 & Hp & Hpv & Hv & Hb & -> & ->).
  unfold edge_of. rewrite Hp. simpl.
  rewrite !lookup_insert_ne by congruence. rewrite Hpv, Hv, Hb. done.
Qed.

Lemma serialize_loop_edges fuel t s ps order :
  well_formed t →
  get_parents fuel t = Ok ps →
  find_clades_level fuel t = Ok order →
  serialize_loop fuel t = Ok s →
  Forall2 (λ x e, edge_of (store t) ps (variant_d s) x = Some e)
          (filter (λ x, x ≠ root t) order) (edges (obj s)).
Proof.
  intros Hwf Hps Ho H. unfold serialize_loop in H.
  rewrite Hps, Ho in H. simpl in H.
  pose proof (level_NoDup _ _ _ Hwf Ho) as Hnd.
  cut ((∀ v, v ∉ order → variant_d s !! v = None) ∧
       Forall2 (λ x e, edge_of (store t) ps (variant_d s) x = Some e)
               (filter (λ x, x ≠ root t) order) (edges (obj s))).
  { by intros [_ ?]. }
  apply (for_each_inv_pos
           (λ done s,
              (∀ v, v ∉ done → variant_d s !! v = None) ∧
              Forall2 (λ x e, edge_of (store t) ps (variant_d s) x = Some e)
                      (filter (λ x, x ≠ root t) done) (edges (obj s)))
           _ _ _ _ H).
  - split; [done|]. constructor.
  - intros done x rest s1 s2 Hsplit [Hfresh Hedges] Hstep.
    assert (Hx : x ∉ done).
    { rewrite Hsplit in Hnd. apply NoDup_app in Hnd as (_ & Hdis & _).
      intros Hin. apply (Hdis x Hin). apply elem_of_cons. by left. }
    apply serialize_node_inv in Hstep
      as (ls & variant & payload & _ & _ & _ & Hvd & _ & Hcase).
    split.
    + intros v Hv. rewrite Hvd, lookup_insert_ne.
      * apply Hfresh. intros Hin. apply Hv, elem_of_app. by left.
      * intros ->. apply Hv, elem_of_app. right.
        by apply list_elem_of_singleton.
    + assert (Hold : Forall2
                (λ x0 e, edge_of (store t) ps (variant_d s2) x0 = Some e)
                (filter (λ x0, x0 ≠ root t) done) (edges (obj s1))).
      { eapply Forall2_impl; [exact Hedges|]. intros y e He. simpl in He.
        rewrite Hvd. apply edge_of_insert; [by apply Hfresh|done]. }
      rewrite filter_app.
      destruct Hcase as [[-> ->]|(Hxr & p & pv & b & Hp & Hpv & Hb & ->)].
      * rewrite filter_cons_False by (intros Hc; by apply Hc).
        by rewrite filter_nil, app_nil_r.
      * rewrite filter_cons_True by done. rewrite filter_nil.
        apply Forall2_app; [done|]. constructor; [|constructor].
        unfold edge_of. rewrite Hp, Hvd. simpl. rewrite Hpv. simpl.
        rewrite lookup_insert_eq. simpl. by rewrite Hb.
Qed.
(** ** Where a loop fails *)

Lemma for_each_Raise {A S : Type} (xs : list A) (body : A → S → result S)
    (s : S) e :
  for_each xs body s = Raise e →
  ∃ done x rest s1, xs = done ++ x :: rest ∧
    for_each done body s = Ok s1 ∧ body x s1 = Raise e.
Proof.
  revert s. induction xs as [|x xs IH]; intros s H; simpl in H; [done|].
  destruct (body x s) as [s'|e'] eqn:Hx; simpl in H.
  - destruct (IH s' H) as (done & y & rest & s1 & -> & Hdone & Hy).
    exists (x :: done), y, rest, s1. split; [done|]. split; [|done].
    simpl. by rewrite Hx.
  - injection H as <-. by exists [], x, xs, s.
Qed.

(** What the body of the first loop raises at a tip that is still in the
    tree. *)
Lemma prune_tip_Raise r depth m ps L D tip (h : heap) e :
  collapsing r depth h ps L D →
  tip ∈ L → clades (h !!! tip) = [] →
  prune_tip m ps tip h = Raise e →
  (e = TypeError ∧
   (branch_length (h !!! tip) = None ∨ name (h !!! tip) = None)) ∨
  (e = KeyError ∧ tip = r ∧
   ∃ b, branch_length (h !!! tip) = Some b ∧ float_gt b m = false).
Proof.
  intros HC Htip Hleaf. unfold prune_tip.
  destruct (branch_length (h !!! tip)) as [b|]; [|intros [= <-]; auto].
  destruct (float_gt b m) eqn:Hgt; [done|].
  destruct (decide (tip = r)) as [->|Hne].
  - rewrite (col_root_top _ _ _ _ _ _ HC). intros [= <-]. right.
    split; [done|]. split; [done|]. by exists b.
  - destruct (col_parent _ _ _ _ _ _ HC tip Htip Hne) as (p & -> & _ & Hin).
    destruct (list_remove_in _ _ Hin) as [cs ->]. simpl.
    assert (Hp : tip ≠ p).
    { intros <-. rewrite Hleaf in Hin. by apply elem_of_nil in Hin. }
    rewrite lookup_total_insert_eq, lookup_total_insert_ne by done. simpl.
    destruct (name (h !!! p)); [|done].
    destruct (name (h !!! tip)); [done|]. intros [= <-]. auto.
Qed.

Lemma get_parents_Raise fuel t e : get_parents fuel t = Raise e → e = OutOfFuel.
Proof.
  unfold get_parents, find_clades_level.
  destruct (level_traverse fuel (store t) [root t]) as [l|e'] eqn:Hl;
    simpl; [done|].
  intros [= <-]. by apply (level_Raise _ _ _ _ Hl).
Qed.

(** The first loop fails only at a tip without a branch length or a name, or
    at a root that is a tip to prune. *)
Lemma prune_tips_Raise fuel fuel' t m ps depth Lc e :
  tree_cert (store t) (root t) depth Lc →
  get_parents fuel' t = Ok ps →
  prune_tips fuel t m ps = Raise e →
  e = OutOfFuel ∨
  (e = TypeError ∧
   ∃ tip, reachable (store t) (root t) tip ∧
     is_terminal (store t) tip = true ∧
     (branch_length (store t !!! tip) = None ∨
      name (store t !!! tip) = None)) ∨
  (e = KeyError ∧ is_terminal (store t) (root t) = true ∧
   ∃ b, branch_length (store t !!! root t) = Some b ∧ float_gt b m = false).
Proof.
  intros HC Hps H. unfold prune_tips, get_terminals in H.
  destruct (preorder_traverse fuel (store t) (root t)) as [l|e'] eqn:Hl;
    simpl in H.
  2:{ injection H as <-. left. by apply (preorder_Raise _ _ _ _ Hl). }
  right.
  destruct (for_each_Raise _ _ _ _ H)
    as (done & x & rest & h & Hsplit & Hdone & Hx).
  destruct (collapsing_start _ _ _ _ _ _ _ HC Hps Hl) as [HC0 _].
  assert (Hnd : NoDup (done ++ x :: rest)).
  { rewrite <- Hsplit. apply NoDup_filter.
    apply (preorder_NoDup_wf fuel t); [by exists depth, Lc|done]. }
  assert (Htips : ∀ v, v ∈ done ++ x :: rest →
            v ∈ (list_to_set l : gset nat) ∧ clades (store t !!! v) = []).
  { intros v Hv. rewrite <- Hsplit in Hv.
    apply list_elem_of_filter in Hv as [Hv Hin].
    split; [by apply elem_of_list_to_set|by apply is_terminal_true]. }
  destruct (prune_loop (root t) depth m ps done (store t) h (list_to_set l) HC0)
    as (L1 & D1 & HC1 & Hsplit1 & Hdead & Hlen & Hstay & _); [|done|].
  { intros v Hv. apply Htips, elem_of_app. by left. }
  destruct (Htips x) as [HxL0 Hleaf].
  { apply elem_of_app. right. apply elem_of_cons. by left. }
  assert (HxL : x ∈ L1).
  { apply Hsplit1 in HxL0 as [?|HxD]; [done|].
    destruct (Hdead x HxD) as [Hin _].
    apply NoDup_app in Hnd as (_ & Hdis & _). destruct (Hdis x Hin).
    apply elem_of_cons. by left. }
  assert (Hreach : reachable (store t) (root t) x).
  { apply (preorder_reachable _ _ _ _ Hl).
    by apply elem_of_list_to_set in HxL0. }
  assert (Hsame : h !!! x = store t !!! x) by (by apply Hstay).
  assert (Hleaf' : clades (h !!! x) = []) by (by rewrite Hsame).
  destruct (prune_tip_Raise (root t) depth m ps L1 D1 x h e HC1 HxL Hleaf' Hx)
    as [[-> Hwhy]|(-> & -> & b & Hb & Hgt)].
  - left. split; [done|]. exists x. split; [done|].
    split; [by apply is_terminal_true|]. by rewrite <- Hsame.
  - right. split; [done|]. split; [by apply is_terminal_true|].
    exists b. by rewrite <- Hsame.
Qed.

(** The second loop fails only for want of fuel. *)
Lemma splice_nodes_Raise fuel r m depth (h1 : heap) ps L1 e :
  collapsing r depth h1 ps L1 ∅ →
  (∀ l, preorder_traverse fuel h1 r = Ok l → NoDup l) →
  splice_nodes fuel (mkTree h1 r) m ps = Raise e →
  e = OutOfFuel.
Proof.
  intros HC1 Hnodup H. unfold splice_nodes, get_nonterminals in H.
  simpl in H.
  destruct (preorder_traverse fuel h1 r) as [l|e'] eqn:Hl; simpl in H.
  2:{ injection H as <-. by apply (preorder_Raise _ _ _ _ Hl). }
  destruct (for_each_Raise _ _ _ _ H)
    as (done & x & rest & [h ps'] & Hsplit & Hdone & Hx).
  pose proof (collapsing_reach _ _ _ _ _ _ HC1) as Hreach1.
  pose proof (preorder_reachable _ _ _ _ Hl) as Hlist1.
  assert (Hnd : NoDup (done ++ x :: rest)).
  { rewrite <- Hsplit. by apply NoDup_filter, Hnodup. }
  assert (Hnodes : ∀ v, v ∈ done ++ x :: rest → v ∈ L1).
  { intros v Hv. rewrite <- Hsplit in Hv.
    apply list_elem_of_filter in Hv as [_ Hin]. by apply Hreach1, Hlist1. }
  destruct (splice_loop r depth m done h1 h ps ps' L1 HC1)
    as (L2 & D2 & HC2 & Hsplit2 & Hdead & _); [|done|].
  { intros v Hv. apply Hnodes, elem_of_app. by left. }
  assert (HxL : x ∈ L2).
  { assert (HxL1 : x ∈ L1).
    { apply Hnodes, elem_of_app. right. apply elem_of_cons. by left. }
    apply Hsplit2 in HxL1 as [?|HxD]; [done|].
    destruct (Hdead x HxD) as [Hin _].
    apply NoDup_app in Hnd as (_ & Hdis & _). destruct (Hdis x Hin).
    apply elem_of_cons. by left. }
  destruct (splice_node_returns r depth m L2 D2 x h ps' HC2 HxL) as [st Hst].
  by rewrite Hst in Hx.
Qed.
(** ** The pipeline *)

Lemma level_same_clades fuel (h h' : heap) queue :
  (∀ x, clades (h' !!! x) = clades (h !!! x)) →
  level_traverse fuel h' queue = level_traverse fuel h queue.
Proof.
  intros Hcl. revert queue.
  induction fuel as [|fuel IH]; intros [|v queue]; simpl; try done.
  by rewrite Hcl, IH.
Qed.

Lemma head_omap_None {A B : Type} (f : A → option B) l :
  (∀ x, x ∈ l → f x = None) → head (omap f l) = None.
Proof.
  induction l as [|x l IH]; intros Hall; simpl; [done|].
  rewrite (Hall x) by (apply elem_of_cons; by left).
  apply IH. intros y Hy. apply Hall, elem_of_cons. by right.
Qed.

Lemma elem_of_concat {A : Type} (x : A) ls :
  x ∈ concat ls → ∃ l, l ∈ ls ∧ x ∈ l.
Proof.
  induction ls as [|l ls IH]; simpl; [by intros ?%elem_of_nil|].
  intros [Hx|Hx]%elem_of_app.
  - exists l. split; [apply elem_of_cons; by left|done].
  - destruct (IH Hx) as (l' & Hl' & Hx'). exists l'.
    split; [apply elem_of_cons; by right|done].
Qed.

(** A label of the table under one of the identifiers [ks]. *)
Lemma elem_of_labels_of (d : gmap string (list string)) ks label :
  label ∈ labels_of d ks → ∃ k ls, d !! k = Some ls ∧ label ∈ ls.
Proof.
  unfold labels_of. intros Hin.
  apply elem_of_concat in Hin as (l & Hl & Hin).
  apply list_elem_of_fmap in Hl as (k & Heq & _). subst l. simpl in Hin.
  destruct (d !! k) as [ls|] eqn:Hk; [by exists k, ls|].
  by apply elem_of_nil in Hin.
Qed.

(** Labels with four fields or more have an accession to be named by. *)
Lemma assign_variant_returns ls count :
  (∀ label, label ∈ ls → 4 ≤ length (split_bar label)) →
  ∃ r, assign_variant ls count = Ok r.
Proof.
  intros Hfields. unfold assign_variant.
  destruct ls as [|l0 ls0]; [eauto|]. set (ls := l0 :: ls0) in *.
  pose proof (sort_rows_perm ((λ label, reverse (split_bar label)) <$> ls))
    as Hperm. fold (sorted_samples ls) in Hperm.
  unfold earliest_accession.
  destruct (sorted_samples ls) as [|first rest] eqn:Hs.
  { symmetry in Hperm. by apply Permutation_nil_r in Hperm. }
  assert (Hfirst : first ∈ (λ label, reverse (split_bar label)) <$> ls).
  { rewrite <- Hperm. apply elem_of_cons. by left. }
  apply list_elem_of_fmap in Hfirst as (label & -> & Hlabel).
  destruct (lookup_lt_is_Some_2 (reverse (split_bar label)) 3) as [acc ->].
  { rewrite length_reverse. specialize (Hfields label Hlabel). lia. }
  simpl. eauto.
Qed.

Lemma collapse_reachable fuel t m t' :
  well_formed t →
  collapse_polytomies fuel t m = Ok t' →
  root t' = root t ∧
  ∀ v, reachable (store t') (root t') v → reachable (store t) (root t) v.
Proof.
  intros (depth & Lc & HC) Hrun.
  destruct (collapse_sound _ _ _ _ _ _ HC Hrun)
    as (Hr & ps & h1 & ps2 & Hps & Hp1 & Hp2 & (L1 & HC1 & _) & _).
  destruct (prune_tips_sound _ _ _ _ _ _ _ _ HC Hps Hp1)
    as (_ & _ & _ & Hback1 & _).
  destruct (splice_nodes_sound _ _ _ _ _ _ _ _ _ HC1 Hp2)
    as (_ & _ & _ & Hback2 & _).
  split; [done|]. intros v Hv. rewrite Hr in Hv. by apply Hback1, Hback2.
Qed.

(** [serialize_tree] returns on what [annotate_tree] makes of a tree with
    branch lengths below the root, when the labels of the table have four
    fields or more. *)
Lemma serialize_annotated_returns fuel t d m t' tc fuel' order :
  well_formed t →
  annotate_collapsed fuel t d m = Ok t' →
  collapse_polytomies fuel t m = Ok tc →
  find_clades_level fuel' tc = Ok order →
  (∀ v, reachable (store t) (root t) v → v ≠ root t →
        is_Some (branch_length (store t !!! v))) →
  (∀ k ls label, d !! k = Some ls → label ∈ ls →
                 4 ≤ length (split_bar label)) →
  ∃ g, serialize_tree fuel' t' = Ok g.
Proof.
  intros Hwf Hrun Hc Ho Hlen Hfields.
  destruct (annotate_collapsed_inv _ _ _ _ _ Hwf Hrun)
    as (tc' & Hc' & Hr & Hann).
  assert (tc' = tc) as -> by congruence.
  pose proof (annotate_collapsed_shape _ _ _ _ _ _ Hrun Hc) as Hshape.
  assert (Hcl : ∀ v, clades (store t' !!! v) = clades (store tc !!! v))
    by (intros v; apply Hshape).
  assert (Hwf' : well_formed t').
  { destruct (collapse_well_formed _ _ _ _ Hwf Hc) as (depth & L & HC).
    exists depth, L. rewrite Hr. by apply (tree_cert_same_clades (store tc)). }
  assert (Ho' : find_clades_level fuel' t' = Ok order).
  { unfold find_clades_level in *. rewrite Hr.
    by rewrite (level_same_clades _ (store tc) (store t')). }
  destruct (collapse_reachable _ _ _ _ Hwf Hc) as [Hrc Hback].
  pose proof (serialize_loop_first_fault fuel' t' order Hwf' Ho') as Hloop.
  rewrite head_omap_None in Hloop.
  { destruct Hloop as [s Hs]. unfold serialize_tree. rewrite Hs. simpl.
    eauto. }
  intros x Hx. apply (level_reachable _ _ _ _ Ho) in Hx.
  unfold node_fault. rewrite (annotated_labels _ _ _ _ (Hann x Hx)).
  destruct (assign_variant_returns
              (labels_of d (match name (store tc !!! x) with
                            | Some n => split_bar n
                            | None => []
                            end)) 0) as [r ->].
  { intros label Hlabel.
    apply elem_of_labels_of in Hlabel as (k & ls & Hk & Hin).
    by apply (Hfields k ls). }
  destruct (bool_decide (x = root t')) eqn:Hroot; [done|].
  apply bool_decide_eq_false in Hroot.
  destruct (Hshape x) as (_ & -> & _).
  pose proof (collapse_data _ _ _ _ Hc x) as Hdata.
  unfold clade_data in Hdata. injection Hdata as -> _ _.
  destruct (Hlen x) as [b ->]; [by apply Hback|congruence|done].
Qed.
(** * The claims about collapse_polytomies *)

Lemma four_tips_well_formed : well_formed four_tips.
Proof.
  apply (check_tree_sound _ (depth_of [0; 1; 2; 2; 1; 2; 2]) (seq 0 7)).
  vm_compute. reflexivity.
Qed.

Lemma four_tips_run :
  collapse_polytomies 10 four_tips (1#2)%Q = Ok four_tips_collapsed.
Proof. vm_compute. reflexivity. Qed.

Lemma four_tips_rerun :
  collapse_polytomies 10 four_tips_collapsed (1#2)%Q = Ok four_tips_twice.
Proof. vm_compute. reflexivity. Qed.

(** What [collapse_polytomies] leaves in the tree, the root apart. *)
Lemma collapse_survivors fuel t m t' :
  well_formed t →
  collapse_polytomies fuel t m = Ok t' →
  ∀ v, reachable (store t') (root t') v → v ≠ root t' →
    branch_length (store t' !!! v) = branch_length (store t !!! v) ∧
    ((is_terminal (store t) v = true ∧
      ∃ b, branch_length (store t !!! v) = Some b ∧ float_gt b m = true) ∨
     (is_terminal (store t) v = false ∧ is_terminal (store t') v = true) ∨
     (is_terminal (store t') v = false ∧
      (branch_length (store t !!! v) = None ∨
       ∃ b, branch_length (store t !!! v) = Some b ∧ float_gt b m = true))).
Proof.
  intros (depth & Lc & HC) Hrun v Hv Hroot.
  destruct (collapse_sound _ _ _ _ _ _ HC Hrun)
    as (Hr & ps & h1 & ps2 & Hps & Hp1 & Hp2 & (L1 & HC1 & _) & _).
  rewrite Hr in Hv, Hroot.
  destruct (prune_tips_sound _ _ _ _ _ _ _ _ HC Hps Hp1)
    as (_ & Hlen1 & Hstay1 & Hback1 & Hfwd1).
  destruct (splice_nodes_sound _ _ _ _ _ _ _ _ _ HC1 Hp2)
    as (_ & Hlen2 & Hstay2 & Hback2 & Hfwd2).
  pose proof (Hback2 v Hv) as Hv1. pose proof (Hback1 v Hv1) as Hv0.
  split; [by rewrite Hlen2, Hlen1|].
  specialize (Hfwd1 v Hv0). apply (Hfwd2 v Hv1) in Hv.
  destruct (is_terminal (store t) v) eqn:Hin.
  - left. split; [done|]. destruct Hfwd1 as (b & Hb & Hiff). exists b.
    split; [done|]. by apply Hiff.
  - right. destruct (is_terminal h1 v) eqn:Hmid.
    + left. split; [done|]. by apply (tips_stay_terminal h1).
    + destruct Hv as [?|[?|Hlong]]; [done|done|].
      rewrite !Hlen1 in Hlong.
      destruct (is_terminal (store t') v); [by left|by right].
Qed.

(** C1: the code does not reach the postcondition that the spec states and
    that its own docstring ("excise branches with zero branch lengths") and
    the help of [--minlen] promise.  On [four_tips] with [minlen = 0.5] the
    clade of [C] and [D] loses both tips in the first loop, is then a
    terminal and so is not among the non-terminals that the second loop
    visits, and stays in the tree, below the root, on a branch of length
    0.05.  On [zero_lengths] with [minlen = 0] the same clade stays on a
    branch of length zero. *)
Theorem collapse_leaves_short_branch :
  (well_formed four_tips ∧
   collapse_polytomies 10 four_tips (1#2)%Q = Ok four_tips_collapsed ∧
   reachable (store four_tips_collapsed) (root four_tips_collapsed) 4 ∧
   4 ≠ root four_tips_collapsed ∧
   is_terminal (store four_tips) 4 = false ∧
   branch_length (store four_tips_collapsed !!! 4) = Some (5#100)%Q ∧
   (5#100 <= 1#2)%Q) ∧
  (well_formed zero_lengths ∧
   ∃ t', collapse_polytomies 10 zero_lengths 0%Q = Ok t' ∧
     reachable (store t') (root t') 4 ∧ 4 ≠ root t' ∧
     branch_length (store t' !!! 4) = Some 0%Q ∧ (0 <= 0)%Q).
Proof.
  split.
  - split; [apply four_tips_well_formed|]. split; [apply four_tips_run|].
    split.
    { apply (reach_child _ _ 0); [constructor|]. vm_compute. constructor. }
    split; [done|]. split; [reflexivity|]. split; [reflexivity|].
    by vm_compute.
  - split.
    { apply (check_tree_sound _ (depth_of [0; 1; 2; 2; 1; 2; 2]) (seq 0 7)).
      vm_compute. reflexivity. }
    eexists. split; [vm_compute; reflexivity|]. split.
    { apply (reach_child _ _ 0); [constructor|]. vm_compute. constructor. }
    split; [done|]. split; [reflexivity|]. by vm_compute.
Qed.

(** What the code does ensure: after [collapse_polytomies] returns on a
    well-formed tree, every clade still in the tree, the root apart, has an
    undefined branch length, or one strictly above [minlen], or is a terminal
    of the result that was an internal node of the input (all its children
    were pruned by the first loop, and the second loop passed it by). *)
Theorem collapse_postcondition fuel t m t' :
  well_formed t →
  collapse_polytomies fuel t m = Ok t' →
  ∀ v, reachable (store t') (root t') v → v ≠ root t' →
    branch_length (store t' !!! v) = None ∨
    (∃ b, branch_length (store t' !!! v) = Some b ∧ (m < b)%Q) ∨
    (is_terminal (store t') v = true ∧ is_terminal (store t) v = false).
Proof.
  intros Hwf Hrun v Hv Hroot.
  destruct (collapse_survivors _ _ _ _ Hwf Hrun v Hv Hroot)
    as [-> [(_ & b & Hb & Hgt)|[[Hin Hout]|(_ & [Hnone|(b & Hb & Hgt)])]]].
  - right. left. exists b. split; [done|]. by apply float_gt_spec.
  - right. by right.
  - by left.
  - right. left. exists b. split; [done|]. by apply float_gt_spec.
Qed.

Lemma collapse_postcondition_witness :
  well_formed four_tips ∧
  collapse_polytomies 10 four_tips (1#2)%Q = Ok four_tips_collapsed ∧
  reachable (store four_tips_collapsed) (root four_tips_collapsed) 3 ∧
  3 ≠ root four_tips_collapsed ∧
  (branch_length (store four_tips_collapsed !!! 3) = None ∨
   (∃ b, branch_length (store four_tips_collapsed !!! 3) = Some b ∧
         (1#2 < b)%Q) ∨
   (is_terminal (store four_tips_collapsed) 3 = true ∧
    is_terminal (store four_tips) 3 = false)).
Proof.
  assert (Hwf : well_formed four_tips).
  { apply (check_tree_sound _ (depth_of [0; 1; 2; 2; 1; 2; 2]) (seq 0 7)).
    vm_compute. reflexivity. }
  assert (Hrun : collapse_polytomies 10 four_tips (1#2)%Q
                 = Ok four_tips_collapsed).
  { vm_compute. reflexivity. }
  assert (Hreach : reachable (store four_tips_collapsed)
                             (root four_tips_collapsed) 3).
  { apply (reach_child _ _ 0); [constructor|]. vm_compute.
    constructor. constructor. }
  assert (Hne : 3 ≠ root four_tips_collapsed) by (vm_compute; lia).
  split; [exact Hwf|]. split; [exact Hrun|]. split; [exact Hreach|].
  split; [exact Hne|].
  exact (collapse_postcondition 10 four_tips (1#2)%Q four_tips_collapsed
           Hwf Hrun 3 Hreach Hne).
Defined.

(** C2: the code is not idempotent.  The first run on [four_tips] with
    [minlen = 0.5] leaves the clade of [C] and [D] as a terminal on a branch
    of length 0.05, which the second loop passed by; the second run, with the
    same [minlen], finds it among the terminals and prunes it into the root,
    whose children and name change. *)
Theorem collapse_second_run_changes :
  well_formed four_tips ∧
  collapse_polytomies 10 four_tips (1#2)%Q = Ok four_tips_collapsed ∧
  collapse_polytomies 10 four_tips_collapsed (1#2)%Q = Ok four_tips_twice ∧
  clades (store four_tips_collapsed !!! 0) = [4; 3] ∧
  clades (store four_tips_twice !!! 0) = [3] ∧
  name (store four_tips_collapsed !!! 0) = Some "A" ∧
  name (store four_tips_twice !!! 0) = Some "A|C|D".
Proof.
  split; [apply four_tips_well_formed|]. split; [apply four_tips_run|].
  split; [apply four_tips_rerun|]. by vm_compute.
Qed.

(** When a second run does change nothing: when every terminal of the tree
    that a first run leaves has a defined branch length above [minlen], a
    second run with the same [minlen], given enough fuel, returns that very
    tree: the same clades, with the same children, names and branch
    lengths. *)
Theorem collapse_idempotent fuel t m t1 :
  well_formed t →
  collapse_polytomies fuel t m = Ok t1 →
  (∀ v, reachable (store t1) (root t1) v →
        is_terminal (store t1) v = true →
        ∃ b, branch_length (store t1 !!! v) = Some b ∧ (m < b)%Q) →
  ∃ N, ∀ fuel2, N ≤ fuel2 → collapse_polytomies fuel2 t1 m = Ok t1.
Proof.
  intros Hwf Hrun Htips.
  pose proof Hwf as (depth & Lc & HC).
  destruct (collapse_sound _ _ _ _ _ _ HC Hrun)
    as (Hr & _ & _ & _ & _ & _ & _ & _ & (L2 & HC2 & _)).
  rewrite <- Hr in HC2.
  destruct (traversals_total t1) as [N HN]; [by exists depth, L2|].
  exists N. intros fuel2 Hfuel.
  destruct (HN fuel2 Hfuel) as [[l Hl] [order Horder]].
  eapply (collapse_fixed fuel2 t1 m _ l); [| done | |].
  - unfold get_parents. rewrite Horder. reflexivity.
  - intros v Hv Hterm. apply (preorder_reachable _ _ _ _ Hl) in Hv.
    destruct (Htips v Hv Hterm) as (b & Hb & Hgt). exists b.
    split; [done|]. by apply float_gt_spec.
  - intros v Hv Hterm Hroot. apply (preorder_reachable _ _ _ _ Hl) in Hv.
    destruct (collapse_survivors _ _ _ _ Hwf Hrun v Hv Hroot)
      as [-> [(Hin & _)|[[_ Hout]|(_ & Hlong)]]]; [|congruence|done].
    assert (is_terminal (store t1) v = true); [|congruence].
    pose proof HC as HC0.
    destruct (collapse_sound _ _ _ _ _ _ HC Hrun)
      as (_ & ps & h1 & ps2 & Hps & Hp1 & Hp2 & (L1 & HC1 & _) & _).
    destruct (prune_tips_sound _ _ _ _ _ _ _ _ HC0 Hps Hp1)
      as (_ & _ & Hstay1 & _).
    destruct (splice_nodes_sound _ _ _ _ _ _ _ _ _ HC1 Hp2)
      as (_ & _ & Hstay2 & _).
    apply (tips_stay_terminal h1); [done|].
    by apply (tips_stay_terminal (store t)).
Qed.

Lemma collapse_idempotent_witness :
  well_formed three_tips ∧
  collapse_polytomies 10 three_tips (1#2)%Q = Ok three_tips_collapsed ∧
  (∀ v, reachable (store three_tips_collapsed) (root three_tips_collapsed) v →
        is_terminal (store three_tips_collapsed) v = true →
        ∃ b, branch_length (store three_tips_collapsed !!! v) = Some b ∧
             (1#2 < b)%Q) ∧
  ∃ N, ∀ fuel2, N ≤ fuel2 →
    collapse_polytomies fuel2 three_tips_collapsed (1#2)%Q
    = Ok three_tips_collapsed.
Proof.
  assert (Hwf : well_formed three_tips).
  { apply (check_tree_sound _ (depth_of [0; 1; 2; 2; 1]) (seq 0 5)).
    vm_compute. reflexivity. }
  assert (Hrun : collapse_polytomies 10 three_tips (1#2)%Q
                 = Ok three_tips_collapsed).
  { vm_compute. reflexivity. }
  assert (Htips : ∀ v,
    reachable (store three_tips_collapsed) (root three_tips_collapsed) v →
    is_terminal (store three_tips_collapsed) v = true →
    ∃ b, branch_length (store three_tips_collapsed !!! v) = Some b ∧
         (1#2 < b)%Q).
  { intros v Hv Hterm.
    apply (preorder_reachable 10 _ _ [0; 4; 3]) in Hv;
      [|vm_compute; reflexivity].
    apply elem_of_cons in Hv as [->|Hv]; [vm_compute in Hterm; done|].
    apply elem_of_cons in Hv as [->|Hv].
    { exists (7#10)%Q. split; vm_compute; reflexivity. }
    apply elem_of_cons in Hv as [->|Hv].
    { exists (6#10)%Q. split; vm_compute; reflexivity. }
    by apply elem_of_nil in Hv. }
  split; [exact Hwf|]. split; [exact Hrun|]. split; [exact Htips|].
  exact (collapse_idempotent 10 three_tips (1#2)%Q three_tips_collapsed
           Hwf Hrun Htips).
Defined.

Lemma float_gt_false b m : float_gt b m = false ↔ (b <= m)%Q.
Proof.
  unfold float_gt. rewrite negb_false_iff. apply Qle_bool_iff.
Qed.

(** The comparison of the first loop has no guard for an undefined length. *)
Lemma prune_tip_undefined_length m ps (h : heap) tip :
  branch_length (h !!! tip) = None → prune_tip m ps tip h = Raise TypeError.
Proof. intros Hb. unfold prune_tip. by rewrite Hb. Qed.

(** C3: the code does not treat the undefined length of a tip as zero; the
    comparison [tip.branch_length > minlen] raises a TypeError, here on
    [(A,B);] with [minlen = 0.5], where the claim has the tips folded into
    the root without an error. *)
Theorem collapse_undefined_tip_raises :
  well_formed no_lengths ∧
  is_terminal (store no_lengths) 1 = true ∧
  branch_length (store no_lengths !!! 1) = None ∧
  collapse_polytomies 10 no_lengths (1#2)%Q = Raise TypeError.
Proof.
  split.
  { apply (check_tree_sound _ (depth_of [0; 1; 1]) (seq 0 3)).
    vm_compute. reflexivity. }
  split; [reflexivity|]. split; [reflexivity|]. vm_compute. reflexivity.
Qed.

(** C8: in the first loop, on a well-formed tree, a tip whose branch length
    is defined and not above [minlen] leaves the tree, so also a tip whose
    length equals [minlen], and its name is folded into the name of its
    parent (adopted when the parent has none, joined by a bar otherwise); a
    tip whose length is [minlen + eps] with [eps > 0] stays, as it was.  The
    loop returns, given enough fuel, when every tip has a length and a name
    and the root is not a tip to prune. *)
Theorem prune_tips_threshold fuel t m ps h1 :
  well_formed t →
  get_parents fuel t = Ok ps →
  prune_tips fuel t m ps = Ok h1 →
  (∀ v b, reachable (store t) (root t) v →
     is_terminal (store t) v = true →
     branch_length (store t !!! v) = Some b →
     ((b <= m)%Q → ¬ reachable h1 (root t) v) ∧
     ((b == m)%Q → ¬ reachable h1 (root t) v) ∧
     (∀ eps, (0 < eps)%Q → (b == m + eps)%Q →
        reachable h1 (root t) v ∧ h1 !!! v = store t !!! v)) ∧
  (∀ (h : heap) tip b p cs tn,
     branch_length (h !!! tip) = Some b → (b <= m)%Q →
     ps !! tip = Some p →
     list_remove tip (clades (h !!! p)) = Ok cs →
     name (h !!! tip) = Some tn →
     prune_tip m ps tip h =
     Ok (<[p := set_name (set_clades (h !!! p) cs)
                  (Some (folded_name (name (h !!! p)) tn))]> h)) ∧
  (∀ (h : heap) tip b,
     branch_length (h !!! tip) = Some b → (m < b)%Q →
     prune_tip m ps tip h = Ok h) ∧
  ((∀ v, reachable (store t) (root t) v → is_terminal (store t) v = true →
      ∃ b, branch_length (store t !!! v) = Some b ∧
           is_Some (name (store t !!! v)) ∧
           (v = root t → (m < b)%Q)) →
   ∃ N, ∀ fuel2, N ≤ fuel2 → ∃ h, prune_tips fuel2 t m ps = Ok h).
Proof.
  intros Hwf Hps Hrun. pose proof Hwf as (depth & Lc & HC).
  destruct (prune_tips_sound _ _ _ _ _ _ _ _ HC Hps Hrun)
    as (_ & _ & Hstay & _ & Hfwd).
  split; [|split; [|split]].
  - intros v b Hv Hterm Hb. specialize (Hfwd v Hv). rewrite Hterm in Hfwd.
    destruct Hfwd as (b' & Hb' & Hiff). rewrite Hb in Hb'.
    injection Hb' as <-.
    assert (Hle : (b <= m)%Q → ¬ reachable h1 (root t) v).
    { intros Hle Hr. apply Hiff in Hr. apply float_gt_false in Hle.
      congruence. }
    split; [done|]. split.
    + intros Heq. apply Hle. rewrite Heq. apply Qle_refl.
    + intros eps Heps Heq. split.
      * apply Hiff, float_gt_spec. rewrite Heq.
        rewrite <- (Qplus_0_r m) at 1. by apply Qplus_lt_r.
      * apply Hstay. by apply is_terminal_true.
  - intros h tip b p cs tn Hb Hle Hp Hrm Htn. unfold prune_tip.
    apply float_gt_false in Hle. rewrite Hb, Hle, Hp, Hrm. simpl.
    rewrite lookup_total_insert_eq. simpl.
    assert (Htn' : name (<[p:=set_clades (h !!! p) cs]> h !!! tip) = Some tn).
    { destruct (decide (tip = p)) as [->|Hne].
      - by rewrite lookup_total_insert_eq.
      - by rewrite lookup_total_insert_ne. }
    rewrite Htn'.
    by destruct (name (h !!! p)); rewrite insert_insert_eq.
  - intros h tip b Hb Hlt. unfold prune_tip.
    apply float_gt_spec in Hlt. by rewrite Hb, Hlt.
  - intros Hgood. destruct (traversals_total t Hwf) as [N HN]. exists N.
    intros fuel2 Hfuel. destruct (HN fuel2 Hfuel) as [[l Hl] _].
    apply (prune_tips_returns fuel2 fuel t m ps depth Lc l HC Hps Hl).
    intros v Hv Hterm. destruct (Hgood v Hv Hterm) as (b & Hb & Hn & Hr).
    exists b. split; [done|]. split; [done|]. intros Heq.
    by apply float_gt_spec, Hr.
Qed.

Lemma prune_tips_threshold_witness :
  well_formed four_tips ∧
  get_parents 10 four_tips = Ok four_tips_parents ∧
  prune_tips 10 four_tips (1#2)%Q four_tips_parents = Ok four_tips_pruned ∧
  ¬ reachable four_tips_pruned 0 2 ∧
  (reachable four_tips_pruned 0 3 ∧
   four_tips_pruned !!! 3 = store four_tips !!! 3) ∧
  prune_tip (1#2)%Q four_tips_parents 2 (store four_tips) =
  Ok (<[1 := inner_clade (Some "A") (Some (3#10)%Q) [3]]> (store four_tips)).
Proof.
  assert (Hwf : well_formed four_tips).
  { apply (check_tree_sound _ (depth_of [0; 1; 2; 2; 1; 2; 2]) (seq 0 7)).
    vm_compute. reflexivity. }
  assert (Hps : get_parents 10 four_tips = Ok four_tips_parents).
  { vm_compute. reflexivity. }
  assert (Hrun : prune_tips 10 four_tips (1#2)%Q four_tips_parents
                 = Ok four_tips_pruned).
  { vm_compute. reflexivity. }
  destruct (prune_tips_threshold 10 four_tips (1#2)%Q four_tips_parents
              four_tips_pruned Hwf Hps Hrun) as (Hpass & Hfold & _).
  split; [exact Hwf|]. split; [exact Hps|]. split; [exact Hrun|].
  split; [|split].
  - destruct (Hpass 2 0%Q) as (Hle & _ & _);
      [| reflexivity | reflexivity | apply Hle; by vm_compute ].
    apply (reach_child _ _ 1); [apply (reach_child _ _ 0); [constructor|]|];
      vm_compute; repeat constructor.
  - destruct (Hpass 3 (6#10)%Q) as (_ & _ & Hgt);
      [| reflexivity | reflexivity
       | apply (Hgt (1#10)%Q); reflexivity ].
    apply (reach_child _ _ 1); [apply (reach_child _ _ 0); [constructor|]|];
      vm_compute; repeat constructor.
  - apply (Hfold (store four_tips) 2 0%Q 1 [3] "A");
      [ reflexivity | by vm_compute | reflexivity
      | reflexivity | reflexivity ].
Defined.

(** C4: in the second loop, on what the first loop leaves of a well-formed
    tree, a node with children leaves the tree exactly when its branch
    length is defined and not above [minlen] and it is not the root; the
    root always stays, and so does a node with an undefined length.  The
    node that leaves hands its children to its parent, which the parent
    index then gives as their parent, and a name that it carries is folded
    into the name of the parent.  Given enough fuel the loop returns: it
    raises nothing. *)
Theorem splice_nodes_spec fuel t m ps h1 h2 ps2 :
  well_formed t →
  get_parents fuel t = Ok ps →
  prune_tips fuel t m ps = Ok h1 →
  splice_nodes fuel (mkTree h1 (root t)) m ps = Ok (h2, ps2) →
  (∀ v, reachable h1 (root t) v → is_terminal h1 v = false →
     (¬ reachable h2 (root t) v ↔
      (∃ b, branch_length (h1 !!! v) = Some b ∧ (b <= m)%Q) ∧ v ≠ root t)) ∧
  reachable h2 (root t) (root t) ∧
  (∀ (h : heap) (ps : gmap nat nat) node b p cs,
     branch_length (h !!! node) = Some b → (b <= m)%Q → node ≠ root t →
     ps !! node = Some p → node ≠ p →
     list_remove node (clades (h !!! p)) = Ok cs →
     splice_node m (root t) node (h, ps) =
     Ok (<[p := set_name
                  (set_clades (h !!! p) (cs ++ clades (h !!! node)))
                  (match truthy_name (name (h !!! node)) with
                   | Some nn => Some (folded_name (name (h !!! p)) nn)
                   | None => name (h !!! p)
                   end)]> h,
         index_children p (clades (h !!! node)) ps) ∧
     ∀ c, c ∈ clades (h !!! node) →
          index_children p (clades (h !!! node)) ps !! c = Some p) ∧
  (∀ (h : heap) (ps : gmap nat nat) node,
     branch_length (h !!! node) = None ∨ node = root t ∨
     (∃ b, branch_length (h !!! node) = Some b ∧ (m < b)%Q) →
     splice_node m (root t) node (h, ps) = Ok (h, ps)) ∧
  (∃ N, ∀ fuel2, N ≤ fuel2 →
     ∃ st, splice_nodes fuel2 (mkTree h1 (root t)) m ps = Ok st).
Proof.
  intros (depth & Lc & HC) Hps Hp1 Hp2.
  destruct (prune_tips_sound _ _ _ _ _ _ _ _ HC Hps Hp1)
    as ((L1 & HC1 & _) & _).
  destruct (splice_nodes_sound _ _ _ _ _ _ _ _ _ HC1 Hp2)
    as (_ & _ & _ & _ & Hfwd).
  split; [|split; [constructor|split; [|split]]].
  - intros v Hv Hterm. rewrite (Hfwd v Hv), Hterm. split.
    + intros Hnot. destruct (decide (v = root t)) as [->|Hne].
      { destruct Hnot. right. by left. }
      split; [|done].
      destruct (branch_length (h1 !!! v)) as [b|] eqn:Hb.
      * exists b. split; [done|]. apply float_gt_false.
        destruct (float_gt b m) eqn:Hgt; [|done].
        destruct Hnot. right. right. right. by exists b.
      * destruct Hnot. right. right. by left.
    + intros [(b & Hb & Hle) Hne] [?|[?|[Hnone|(b' & Hb' & Hgt)]]];
        [done|done|congruence|].
      rewrite Hb in Hb'. injection Hb' as <-.
      apply float_gt_false in Hle. congruence.
  - intros h ps' node b p cs Hb Hle Hroot Hp Hnp Hrm. split.
    + unfold splice_node. apply float_gt_false in Hle.
      rewrite Hb, Hle, Hp, Hrm. rewrite bool_decide_eq_false_2 by done.
      simpl. rewrite !lookup_total_insert_eq. simpl.
      rewrite insert_insert_eq. rewrite !lookup_total_insert_ne by done.
      destruct (truthy_name (name (h !!! node))) as [nn|].
      * by destruct (name (h !!! p)); rewrite insert_insert_eq.
      * by destruct (h !!! p).
    + intros c Hc. rewrite index_children_lookup. by rewrite decide_True.
  - intros h ps' node Hskip. unfold splice_node.
    destruct (branch_length (h !!! node)) as [b|] eqn:Hb; [|done].
    destruct Hskip as [?|[->|(b' & [= <-] & Hlt)]]; [done| |].
    + rewrite bool_decide_eq_true_2 by done. by rewrite orb_true_r.
    + apply float_gt_spec in Hlt. by rewrite Hlt.
  - destruct (traversals_total (mkTree h1 (root t))) as [N HN].
    { exists depth, L1. by apply (collapsing_cert _ _ _ ps _ ∅). }
    exists N. intros fuel2 Hfuel. destruct (HN fuel2 Hfuel) as [[l1 Hl1] _].
    by apply (splice_nodes_returns fuel2 (root t) m depth h1 ps L1 l1).
Qed.

Lemma splice_nodes_spec_witness :
  well_formed four_tips ∧
  get_parents 10 four_tips = Ok four_tips_parents ∧
  prune_tips 10 four_tips (1#2)%Q four_tips_parents = Ok four_tips_pruned ∧
  splice_nodes 10 (mkTree four_tips_pruned 0) (1#2)%Q four_tips_parents =
    Ok (store four_tips_collapsed, <[3 := 0]> four_tips_parents) ∧
  ¬ reachable (store four_tips_collapsed) 0 1 ∧
  reachable (store four_tips_collapsed) 0 0 ∧
  splice_node (1#2)%Q 0 1 (four_tips_pruned, four_tips_parents) =
    Ok (store four_tips_collapsed, <[3 := 0]> four_tips_parents).
Proof.
  assert (Hwf : well_formed four_tips).
  { apply (check_tree_sound _ (depth_of [0; 1; 2; 2; 1; 2; 2]) (seq 0 7)).
    vm_compute. reflexivity. }
  assert (Hps : get_parents 10 four_tips = Ok four_tips_parents).
  { vm_compute. reflexivity. }
  assert (Hp1 : prune_tips 10 four_tips (1#2)%Q four_tips_parents
                = Ok four_tips_pruned).
  { vm_compute. reflexivity. }
  assert (Hp2 : splice_nodes 10 (mkTree four_tips_pruned 0) (1#2)%Q
                  four_tips_parents
                = Ok (store four_tips_collapsed, <[3 := 0]> four_tips_parents)).
  { vm_compute. reflexivity. }
  destruct (splice_nodes_spec 10 four_tips (1#2)%Q four_tips_parents
              four_tips_pruned (store four_tips_collapsed)
              (<[3 := 0]> four_tips_parents) Hwf Hps Hp1 Hp2)
    as (Hiff & Hroot & Hstep & _).
  split; [exact Hwf|]. split; [exact Hps|]. split; [exact Hp1|].
  split; [exact Hp2|]. split; [|split; [exact Hroot|]].
  - apply (Hiff 1).
    + apply (reach_child _ _ 0); [constructor|]. vm_compute.
      repeat constructor.
    + reflexivity.
    + split; [|vm_compute; lia]. exists (3#10)%Q.
      split; [reflexivity|by vm_compute].
  - destruct (Hstep four_tips_pruned four_tips_parents 1 (3#10)%Q 0 [4])
      as [Heq _];
      [ reflexivity | by vm_compute | vm_compute; lia
      | reflexivity | lia | reflexivity | ].
    etransitivity; [exact Heq|]. vm_compute. reflexivity.
Defined.

(** * The claims about annotate_tree *)

(** C6: the code does not treat an internal node whose name is the empty
    string as unsampled.  It tests [node.name is None] where the second loop
    of [collapse_polytomies] tests [if node.name:], so on [empty_name], whose
    root is an internal node named by the empty string, it splits the name
    into one empty identifier, which the table does not have, and raises
    KeyError where the claim has [labels = []] without an error.  The code
    itself gives the empty string for name to the unsampled nodes: on
    [bar_tip] it returns a tree whose root has the empty name and no labels,
    and a second call on that tree raises KeyError. *)
Theorem annotate_empty_name_raises :
  (well_formed empty_name ∧
   is_terminal (store empty_name) 0 = false ∧
   name (store empty_name !!! 0) = Some EmptyString ∧
   (annotate_tree 10 empty_name four_labels (1#2)%Q false).2
     = Raise KeyError) ∧
  (well_formed bar_tip ∧
   ∃ t1, (annotate_tree 10 bar_tip four_labels (1#2)%Q false).2 = Ok t1 ∧
     is_terminal (store t1) (root t1) = false ∧
     name (store t1 !!! root t1) = Some EmptyString ∧
     labels (store t1 !!! root t1) = Some [] ∧
     (annotate_tree 10 t1 four_labels (1#2)%Q false).2 = Raise KeyError).
Proof.
  split.
  - split.
    { apply (check_tree_sound _ (depth_of [0; 1; 1]) (seq 0 3)).
      vm_compute. reflexivity. }
    split; [reflexivity|]. split; [reflexivity|]. vm_compute. reflexivity.
  - split.
    { apply (check_tree_sound _ (depth_of [0; 1; 1]) (seq 0 3)).
      vm_compute. reflexivity. }
    eexists. split; [vm_compute; reflexivity|].
    split; [reflexivity|]. split; [reflexivity|]. split; [reflexivity|].
    vm_compute. reflexivity.
Qed.

(** What the code does for the internal nodes: when [annotate_tree] returns
    on a well-formed tree, every internal node of the collapsed tree without
    a name (None) has [labels = []] and the empty string for its name, and
    every internal node with a name, the empty one too, has the
    concatenation of the label lists of the identifiers between the bars of
    its name; on a node without a name the body of the loop raises
    nothing. *)
Theorem annotate_internal_nodes fuel t d m cb t' :
  well_formed t →
  (annotate_tree fuel t d m cb).2 = Ok t' →
  (∃ tc, collapse_polytomies fuel t m = Ok tc ∧
     ∀ v, reachable (store tc) (root tc) v →
       is_terminal (store tc) v = false →
       (name (store tc !!! v) = None →
        labels (store t' !!! v) = Some [] ∧
        name (store t' !!! v) = Some EmptyString) ∧
       (∀ n, name (store tc !!! v) = Some n →
          ∃ lss, Forall2 (λ k ls, d !! k = Some ls) (split_bar n) lss ∧
                 labels (store t' !!! v) = Some (concat lss))) ∧
  (∀ (h : heap) node,
     name (h !!! node) = None →
     annotate_node d node h =
     Ok (<[node := set_name (set_labels (h !!! node) []) (Some EmptyString)]> h)).
Proof.
  intros Hwf H. rewrite annotate_tree_result in H.
  destruct (annotate_collapsed_inv _ _ _ _ _ Hwf H) as (tc & Hc & _ & Hall).
  split.
  - exists tc. split; [done|]. intros v Hv Hterm.
    specialize (Hall v Hv). unfold annotated in Hall. split.
    + intros Hn. rewrite Hn in Hall. by destruct Hall as [_ ->].
    + intros n Hn. rewrite Hn in Hall. destruct Hall as (ls & Hls & ->).
      apply extend_labels_inv in Hls as (lss & Hlss & ->). by exists lss.
  - intros h node Hn. unfold annotate_node. by rewrite Hn.
Qed.

Lemma annotate_internal_nodes_witness :
  well_formed four_tips ∧
  ∃ t', (annotate_tree 10 four_tips four_labels (1#2)%Q false).2 = Ok t' ∧
    labels (store t' !!! 0) =
      Some ["A|acc1|r|c|2021-01-01"; "A2|acc0|r|c|2021-01-03"].
Proof.
  assert (Hwf : well_formed four_tips).
  { apply (check_tree_sound _ (depth_of [0; 1; 2; 2; 1; 2; 2]) (seq 0 7)).
    vm_compute. reflexivity. }
  split; [exact Hwf|].
  destruct (annotate_tree 10 four_tips four_labels (1#2)%Q false).2
    as [t'|e] eqn:Hrun; [|vm_compute in Hrun; discriminate Hrun].
  exists t'. split; [reflexivity|].
  destruct (annotate_internal_nodes 10 four_tips four_labels (1#2)%Q false t'
              Hwf Hrun) as [(tc & Hc & Hall) _].
  assert (Htc : tc = four_tips_collapsed).
  { vm_compute in Hc. injection Hc as <-. vm_compute. reflexivity. }
  subst tc.
  destruct (Hall 0) as [_ Hnamed]; [constructor|reflexivity|].
  destruct (Hnamed "A") as (lss & Hlss & ->); [reflexivity|].
  vm_compute in Hlss.
  apply Forall2_cons_inv_l in Hlss as (ls & lss' & Hls & Hnil & ->).
  apply Forall2_nil_inv_l in Hnil as ->.
  vm_compute in Hls. injection Hls as <-. reflexivity.
Defined.

(** The mismatch report is a soft failure: on [bar_tip] the tip name [A|B] is
    not a key of the table, the callback gets the four messages, and the
    annotation goes on and returns a tree. *)
Lemma annotate_mismatch_continues :
  ∃ msgs t',
    annotate_tree 10 bar_tip four_labels (1#2)%Q true = (msgs, Ok t') ∧
    length msgs = 4 ∧
    labels (store t' !!! 1) =
      Some ["A|acc1|r|c|2021-01-01"; "A2|acc0|r|c|2021-01-03";
            "B|acc2|r|c|2021-02-01"].
Proof.
  eexists _, _. split; [vm_compute; reflexivity|].
  split; vm_compute; reflexivity.
Qed.

(** C7: the validation raises nothing, whatever it finds: the result of
    [annotate_tree] is that of the steps after it, and the callback, when
    there is one, gets the report.  After it, the lookup of an identifier
    that the table does not have raises KeyError in the body of either loop,
    so that [annotate_tree] returns no tree when a name of the collapsed tree
    has such an identifier. *)
Theorem annotate_missing_label fuel t d m cb tc :
  well_formed t →
  collapse_polytomies fuel t m = Ok tc →
  (annotate_tree fuel t d m cb).2 = annotate_collapsed fuel t d m ∧
  (∀ tips, get_terminals fuel t = Ok tips →
     (annotate_tree fuel t d m cb).1 =
     validate ((λ tip, name (store t !!! tip)) <$> tips) d cb) ∧
  (∀ (h : heap) tip n k,
     name (h !!! tip) = Some n → k ∈ split_bar n → d !! k = None →
     annotate_tip d tip h = Raise KeyError) ∧
  (∀ (h : heap) node n k,
     name (h !!! node) = Some n → k ∈ split_bar n → d !! k = None →
     annotate_node d node h = Raise KeyError) ∧
  (∀ v n k,
     reachable (store tc) (root tc) v → name (store tc !!! v) = Some n →
     k ∈ split_bar n → d !! k = None →
     ∃ e, (annotate_tree fuel t d m cb).2 = Raise e).
Proof.
  intros Hwf Hc. split; [apply annotate_tree_result|]. split; [|split; [|split]].
  - intros tips Htips. unfold annotate_tree. by rewrite Htips.
  - intros h tip n k Hn Hk Hnone. rewrite (annotate_tip_spec d tip h n Hn).
    by rewrite (extend_labels_missing d _ k Hk Hnone).
  - intros h node n k Hn Hk Hnone. unfold annotate_node. rewrite Hn.
    by rewrite (extend_labels_missing d _ k Hk Hnone).
  - intros v n k Hv Hn Hk Hnone. rewrite annotate_tree_result.
    destruct (annotate_collapsed fuel t d m) as [t'|e] eqn:H; [|by exists e].
    destruct (annotate_collapsed_inv _ _ _ _ _ Hwf H) as (tc' & Hc' & _ & Hall).
    rewrite Hc in Hc'. injection Hc' as <-.
    specialize (Hall v Hv). unfold annotated in Hall. rewrite Hn in Hall.
    destruct Hall as (ls & Hls & _).
    by rewrite (extend_labels_missing d _ k Hk Hnone) in Hls.
Qed.

Lemma annotate_missing_label_witness :
  well_formed four_tips ∧
  collapse_polytomies 10 four_tips (1#2)%Q = Ok four_tips_collapsed ∧
  three_labels !! "B" = None ∧
  (annotate_tree 10 four_tips three_labels (1#2)%Q true).1 ≠ [] ∧
  ∃ e, (annotate_tree 10 four_tips three_labels (1#2)%Q true).2 = Raise e.
Proof.
  assert (Hwf : well_formed four_tips).
  { apply (check_tree_sound _ (depth_of [0; 1; 2; 2; 1; 2; 2]) (seq 0 7)).
    vm_compute. reflexivity. }
  assert (Hc : collapse_polytomies 10 four_tips (1#2)%Q
               = Ok four_tips_collapsed).
  { vm_compute. reflexivity. }
  destruct (annotate_missing_label 10 four_tips three_labels (1#2)%Q true
              four_tips_collapsed Hwf Hc) as (_ & _ & _ & _ & Hfail).
  split; [exact Hwf|]. split; [exact Hc|]. split; [reflexivity|].
  split; [by vm_compute|].
  apply (Hfail 3 "B" "B").
  - apply (reach_child _ _ 0); [constructor|]. vm_compute.
    repeat constructor.
  - reflexivity.
  - vm_compute. repeat constructor.
  - reflexivity.
Defined.

(** * The claims about serialize_tree *)

Lemma earliest_accession_inv intermed acc :
  earliest_accession intermed = Ok acc →
  ∃ first rest, intermed = first :: rest ∧ first !! 3 = Some acc.
Proof.
  unfold earliest_accession. destruct intermed as [|first rest]; [done|].
  destruct (first !! 3) as [a|] eqn:Hf; [|done]. intros [= <-]. eauto.
Qed.

(** C5: for a node of the annotated tree with labels, the rows are the
    labels split at the bars and reversed, in ascending order; the fourth
    field of the first row is the identifier that the node gets, and the
    body of the loop records all the rows under it.  The two labels of the spec give
    [acc1] and the rows of 2021-01-01 and 2021-02-01, in this order. *)
Theorem serialize_sampled_variant fuel t s node ls :
  well_formed t →
  serialize_loop fuel t = Ok s →
  reachable (store t) (root t) node →
  labels (store t !!! node) = Some ls → ls ≠ [] →
  sorted_samples ls ≡ₚ (λ label, reverse (split_bar label)) <$> ls ∧
  Sorted row_le (sorted_samples ls) ∧
  (∃ first rest acc,
     sorted_samples ls = first :: rest ∧ first !! 3 = Some acc ∧
     variant_d s !! node = Some acc ∧
     (∀ count,
        assign_variant ls count = Ok (acc, sorted_samples ls, count)) ∧
     ∀ ps s0 s1,
       serialize_node (store t) (root t) ps node s0 = Ok s1 →
       variant_d s1 !! node = Some acc ∧
       nodes (obj s1) !! acc = Some (sorted_samples ls)) ∧
  sorted_samples ["B|acc2|r|c|2021-02-01"; "A|acc1|r|c|2021-01-01"] =
    [ ["2021-01-01"; "c"; "r"; "acc1"; "A"];
      ["2021-02-01"; "c"; "r"; "acc2"; "B"] ] ∧
  earliest_accession
    (sorted_samples ["B|acc2|r|c|2021-02-01"; "A|acc1|r|c|2021-01-01"]) =
    Ok "acc1".
Proof.
  intros Hwf Hrun Hnode Hls Hne.
  split; [apply sort_rows_perm|]. split; [apply sort_rows_sorted|].
  split; [|split; reflexivity].
  destruct (serialize_loop_sound _ _ _ Hwf Hrun)
    as (order & _ & _ & Hreach & HS).
  destruct (ser_sampled _ _ _ _ HS node ls) as (acc & Hacc & Hv);
    [by apply Hreach|done|done|].
  destruct (earliest_accession_inv _ _ Hacc) as (first & rest & Hsort & Hf).
  exists first, rest, acc. do 3 (split; [done|]). split.
  { intros count. unfold assign_variant. destruct ls as [|l ls']; [done|].
    by rewrite Hacc. }
  intros ps s0 s1 Hstep.
  apply serialize_node_inv in Hstep
    as (ls' & variant & payload & Hls' & Hvar & _ & Hvd & Hnodes & _).
  rewrite Hls in Hls'. injection Hls' as <-.
  apply assign_variant_inv in Hvar as [(-> & _)|(_ & Hacc' & -> & _)]; [done|].
  rewrite Hacc in Hacc'. injection Hacc' as <-.
  by rewrite Hvd, Hnodes, !lookup_insert_eq.
Qed.

Lemma serialize_sampled_variant_witness :
  well_formed two_samples ∧
  ∃ s, serialize_loop 10 two_samples = Ok s ∧
    variant_d s !! 0 = Some "acc1" ∧
    serialize_tree 10 two_samples =
    Ok (mkGraph {[ "acc1" := [ ["2021-01-01"; "c"; "r"; "acc1"; "A"];
                               ["2021-02-01"; "c"; "r"; "acc2"; "B"] ] ]}
                []).
Proof.
  assert (Hwf : well_formed two_samples).
  { apply (check_tree_sound _ (depth_of [0]) (seq 0 1)).
    vm_compute. reflexivity. }
  split; [exact Hwf|].
  destruct (serialize_loop 10 two_samples) as [s|e] eqn:Hrun;
    [|vm_compute in Hrun; discriminate Hrun].
  exists s. split; [reflexivity|].
  destruct (serialize_sampled_variant 10 two_samples s 0
              ["B|acc2|r|c|2021-02-01"; "A|acc1|r|c|2021-01-01"] Hwf Hrun)
    as (_ & _ & (first & rest & acc & Hsort & Hacc & Hv & _ & _) & _);
    [constructor|reflexivity|discriminate|].
  vm_compute in Hsort. injection Hsort as <- <-.
  vm_compute in Hacc. injection Hacc as <-.
  split; [exact Hv|]. vm_compute. reflexivity.
Defined.

(** C9: a node without labels gets, for identifier, "unsampled" followed
    by the number of such nodes before it in level order; the count starts
    at zero and grows by one at every such node.  When the level order has
    three of them, they are unsampled0, unsampled1 and unsampled2, in this
    order. *)
Theorem unsampled_numbering fuel t s :
  well_formed t →
  serialize_loop fuel t = Ok s →
  ∃ order, find_clades_level fuel t = Ok order ∧
    us_count s = length (filter (unsampled (store t)) order) ∧
    (∀ k node,
       filter (unsampled (store t)) order !! k = Some node →
       variant_d s !! node = Some ("unsampled" +:+ str_nat k)) ∧
    (∀ n0 n1 n2,
       filter (unsampled (store t)) order = [n0; n1; n2] →
       variant_d s !! n0 = Some "unsampled0" ∧
       variant_d s !! n1 = Some "unsampled1" ∧
       variant_d s !! n2 = Some "unsampled2").
Proof.
  intros Hwf Hrun.
  destruct (serialize_loop_sound _ _ _ Hwf Hrun)
    as (order & Horder & _ & _ & HS).
  exists order. split; [done|]. split; [apply HS|].
  split; [apply HS|]. intros n0 n1 n2 Hthree.
  pose proof (ser_unsampled _ _ _ _ HS) as Hk. rewrite Hthree in Hk.
  split; [exact (Hk 0 n0 eq_refl)|].
  split; [exact (Hk 1 n1 eq_refl)|exact (Hk 2 n2 eq_refl)].
Qed.

Lemma unsampled_numbering_witness :
  well_formed three_unsampled ∧
  ∃ s, serialize_loop 10 three_unsampled = Ok s ∧
    find_clades_level 10 three_unsampled = Ok [0; 1; 2; 3; 4] ∧
    filter (unsampled (store three_unsampled)) [0; 1; 2; 3; 4] = [0; 1; 2] ∧
    variant_d s !! 0 = Some "unsampled0" ∧
    variant_d s !! 1 = Some "unsampled1" ∧
    variant_d s !! 2 = Some "unsampled2".
Proof.
  assert (Hwf : well_formed three_unsampled).
  { apply (check_tree_sound _ (depth_of [0; 1; 1; 2; 2]) (seq 0 5)).
    vm_compute. reflexivity. }
  split; [exact Hwf|].
  destruct (serialize_loop 10 three_unsampled) as [s|e] eqn:Hrun;
    [|vm_compute in Hrun; discriminate Hrun].
  exists s. split; [reflexivity|].
  destruct (unsampled_numbering 10 three_unsampled s Hwf Hrun)
    as (order & Horder & _ & _ & Hthree).
  assert (Hlevel : find_clades_level 10 three_unsampled = Ok [0; 1; 2; 3; 4])
    by (vm_compute; reflexivity).
  assert (Hfilter : filter (unsampled (store three_unsampled)) [0; 1; 2; 3; 4]
                    = [0; 1; 2]) by (vm_compute; reflexivity).
  split; [exact Hlevel|]. split; [exact Hfilter|].
  rewrite Hlevel in Horder. injection Horder as <-.
  exact (Hthree 0 1 2 Hfilter).
Defined.

(** C10: the node map is keyed by identifier alone.  When two nodes of the
    tree get the same identifier, the map holds the samples of the one that
    comes last in level order, it has fewer entries than the tree has nodes,
    and every node but the root still has an edge with its identifier at the
    child end. *)
Theorem serialize_shared_variant fuel t s :
  well_formed t →
  serialize_loop fuel t = Ok s →
  serialize_tree fuel t = Ok (obj s) ∧
  ∃ order, find_clades_level fuel t = Ok order ∧
    (∀ l1 n1 l2 n2 l3 v,
       order = l1 ++ n1 :: l2 ++ n2 :: l3 →
       variant_d s !! n1 = Some v → variant_d s !! n2 = Some v →
       (∀ n', n' ∈ l3 → variant_d s !! n' ≠ Some v) →
       nodes (obj s) !! v = Some (payload_of (store t) n2) ∧
       size (nodes (obj s)) < length order) ∧
    (∀ node, node ∈ order → node ≠ root t →
       ∃ v pv b c, variant_d s !! node = Some v ∧
                   (pv, v, b, c) ∈ edges (obj s)).
Proof.
  intros Hwf Hrun. split; [unfold serialize_tree; by rewrite Hrun|].
  destruct (serialize_loop_sound _ _ _ Hwf Hrun)
    as (order & Horder & Hnd & _ & HS).
  exists order. split; [done|]. split.
  - intros l1 n1 l2 n2 l3 v Hsplit Hv1 Hv2 Hafter.
    assert (Hin1 : n1 ∈ order).
    { rewrite Hsplit. apply elem_of_app. right. apply elem_of_cons. by left. }
    assert (Hin2 : n2 ∈ order).
    { rewrite Hsplit. apply elem_of_app. right. apply elem_of_cons. right.
      apply elem_of_app. right. apply elem_of_cons. by left. }
    assert (Hne : n1 ≠ n2).
    { intros <-. rewrite Hsplit in Hnd.
      apply NoDup_app in Hnd as (_ & _ & Hnd).
      apply NoDup_cons in Hnd as [Hn1 _]. apply Hn1, elem_of_app. right.
      apply elem_of_cons. by left. }
    split; [|by apply (serialized_collision _ _ _ _ n1 n2 v HS)].
    destruct (ser_last _ _ _ _ HS n2 v Hv2)
      as (k1 & last & k2 & Hsplit' & Hlast & Hpay & Hafter').
    assert (last = n2) as ->; [|done].
    destruct (decide (last = n2)) as [?|Hdiff]; [done|]. exfalso.
    assert (Hn2_in : n2 ∈ k1 ++ last :: k2) by (by rewrite <- Hsplit').
    apply elem_of_app in Hn2_in as [Hn|Hn].
    + apply list_elem_of_split in Hn as (a1 & a2 & ->).
      assert (Heq : (l1 ++ n1 :: l2) ++ n2 :: l3
                    = a1 ++ n2 :: (a2 ++ last :: k2)).
      { rewrite <- app_assoc. simpl. rewrite <- Hsplit.
        rewrite Hsplit'. by rewrite <- app_assoc. }
      apply NoDup_split_unique in Heq as [_ ->].
      * apply (Hafter last); [|done]. apply elem_of_app. right.
        apply elem_of_cons. by left.
      * rewrite <- app_assoc. simpl. by rewrite <- Hsplit.
    + apply elem_of_cons in Hn as [?|Hn]; [done|]. by apply Hafter' in Hn.
  - intros node Hnode Hr. destruct (ser_all _ _ _ _ HS node Hnode) as [v Hv].
    destruct (ser_edges _ _ _ _ HS node v Hnode Hr Hv) as (pv & b & c & He).
    by exists v, pv, b, c.
Qed.


Lemma serialize_shared_variant_witness :
  well_formed shared_accession ∧
  ∃ s, serialize_loop 10 shared_accession = Ok s ∧
    variant_d s !! 0 = Some "acc1" ∧
    variant_d s !! 1 = Some "acc1" ∧
    nodes (obj s) !! "acc1" =
      Some [ ["2020-12-31"; "c"; "r"; "acc1"; "Z"];
             ["2021-03-01"; "c"; "r"; "acc9"; "Y"] ] ∧
    size (nodes (obj s)) < 3 ∧
    edges (obj s) =
      [ ("acc1", "acc1", (60#100)%Q, None);
        ("acc1", "acc2", (70#100)%Q, None) ].
Proof.
  assert (Hwf : well_formed shared_accession).
  { apply (check_tree_sound _ (depth_of [0; 1; 1]) (seq 0 3)).
    vm_compute. reflexivity. }
  split; [exact Hwf|].
  destruct (serialize_loop 10 shared_accession) as [s|e] eqn:Hrun;
    [|vm_compute in Hrun; discriminate Hrun].
  exists s. split; [reflexivity|].
  assert (Hv0 : variant_d s !! 0 = Some "acc1").
  { pose proof Hrun as H. vm_compute in H. injection H as <-. reflexivity. }
  assert (Hv1 : variant_d s !! 1 = Some "acc1").
  { pose proof Hrun as H. vm_compute in H. injection H as <-. reflexivity. }
  assert (Hv2 : ∀ n', n' ∈ [2] → variant_d s !! n' ≠ Some "acc1").
  { intros n' Hn'. apply list_elem_of_singleton in Hn' as ->.
    pose proof Hrun as H. vm_compute in H. injection H as <-. by vm_compute. }
  assert (He : edges (obj s) =
            [ ("acc1", "acc1", (60#100)%Q, None);
              ("acc1", "acc2", (70#100)%Q, None) ]).
  { pose proof Hrun as H. vm_compute in H. injection H as <-. reflexivity. }
  destruct (serialize_shared_variant 10 shared_accession s Hwf Hrun)
    as (_ & order & Horder & Hlast & _).
  assert (Hlevel : find_clades_level 10 shared_accession = Ok [0; 1; 2])
    by (vm_compute; reflexivity).
  rewrite Hlevel in Horder. injection Horder as <-.
  destruct (Hlast [] 0 [] 1 [2] "acc1" eq_refl Hv0 Hv1 Hv2) as [Hpay Hsize].
  split; [exact Hv0|]. split; [exact Hv1|]. split; [exact Hpay|].
  split; [exact Hsize|exact He].
Defined.

(** * More of the code: parse_labels *)

(** X1: when [parse_labels] returns, the table has, under every index that a
    row carries, the names of the rows with that index, in the order of the
    file, and no entry for any other index. *)
Theorem parse_labels_groups {V : Type} `{Countable V}
    (rows : list (gmap string V)) (d : gmap V (list V)) :
  parse_labels rows = Ok d →
  (∀ k, d !! k = if decide (names_with_index k rows = []) then None
                 else Some (names_with_index k rows)) ∧
  (∀ k, is_Some (d !! k) ↔ ∃ row, row ∈ rows ∧ row !! "index" = Some k).
Proof.
  intros Hrun. pose proof (parse_labels_lookup rows d Hrun) as Hlookup.
  split; [done|]. intros k. rewrite Hlookup. split.
  - destruct (decide (names_with_index k rows = [])) as [|Hne];
      [by intros [? ?]|]. intros _.
    destruct (names_with_index k rows) as [|nm l] eqn:Hnames; [done|].
    assert (Hin : nm ∈ names_with_index k rows)
      by (rewrite Hnames; apply elem_of_cons; by left).
    apply elem_of_names_with_index in Hin as (row & Hrow & Hi & _).
    by exists row.
  - intros (row & Hrow & Hi).
    pose proof (parse_labels_rows rows d Hrun) as Hall.
    rewrite Forall_forall in Hall. destruct (Hall row Hrow) as [_ [nm Hnm]].
    rewrite decide_False; [eauto|]. intros Hnil.
    assert (Hin : nm ∈ names_with_index k rows).
    { apply elem_of_names_with_index. by exists row. }
    rewrite Hnil in Hin. by apply elem_of_nil in Hin.
Qed.

Lemma parse_labels_groups_witness :
  parse_labels label_rows = Ok label_table ∧
  (∀ k, label_table !! k =
        if decide (names_with_index k label_rows = []) then None
        else Some (names_with_index k label_rows)) ∧
  (∀ k, is_Some (label_table !! k) ↔
        ∃ row, row ∈ label_rows ∧ row !! "index" = Some k).
Proof.
  assert (Hrun : parse_labels label_rows = Ok label_table)
    by (vm_compute; reflexivity).
  split; [exact Hrun|].
  exact (parse_labels_groups label_rows label_table Hrun).
Defined.

(** X2: [parse_labels] fails only with a KeyError, and it fails exactly when
    some row lacks the column [index] or the column [name]. *)
Theorem parse_labels_key_error {V : Type} `{Countable V}
    (rows : list (gmap string V)) (e : exn) :
  parse_labels rows = Raise e ↔
  e = KeyError ∧
  Exists (λ row, row !! "index" = None ∨ row !! "name" = None) rows.
Proof.
  unfold parse_labels. generalize (∅ : gmap V (list V)).
  induction rows as [|row rows IH]; intros d; simpl.
  - split; [done|]. intros [_ Hex]. by apply Exists_nil in Hex.
  - destruct (parse_row row d) as [d'|e'] eqn:Hrow; simpl.
    + destruct (parse_row_inv _ _ _ Hrow) as (idx & nm & Hi & Hn & _).
      rewrite IH. rewrite Exists_cons. rewrite Hi, Hn.
      split; [intros [-> Hex]; auto|].
      intros [-> [[?|?]|Hex]]; [done|done|auto].
    + destruct (parse_row_Raise _ _ _ Hrow) as [-> Hmiss].
      split.
      * intros [= <-]. split; [done|]. by apply Exists_cons_hd.
      * by intros [-> _].
Qed.

(** X3: the table that [parse_labels] returns holds as many names as the
    file has rows: every row is filed once. *)
Theorem parse_labels_count {V : Type} `{Countable V}
    (rows : list (gmap string V)) (d : gmap V (list V)) :
  parse_labels rows = Ok d → label_count d = length rows.
Proof.
  unfold parse_labels. intros Hrun.
  apply (for_each_inv
           (λ done (d : gmap V (list V)), label_count d = length done)
           _ _ _ _ Hrun).
  - unfold label_count. by rewrite map_fold_empty.
  - intros done row d1 d2 _ IH Hstep.
    destruct (parse_row_inv _ _ _ Hstep) as (idx & nm & Hi & Hn & ->).
    pose proof (label_count_insert d1 idx (default [] (d1 !! idx) ++ [nm]))
      as Hc.
    rewrite !length_app in *. simpl in *. lia.
Qed.

Lemma parse_labels_count_witness :
  parse_labels label_rows = Ok label_table ∧
  label_count label_table = length label_rows.
Proof.
  assert (Hrun : parse_labels label_rows = Ok label_table)
    by (vm_compute; reflexivity).
  split; [exact Hrun|].
  exact (parse_labels_count label_rows label_table Hrun).
Defined.
(** * More of the code: get_parents and collapse_polytomies *)

(** X4: on a well-formed tree, [get_parents] returns, given enough fuel for
    the traversal, an index that has no entry for the root and that maps a
    clade [c] to [p] exactly when [p] is a clade of the tree that lists [c]
    among its children; every clade but the root has an entry. *)
Theorem get_parents_index t :
  well_formed t →
  ∃ N, ∀ fuel, N ≤ fuel →
    ∃ ps, get_parents fuel t = Ok ps ∧
      ps !! root t = None ∧
      (∀ c p, ps !! c = Some p ↔
         reachable (store t) (root t) p ∧ c ∈ clades (store t !!! p)) ∧
      (∀ v, reachable (store t) (root t) v → v ≠ root t → is_Some (ps !! v)).
Proof.
  intros Hwf. destruct (traversals_total t Hwf) as [N HN].
  destruct Hwf as (depth & Lc & HC).
  exists N. intros fuel Hfuel. destruct (HN fuel Hfuel) as [_ [order Ho]].
  assert (Hps : ∃ ps, get_parents fuel t = Ok ps).
  { unfold get_parents. rewrite Ho. simpl. eauto. }
  destruct Hps as [ps Hps]. exists ps. split; [done|].
  destruct (get_parents_spec _ _ _ _ _ HC Hps) as (Htop & Hidx & Hback).
  split; [done|]. split.
  - intros c p. split; [apply Hback|]. intros [Hp Hc]. by apply Hidx.
  - intros v Hv Hne. apply reachable_inv in Hv as [?|(p & Hp & Hc)]; [done|].
    exists p. by apply Hidx.
Qed.

Lemma get_parents_index_witness :
  well_formed four_tips ∧
  ∃ N, ∀ fuel, N ≤ fuel →
    ∃ ps, get_parents fuel four_tips = Ok ps ∧
      ps !! root four_tips = None ∧
      (∀ c p, ps !! c = Some p ↔
         reachable (store four_tips) (root four_tips) p ∧
         c ∈ clades (store four_tips !!! p)) ∧
      (∀ v, reachable (store four_tips) (root four_tips) v →
            v ≠ root four_tips → is_Some (ps !! v)).
Proof.
  assert (Hwf : well_formed four_tips).
  { apply (check_tree_sound _ (depth_of [0; 1; 2; 2; 1; 2; 2]) (seq 0 7)).
    vm_compute. reflexivity. }
  split; [exact Hwf|]. exact (get_parents_index four_tips Hwf).
Defined.

(** X5: when [collapse_polytomies] returns on a well-formed tree, the result
    is a well-formed tree with the same root, every clade of it is a clade
    of the input, no clade has another branch length, support or labels
    than before, and the record of a clade that was a tip is as it was. *)
Theorem collapse_keeps_shape fuel t m t' :
  well_formed t →
  collapse_polytomies fuel t m = Ok t' →
  root t' = root t ∧ well_formed t' ∧
  (∀ v, reachable (store t') (root t') v → reachable (store t) (root t) v) ∧
  (∀ v, clade_data (store t' !!! v) = clade_data (store t !!! v)) ∧
  (∀ v, is_terminal (store t) v = true → store t' !!! v = store t !!! v).
Proof.
  intros Hwf Hrun. pose proof Hwf as (depth & Lc & HC).
  destruct (collapse_sound _ _ _ _ _ _ HC Hrun)
    as (Hr & ps & h1 & ps2 & Hps & Hp1 & Hp2 & (L1 & HC1 & _) & _).
  destruct (prune_tips_sound _ _ _ _ _ _ _ _ HC Hps Hp1)
    as (_ & _ & Hstay1 & Hback1 & _).
  destruct (splice_nodes_sound _ _ _ _ _ _ _ _ _ HC1 Hp2)
    as (_ & _ & Hstay2 & Hback2 & _).
  split; [done|]. split; [by apply (collapse_well_formed fuel t m)|].
  split; [|split].
  - intros v Hv. rewrite Hr in Hv. by apply Hback1, Hback2.
  - by apply (collapse_data fuel t m).
  - intros v Hterm. apply is_terminal_true in Hterm.
    by apply (tips_stay_trans _ h1).
Qed.

Lemma collapse_keeps_shape_witness :
  well_formed four_tips ∧
  collapse_polytomies 10 four_tips (1#2)%Q = Ok four_tips_collapsed ∧
  root four_tips_collapsed = root four_tips ∧
  well_formed four_tips_collapsed ∧
  (∀ v, reachable (store four_tips_collapsed) (root four_tips_collapsed) v →
        reachable (store four_tips) (root four_tips) v) ∧
  (∀ v, clade_data (store four_tips_collapsed !!! v) =
        clade_data (store four_tips !!! v)) ∧
  (∀ v, is_terminal (store four_tips) v = true →
        store four_tips_collapsed !!! v = store four_tips !!! v).
Proof.
  assert (Hwf : well_formed four_tips).
  { apply (check_tree_sound _ (depth_of [0; 1; 2; 2; 1; 2; 2]) (seq 0 7)).
    vm_compute. reflexivity. }
  assert (Hrun : collapse_polytomies 10 four_tips (1#2)%Q
                 = Ok four_tips_collapsed).
  { vm_compute. reflexivity. }
  split; [exact Hwf|]. split; [exact Hrun|].
  exact (collapse_keeps_shape 10 four_tips (1#2)%Q four_tips_collapsed
           Hwf Hrun).
Defined.

(** X6: on a well-formed tree whose tips all have a name,
    [collapse_polytomies] returns a tree, given enough fuel, exactly when
    every tip has a branch length and the root is not itself a tip with a
    length at or below [minlen] (such a tip has no parent to be folded
    into). *)
Theorem collapse_returns_iff t m :
  well_formed t →
  (∀ v, reachable (store t) (root t) v → is_terminal (store t) v = true →
        is_Some (name (store t !!! v))) →
  (∃ N, ∀ fuel, N ≤ fuel → ∃ t', collapse_polytomies fuel t m = Ok t') ↔
  (∀ v, reachable (store t) (root t) v → is_terminal (store t) v = true →
        ∃ b, branch_length (store t !!! v) = Some b ∧
             (v = root t → (m < b)%Q)).
Proof.
  intros Hwf Hnamed. split.
  - intros [N HN] v Hv Hterm. destruct (HN N) as [t' Hrun]; [done|].
    destruct Hwf as (depth & Lc & HC).
    destruct (collapse_sound _ _ _ _ _ _ HC Hrun)
      as (_ & ps & h1 & ps2 & Hps & Hp1 & _).
    destruct (prune_tips_sound _ _ _ _ _ _ _ _ HC Hps Hp1)
      as (_ & _ & _ & _ & Hfwd).
    specialize (Hfwd v Hv). rewrite Hterm in Hfwd.
    destruct Hfwd as (b & Hb & Hiff). exists b. split; [done|].
    intros ->. apply float_gt_spec, Hiff. constructor.
  - intros Hlen. apply collapse_returns; [done|].
    intros v Hv Hterm. destruct (Hlen v Hv Hterm) as (b & Hb & Hroot).
    exists b. split; [done|]. split; [|done]. by apply Hnamed.
Qed.

Lemma collapse_returns_iff_witness :
  well_formed three_tips ∧
  (∀ v, reachable (store three_tips) (root three_tips) v →
        is_terminal (store three_tips) v = true →
        is_Some (name (store three_tips !!! v))) ∧
  ((∃ N, ∀ fuel, N ≤ fuel →
      ∃ t', collapse_polytomies fuel three_tips (1#2)%Q = Ok t') ↔
   (∀ v, reachable (store three_tips) (root three_tips) v →
         is_terminal (store three_tips) v = true →
         ∃ b, branch_length (store three_tips !!! v) = Some b ∧
              (v = root three_tips → (1#2 < b)%Q))).
Proof.
  assert (Hwf : well_formed three_tips).
  { apply (check_tree_sound _ (depth_of [0; 1; 2; 2; 1]) (seq 0 5)).
    vm_compute. reflexivity. }
  assert (Hnamed : ∀ v, reachable (store three_tips) (root three_tips) v →
            is_terminal (store three_tips) v = true →
            is_Some (name (store three_tips !!! v))).
  { intros v Hv Hterm.
    apply (preorder_reachable 10 _ _ [0; 1; 2; 3; 4]) in Hv;
      [|vm_compute; reflexivity].
    repeat (apply elem_of_cons in Hv as [->|Hv]);
      [..|by apply elem_of_nil in Hv];
      vm_compute in Hterm; try discriminate Hterm; vm_compute; eauto. }
  split; [exact Hwf|]. split; [exact Hnamed|].
  exact (collapse_returns_iff three_tips (1#2)%Q Hwf Hnamed).
Defined.

(** X7: a well-formed tree in which every tip has a branch length above
    [minlen], and every other clade below the root has either no branch
    length or one above [minlen], is returned as it is. *)
Theorem collapse_nothing_to_do t m :
  well_formed t →
  (∀ v, reachable (store t) (root t) v → is_terminal (store t) v = true →
        ∃ b, branch_length (store t !!! v) = Some b ∧ (m < b)%Q) →
  (∀ v, reachable (store t) (root t) v → is_terminal (store t) v = false →
        v ≠ root t →
        branch_length (store t !!! v) = None ∨
        ∃ b, branch_length (store t !!! v) = Some b ∧ (m < b)%Q) →
  ∃ N, ∀ fuel, N ≤ fuel → collapse_polytomies fuel t m = Ok t.
Proof.
  intros Hwf Htips Hnodes. destruct (traversals_total t Hwf) as [N HN].
  exists N. intros fuel Hfuel.
  destruct (HN fuel Hfuel) as [[l Hl] [order Horder]].
  eapply (collapse_fixed fuel t m _ l); [| done | |].
  - unfold get_parents. rewrite Horder. reflexivity.
  - intros v Hv Hterm. apply (preorder_reachable _ _ _ _ Hl) in Hv.
    destruct (Htips v Hv Hterm) as (b & Hb & Hgt). exists b.
    split; [done|]. by apply float_gt_spec.
  - intros v Hv Hterm Hroot. apply (preorder_reachable _ _ _ _ Hl) in Hv.
    destruct (Hnodes v Hv Hterm Hroot) as [?|(b & Hb & Hgt)]; [by left|].
    right. exists b. split; [done|]. by apply float_gt_spec.
Qed.

Lemma collapse_nothing_to_do_witness :
  well_formed bar_tip ∧
  ∃ N, ∀ fuel, N ≤ fuel → collapse_polytomies fuel bar_tip (1#2)%Q = Ok bar_tip.
Proof.
  assert (Hwf : well_formed bar_tip).
  { apply (check_tree_sound _ (depth_of [0; 1; 1]) (seq 0 3)).
    vm_compute. reflexivity. }
  split; [exact Hwf|].
  apply (collapse_nothing_to_do bar_tip (1#2)%Q Hwf).
  - intros v Hv Hterm.
    apply (preorder_reachable 10 _ _ [0; 1; 2]) in Hv;
      [|vm_compute; reflexivity].
    repeat (apply elem_of_cons in Hv as [->|Hv]);
      [..|by apply elem_of_nil in Hv];
      vm_compute in Hterm; try discriminate Hterm.
    + exists (6#10)%Q. split; [reflexivity|]. by vm_compute.
    + exists (7#10)%Q. split; [reflexivity|]. by vm_compute.
  - intros v Hv Hterm Hroot.
    apply (preorder_reachable 10 _ _ [0; 1; 2]) in Hv;
      [|vm_compute; reflexivity].
    repeat (apply elem_of_cons in Hv as [->|Hv]);
      [..|by apply elem_of_nil in Hv];
      vm_compute in Hterm; try discriminate Hterm.
    by destruct Hroot.
Defined.

(** X8: [collapse_polytomies] loses no identifier and makes none up: the
    non-empty identifiers between the bars of the names of the clades of the
    result are, up to their order, those of the names of the clades of the
    input. *)
Theorem collapse_keeps_identifiers fuel t m t' l l' :
  well_formed t →
  collapse_polytomies fuel t m = Ok t' →
  preorder_traverse fuel (store t) (root t) = Ok l →
  preorder_traverse fuel (store t') (root t') = Ok l' →
  identifiers_on (store t') l' ≡ₚ identifiers_on (store t) l.
Proof.
  intros Hwf Hrun Hl Hl'. pose proof Hwf as (depth & Lc & HC).
  destruct (collapse_identifiers_set _ _ _ _ _ _ HC Hrun)
    as (l0 & L2 & Hl0 & HL2 & Hids).
  assert (l0 = l) as -> by congruence.
  rewrite <- Hids. apply concat_fmap_perm.
  apply (preorder_elements fuel t'); [|done|].
  - by apply (collapse_well_formed fuel t m).
  - destruct (collapse_sound _ _ _ _ _ _ HC Hrun) as (-> & _). done.
Qed.

Lemma collapse_keeps_identifiers_witness :
  well_formed four_tips ∧
  collapse_polytomies 10 four_tips (1#2)%Q = Ok four_tips_collapsed ∧
  preorder_traverse 10 (store four_tips) (root four_tips)
    = Ok [0; 1; 2; 3; 4; 5; 6] ∧
  preorder_traverse 10 (store four_tips_collapsed) (root four_tips_collapsed)
    = Ok [0; 4; 3] ∧
  identifiers_on (store four_tips_collapsed) [0; 4; 3] ≡ₚ
  identifiers_on (store four_tips) [0; 1; 2; 3; 4; 5; 6].
Proof.
  assert (Hwf : well_formed four_tips).
  { apply (check_tree_sound _ (depth_of [0; 1; 2; 2; 1; 2; 2]) (seq 0 7)).
    vm_compute. reflexivity. }
  assert (Hrun : collapse_polytomies 10 four_tips (1#2)%Q
                 = Ok four_tips_collapsed).
  { vm_compute. reflexivity. }
  assert (Hl : preorder_traverse 10 (store four_tips) (root four_tips)
               = Ok [0; 1; 2; 3; 4; 5; 6]) by (vm_compute; reflexivity).
  assert (Hl' : preorder_traverse 10 (store four_tips_collapsed)
                  (root four_tips_collapsed) = Ok [0; 4; 3])
    by (vm_compute; reflexivity).
  split; [exact Hwf|]. split; [exact Hrun|]. split; [exact Hl|].
  split; [exact Hl'|].
  exact (collapse_keeps_identifiers 10 four_tips (1#2)%Q four_tips_collapsed
           _ _ Hwf Hrun Hl Hl').
Defined.
(** * More of the code: annotate_tree *)

(** X9: when [annotate_tree] returns on a well-formed tree, the result is
    the collapsed tree, well formed, with the same clades, children, branch
    lengths and supports; every clade of it has a name and the labels that
    the table lists under the fields of its name in the collapsed tree (none
    for a clade without a name); a tip keeps its name, and a tip whose name
    has no bar has the very entry of the table under its name. *)
Theorem annotate_postcondition fuel t d m cb t' :
  well_formed t →
  (annotate_tree fuel t d m cb).2 = Ok t' →
  ∃ tc, collapse_polytomies fuel t m = Ok tc ∧
    root t' = root tc ∧ well_formed t' ∧
    (∀ v, reachable (store t') (root t') v ↔
          reachable (store tc) (root tc) v) ∧
    (∀ v, clades (store t' !!! v) = clades (store tc !!! v) ∧
          branch_length (store t' !!! v) = branch_length (store tc !!! v) ∧
          confidence (store t' !!! v) = confidence (store tc !!! v)) ∧
    (∀ v, reachable (store tc) (root tc) v →
       is_Some (name (store t' !!! v)) ∧
       labels (store t' !!! v) =
         Some (labels_of d (match name (store tc !!! v) with
                            | Some n => split_bar n
                            | None => []
                            end))) ∧
    (∀ v, reachable (store tc) (root tc) v →
       is_terminal (store tc) v = true →
       ∃ n, name (store tc !!! v) = Some n ∧
            name (store t' !!! v) = Some n ∧
            (contains_bar n = false → labels (store t' !!! v) = d !! n)).
Proof.
  intros Hwf Hrun. rewrite annotate_tree_result in Hrun.
  destruct (annotate_collapsed_inv _ _ _ _ _ Hwf Hrun)
    as (tc & Hc & Hr & Hann).
  pose proof (annotate_collapsed_shape _ _ _ _ _ _ Hrun Hc) as Hshape.
  assert (Hcl : ∀ v, clades (store t' !!! v) = clades (store tc !!! v))
    by (intros v; apply Hshape).
  exists tc. split; [done|]. split; [done|]. split.
  { destruct (collapse_well_formed _ _ _ _ Hwf Hc) as (depth & L & HC).
    exists depth, L. rewrite Hr. by apply (tree_cert_same_clades (store tc)). }
  split; [rewrite Hr; by apply reachable_same_clades|].
  split; [done|]. split.
  - intros v Hv. specialize (Hann v Hv).
    split; [|by apply annotated_labels].
    unfold annotated in Hann. destruct (name (store tc !!! v)) as [n|] eqn:Hn.
    + destruct Hann as (ls & _ & ->). simpl. by rewrite Hn.
    + destruct Hann as [_ ->]. simpl. eauto.
  - intros v Hv Hterm. specialize (Hann v Hv). unfold annotated in Hann.
    destruct (name (store tc !!! v)) as [n|] eqn:Hn;
      [|destruct Hann as [? _]; congruence].
    destruct Hann as (ls & Hls & ->). exists n. split; [done|].
    split; [done|]. intros Hbar. simpl.
    rewrite (split_bar_no_bar n Hbar) in Hls.
    apply extend_labels_inv in Hls as (lss & Hlss & ->).
    apply Forall2_cons_inv_l in Hlss as (ls & lss' & Hk & Hnil & ->).
    apply Forall2_nil_inv_l in Hnil as ->. simpl.
    by rewrite app_nil_r, Hk.
Qed.

Lemma annotate_postcondition_witness :
  well_formed four_tips ∧
  (annotate_tree 10 four_tips four_labels (1#2)%Q false).2
    = Ok four_tips_annotated ∧
  ∃ tc, collapse_polytomies 10 four_tips (1#2)%Q = Ok tc ∧
    root four_tips_annotated = root tc ∧ well_formed four_tips_annotated ∧
    (∀ v, reachable (store four_tips_annotated) (root four_tips_annotated) v ↔
          reachable (store tc) (root tc) v) ∧
    (∀ v, clades (store four_tips_annotated !!! v) = clades (store tc !!! v) ∧
          branch_length (store four_tips_annotated !!! v)
            = branch_length (store tc !!! v) ∧
          confidence (store four_tips_annotated !!! v)
            = confidence (store tc !!! v)) ∧
    (∀ v, reachable (store tc) (root tc) v →
       is_Some (name (store four_tips_annotated !!! v)) ∧
       labels (store four_tips_annotated !!! v) =
         Some (labels_of four_labels (match name (store tc !!! v) with
                                      | Some n => split_bar n
                                      | None => []
                                      end))) ∧
    (∀ v, reachable (store tc) (root tc) v →
       is_terminal (store tc) v = true →
       ∃ n, name (store tc !!! v) = Some n ∧
            name (store four_tips_annotated !!! v) = Some n ∧
            (contains_bar n = false →
             labels (store four_tips_annotated !!! v) = four_labels !! n)).
Proof.
  assert (Hwf : well_formed four_tips).
  { apply (check_tree_sound _ (depth_of [0; 1; 2; 2; 1; 2; 2]) (seq 0 7)).
    vm_compute. reflexivity. }
  assert (Hrun : (annotate_tree 10 four_tips four_labels (1#2)%Q false).2
                 = Ok four_tips_annotated).
  { vm_compute. reflexivity. }
  split; [exact Hwf|]. split; [exact Hrun|].
  exact (annotate_postcondition 10 four_tips four_labels (1#2)%Q false
           four_tips_annotated Hwf Hrun).
Defined.

(** X10: the validation at the head of [annotate_tree] tells the callback
    nothing exactly when there is no callback or every tip of the input has
    a name that is a key of the table; a tip without a name counts as a
    mismatch.  The set that it reports holds exactly the names of tips that
    are not keys of the table. *)
Theorem annotate_reports_mismatch fuel t d m cb tips :
  get_terminals fuel t = Ok tips →
  ((annotate_tree fuel t d m cb).1 = [] ↔
   cb = false ∨
   ∀ tip, tip ∈ tips →
     ∃ n, name (store t !!! tip) = Some n ∧ is_Some (d !! n)) ∧
  (∀ diff, SetDiff diff ∈ (annotate_tree fuel t d m cb).1 →
     ∀ on, on ∈ diff ↔
       (∃ tip, tip ∈ tips ∧ name (store t !!! tip) = on) ∧
       (∀ n, on = Some n → d !! n = None)).
Proof.
  intros Hget. unfold annotate_tree. rewrite Hget. simpl. unfold validate.
  set (names := (λ tip, name (store t !!! tip)) <$> tips).
  assert (Hnames : ∀ on, on ∈ names ↔
            ∃ tip, tip ∈ tips ∧ name (store t !!! tip) = on).
  { intros on. unfold names. rewrite list_elem_of_fmap.
    split; intros (tip & ? & ?); by exists tip. }
  assert (Hempty : set_diff names d = ∅ ↔
            ∀ tip, tip ∈ tips →
              ∃ n, name (store t !!! tip) = Some n ∧ is_Some (d !! n)).
  { rewrite elem_of_equiv_empty_L. split.
    - intros Hno tip Htip.
      destruct (name (store t !!! tip)) as [n|] eqn:Hn.
      + exists n. split; [done|]. apply not_eq_None_Some. intros Hd.
        apply (Hno (Some n)), elem_of_set_diff. split.
        * apply Hnames. by exists tip.
        * by intros ? [= <-].
      + destruct (Hno None). apply elem_of_set_diff. split.
        * apply Hnames. by exists tip.
        * by intros ? [=].
    - intros Hall on Hon. apply elem_of_set_diff in Hon as [Hin Hnone].
      apply Hnames in Hin as (tip & Htip & <-).
      destruct (Hall tip Htip) as (n & Hn & Hsome).
      rewrite (Hnone n Hn) in Hsome. by destruct Hsome. }
  split.
  - destruct (decide (set_diff names d = ∅)) as [He|Hne].
    + rewrite bool_decide_eq_false_2 by (intros Hx; by apply Hx). simpl.
      split; [intros _; right; by apply Hempty|done].
    + rewrite bool_decide_eq_true_2 by done. simpl. destruct cb; simpl.
      * split; [done|]. intros [?|Hall]; [done|]. by apply Hempty in Hall.
      * split; [by left|done].
  - intros diff Hin on.
    destruct (bool_decide (set_diff names d ≠ ∅) && cb);
      [|by apply elem_of_nil in Hin].
    repeat (apply elem_of_cons in Hin as [Heq|Hin]; [try discriminate|]);
      [|by apply elem_of_nil in Hin].
    injection Heq as ->. rewrite elem_of_set_diff, Hnames. done.
Qed.

Lemma annotate_reports_mismatch_witness :
  get_terminals 10 bar_tip = Ok [1; 2] ∧
  ((annotate_tree 10 bar_tip four_labels (1#2)%Q true).1 = [] ↔
   true = false ∨
   ∀ tip, tip ∈ [1; 2] →
     ∃ n, name (store bar_tip !!! tip) = Some n ∧
          is_Some (four_labels !! n)) ∧
  (∀ diff,
     SetDiff diff ∈ (annotate_tree 10 bar_tip four_labels (1#2)%Q true).1 →
     ∀ on, on ∈ diff ↔
       (∃ tip, tip ∈ [1; 2] ∧ name (store bar_tip !!! tip) = on) ∧
       (∀ n, on = Some n → four_labels !! n = None)).
Proof.
  assert (Hget : get_terminals 10 bar_tip = Ok [1; 2])
    by (vm_compute; reflexivity).
  split; [exact Hget|].
  exact (annotate_reports_mismatch 10 bar_tip four_labels (1#2)%Q true
           [1; 2] Hget).
Defined.

(** X11: [annotate_tree] returns a tree, given enough fuel, on every
    well-formed tree in which every tip has a name and a branch length, the
    root is not a tip with a length at or below [minlen], and every field
    between the bars of every name is a key of the table. *)
Theorem annotate_returns t d m cb :
  well_formed t →
  (∀ v, reachable (store t) (root t) v → is_terminal (store t) v = true →
     ∃ b, branch_length (store t !!! v) = Some b ∧
          is_Some (name (store t !!! v)) ∧ (v = root t → (m < b)%Q)) →
  (∀ v n, reachable (store t) (root t) v → name (store t !!! v) = Some n →
          known_name d n) →
  ∃ N, ∀ fuel, N ≤ fuel → ∃ t', (annotate_tree fuel t d m cb).2 = Ok t'.
Proof.
  intros Hwf Htips Hknown.
  destruct (annotate_collapsed_returns t d m Hwf Htips Hknown) as [N HN].
  exists N. intros fuel Hfuel. rewrite annotate_tree_result. by apply HN.
Qed.

Lemma annotate_returns_witness :
  well_formed four_tips ∧
  ∃ N, ∀ fuel, N ≤ fuel →
    ∃ t', (annotate_tree fuel four_tips four_labels (1#2)%Q false).2 = Ok t'.
Proof.
  assert (Hwf : well_formed four_tips).
  { apply (check_tree_sound _ (depth_of [0; 1; 2; 2; 1; 2; 2]) (seq 0 7)).
    vm_compute. reflexivity. }
  split; [exact Hwf|].
  apply (annotate_returns four_tips four_labels (1#2)%Q false Hwf).
  - intros v Hv Hterm.
    apply (preorder_reachable 10 _ _ [0; 1; 2; 3; 4; 5; 6]) in Hv;
      [|vm_compute; reflexivity].
    repeat (apply elem_of_cons in Hv as [->|Hv]);
      [..|by apply elem_of_nil in Hv];
      vm_compute in Hterm; try discriminate Hterm;
      (eexists; split; [reflexivity|]; split; [vm_compute; eauto|];
       intros Hroot; vm_compute in Hroot; discriminate Hroot).
  - intros v n Hv Hn.
    apply (preorder_reachable 10 _ _ [0; 1; 2; 3; 4; 5; 6]) in Hv;
      [|vm_compute; reflexivity].
    repeat (apply elem_of_cons in Hv as [->|Hv]);
      [..|by apply elem_of_nil in Hv];
      vm_compute in Hn; try discriminate Hn; injection Hn as <-;
      (apply Forall_cons; split; [vm_compute; eauto|apply Forall_nil_2]).
Defined.

(** X12: [annotate_tree] loses no label and repeats none.  On a well-formed
    tree whose names have no empty field, the labels on the clades of the
    result are, up to their order, the labels that the table lists under the
    identifiers in the names of the input: for a tree whose tips alone have
    names, under the names of the tips. *)
Theorem annotate_keeps_labels fuel t d m cb t' l l' :
  well_formed t →
  (annotate_tree fuel t d m cb).2 = Ok t' →
  (∀ v n, reachable (store t) (root t) v → name (store t !!! v) = Some n →
          Forall (λ k, k ≠ EmptyString) (split_bar n)) →
  preorder_traverse fuel (store t) (root t) = Ok l →
  preorder_traverse fuel (store t') (root t') = Ok l' →
  labels_on (store t') l' ≡ₚ labels_of d (identifiers_on (store t) l).
Proof.
  intros Hwf Hrun Hfields Hl Hl'. rewrite annotate_tree_result in Hrun.
  destruct (annotate_collapsed_inv _ _ _ _ _ Hwf Hrun)
    as (tc & Hc & Hr & Hann).
  pose proof (annotate_collapsed_shape _ _ _ _ _ _ Hrun Hc) as Hshape.
  pose proof Hwf as (depth & Lc & HC).
  assert (Hlc : preorder_traverse fuel (store tc) (root tc) = Ok l').
  { rewrite <- Hl', Hr. symmetry. apply preorder_same_clades.
    intros v. apply Hshape. }
  assert (Hfc : ∀ v n, reachable (store tc) (root tc) v →
            name (store tc !!! v) = Some n →
            Forall (λ k, k ≠ EmptyString) (split_bar n)).
  { apply (collapse_names_closed
             (λ n, Forall (λ k, k ≠ EmptyString) (split_bar n))
             fuel t m tc depth Lc); [|done..].
    intros a b Ha Hb. rewrite split_bar_join. by apply Forall_app. }
  assert (Hlab : labels_on (store t') l' =
                 labels_of d (identifiers_on (store tc) l')).
  { unfold labels_on, identifiers_on. rewrite labels_of_concat.
    rewrite <- list_fmap_compose. f_equal. apply list_fmap_ext.
    intros i v Hv. apply list_elem_of_lookup_2 in Hv.
    apply (preorder_reachable _ _ _ _ Hlc) in Hv. simpl.
    rewrite (annotated_labels d tc v _ (Hann v Hv)). simpl.
    destruct (name (store tc !!! v)) as [n|] eqn:Hn; [|done]. simpl.
    by rewrite (filter_all _ _ (Hfc v n Hv Hn)). }
  rewrite Hlab. unfold labels_of. apply concat_fmap_perm.
  by apply (collapse_identifiers fuel t m tc).
Qed.

Lemma annotate_keeps_labels_witness :
  well_formed four_tips ∧
  (annotate_tree 10 four_tips four_labels (1#2)%Q false).2
    = Ok four_tips_annotated ∧
  preorder_traverse 10 (store four_tips) (root four_tips)
    = Ok [0; 1; 2; 3; 4; 5; 6] ∧
  preorder_traverse 10 (store four_tips_annotated) (root four_tips_annotated)
    = Ok [0; 4; 3] ∧
  labels_on (store four_tips_annotated) [0; 4; 3] ≡ₚ
  labels_of four_labels
    (identifiers_on (store four_tips) [0; 1; 2; 3; 4; 5; 6]).
Proof.
  assert (Hwf : well_formed four_tips).
  { apply (check_tree_sound _ (depth_of [0; 1; 2; 2; 1; 2; 2]) (seq 0 7)).
    vm_compute. reflexivity. }
  assert (Hfields : ∀ v n,
            reachable (store four_tips) (root four_tips) v →
            name (store four_tips !!! v) = Some n →
            Forall (λ k, k ≠ EmptyString) (split_bar n)).
  { intros v n Hv Hn.
    apply (preorder_reachable 10 _ _ [0; 1; 2; 3; 4; 5; 6]) in Hv;
      [|vm_compute; reflexivity].
    repeat (apply elem_of_cons in Hv as [->|Hv]);
      [..|by apply elem_of_nil in Hv];
      vm_compute in Hn; try discriminate Hn; injection Hn as <-;
      (apply Forall_cons; split; [intros Heq; discriminate Heq|]);
      apply Forall_nil_2. }
  assert (Hrun : (annotate_tree 10 four_tips four_labels (1#2)%Q false).2
                 = Ok four_tips_annotated).
  { vm_compute. reflexivity. }
  assert (Hl : preorder_traverse 10 (store four_tips) (root four_tips)
               = Ok [0; 1; 2; 3; 4; 5; 6]) by (vm_compute; reflexivity).
  assert (Hl' : preorder_traverse 10 (store four_tips_annotated)
                  (root four_tips_annotated) = Ok [0; 4; 3])
    by (vm_compute; reflexivity).
  split; [exact Hwf|]. split; [exact Hrun|]. split; [exact Hl|].
  split; [exact Hl'|].
  exact (annotate_keeps_labels 10 four_tips four_labels (1#2)%Q false
           four_tips_annotated _ _ Hwf Hrun Hfields Hl Hl').
Defined.
(** * More of the code: serialize_tree *)

(** X13: on a well-formed tree whose labels are strings, [serialize_tree]
    fails exactly when some node has a fault (no labels set: AttributeError;
    an earliest label with fewer than four fields: IndexError; no branch
    length below the root: TypeError), and then with the fault of the first
    such node in level order; when no node has a fault it returns a graph.
    A [None] among the labels is outside this statement. *)
Theorem serialize_first_fault fuel t order :
  well_formed t →
  find_clades_level fuel t = Ok order →
  match head (omap (node_fault t) order) with
  | Some e => serialize_tree fuel t = Raise e
  | None => ∃ g, serialize_tree fuel t = Ok g
  end.
Proof.
  intros Hwf Ho. unfold serialize_tree.
  pose proof (serialize_loop_first_fault fuel t order Hwf Ho) as Hloop.
  destruct (head (omap (node_fault t) order)) as [e|].
  - by rewrite Hloop.
  - destruct Hloop as [s ->]. simpl. eauto.
Qed.

Lemma serialize_first_fault_witness :
  well_formed four_tips ∧
  find_clades_level 10 four_tips = Ok [0; 1; 4; 2; 3; 5; 6] ∧
  serialize_tree 10 four_tips = Raise AttributeError.
Proof.
  assert (Hwf : well_formed four_tips).
  { apply (check_tree_sound _ (depth_of [0; 1; 2; 2; 1; 2; 2]) (seq 0 7)).
    vm_compute. reflexivity. }
  assert (Ho : find_clades_level 10 four_tips = Ok [0; 1; 4; 2; 3; 5; 6])
    by (vm_compute; reflexivity).
  split; [exact Hwf|]. split; [exact Ho|].
  exact (serialize_first_fault 10 four_tips _ Hwf Ho).
Defined.

(** X14: when [serialize_tree] returns on a well-formed tree, the list of
    edges has, in level order, one edge for every node but the root: from
    the identifier of its parent to its own, with the branch length rounded
    to two decimals and the support of the node.  So there is one edge less
    than there are nodes, and both ends of every edge are keys of the node
    map. *)
Theorem serialize_edges fuel t s :
  well_formed t →
  serialize_loop fuel t = Ok s →
  serialize_tree fuel t = Ok (obj s) ∧
  ∃ ps order,
    get_parents fuel t = Ok ps ∧ find_clades_level fuel t = Ok order ∧
    Forall2 (λ x e, edge_of (store t) ps (variant_d s) x = Some e)
            (filter (λ x, x ≠ root t) order) (edges (obj s)) ∧
    length (edges (obj s)) + 1 = length order ∧
    (∀ pv v b c, (pv, v, b, c) ∈ edges (obj s) →
       is_Some (nodes (obj s) !! pv) ∧ is_Some (nodes (obj s) !! v)).
Proof.
  intros Hwf Hrun. split; [unfold serialize_tree; by rewrite Hrun|].
  destruct (serialize_loop_sound _ _ _ Hwf Hrun)
    as (order & Ho & Hnd & Hreach & HS).
  assert (Hps : ∃ ps, get_parents fuel t = Ok ps).
  { unfold get_parents. rewrite Ho. simpl. eauto. }
  destruct Hps as [ps Hps]. exists ps, order. split; [done|]. split; [done|].
  pose proof (serialize_loop_edges _ _ _ _ _ Hwf Hps Ho Hrun) as Hedges.
  split; [done|]. split.
  - rewrite <- (Forall2_length _ _ _ Hedges).
    apply length_filter_remove; [done|]. apply Hreach. constructor.
  - intros pv v b c Hin. apply list_elem_of_lookup in Hin as [i Hi].
    destruct (Forall2_lookup_r _ _ _ _ _ Hedges Hi) as (x & _ & He).
    apply edge_of_inv in He as (p & b0 & _ & Hpv & Hv & _).
    destruct (ser_last _ _ _ _ HS p pv Hpv)
      as (l1 & last1 & l2 & _ & _ & Hn1 & _).
    destruct (ser_last _ _ _ _ HS x v Hv)
      as (l3 & last2 & l4 & _ & _ & Hn2 & _).
    rewrite Hn1, Hn2. eauto.
Qed.

Lemma serialize_edges_witness :
  well_formed shared_accession ∧
  ∃ s, serialize_loop 10 shared_accession = Ok s ∧
    serialize_tree 10 shared_accession = Ok (obj s) ∧
    ∃ ps order,
      get_parents 10 shared_accession = Ok ps ∧
      find_clades_level 10 shared_accession = Ok order ∧
      Forall2 (λ x e, edge_of (store shared_accession) ps (variant_d s) x
                      = Some e)
              (filter (λ x, x ≠ root shared_accession) order)
              (edges (obj s)) ∧
      length (edges (obj s)) + 1 = length order ∧
      (∀ pv v b c, (pv, v, b, c) ∈ edges (obj s) →
         is_Some (nodes (obj s) !! pv) ∧ is_Some (nodes (obj s) !! v)).
Proof.
  assert (Hwf : well_formed shared_accession).
  { apply (check_tree_sound _ (depth_of [0; 1; 1]) (seq 0 3)).
    vm_compute. reflexivity. }
  split; [exact Hwf|].
  destruct (serialize_loop 10 shared_accession) as [s|e] eqn:Hrun;
    [|vm_compute in Hrun; discriminate Hrun].
  exists s. split; [reflexivity|].
  exact (serialize_edges 10 shared_accession s Hwf Hrun).
Defined.

(** X15: when the nodes of the tree get pairwise distinct identifiers, the
    node map has exactly one entry for every node of the tree, and the entry
    under the identifier of a node holds the samples of that node. *)
Theorem serialize_distinct_ids fuel t s order :
  well_formed t →
  serialize_loop fuel t = Ok s →
  find_clades_level fuel t = Ok order →
  (∀ n1 n2, n1 ∈ order → n2 ∈ order →
            variant_d s !! n1 = variant_d s !! n2 → n1 = n2) →
  size (nodes (obj s)) = length order ∧
  ∀ node, node ∈ order →
    ∃ v, variant_d s !! node = Some v ∧
         nodes (obj s) !! v = Some (payload_of (store t) node).
Proof.
  intros Hwf Hrun Ho Hinj.
  destruct (serialize_loop_sound _ _ _ Hwf Hrun)
    as (order' & Ho' & Hnd & Hreach & HS).
  assert (order' = order) as -> by congruence.
  assert (Hpay : ∀ node, node ∈ order →
            ∃ v, variant_d s !! node = Some v ∧
                 nodes (obj s) !! v = Some (payload_of (store t) node)).
  { intros node Hnode.
    destruct (ser_all _ _ _ _ HS node Hnode) as [v Hv]. exists v.
    split; [done|].
    destruct (ser_last _ _ _ _ HS node v Hv)
      as (l1 & last & l2 & Hsplit & Hlast & Hn & _).
    assert (last = node) as ->; [|done].
    apply Hinj; [|done|congruence].
    rewrite Hsplit. apply elem_of_app. right. apply elem_of_cons. by left. }
  split; [|done].
  set (ids := (λ n, default EmptyString (variant_d s !! n)) <$> order).
  assert (Hids : NoDup ids).
  { apply NoDup_fmap_2_strong; [|done]. intros n1 n2 Hn1 Hn2 Heq.
    apply Hinj; [done..|].
    destruct (ser_all _ _ _ _ HS n1 Hn1) as [v1 Hv1].
    destruct (ser_all _ _ _ _ HS n2 Hn2) as [v2 Hv2].
    rewrite Hv1, Hv2 in Heq |- *. simpl in Heq. by rewrite Heq. }
  assert (Hdom : dom (nodes (obj s)) = list_to_set ids).
  { apply set_eq. intros k. rewrite elem_of_dom, elem_of_list_to_set.
    unfold ids. rewrite list_elem_of_fmap. split.
    - intros Hk. destruct (ser_keys _ _ _ _ HS k Hk) as (node & Hnode & Hv).
      exists node. by rewrite Hv.
    - intros (node & -> & Hnode).
      destruct (Hpay node Hnode) as (v & Hv & Hn). rewrite Hv. simpl.
      by rewrite Hn. }
  rewrite <- size_dom, Hdom, size_list_to_set by done.
  unfold ids. by rewrite length_fmap.
Qed.

Lemma serialize_distinct_ids_witness :
  well_formed three_unsampled ∧
  ∃ s, serialize_loop 10 three_unsampled = Ok s ∧
    find_clades_level 10 three_unsampled = Ok [0; 1; 2; 3; 4] ∧
    size (nodes (obj s)) = 5 ∧
    ∀ node, node ∈ [0; 1; 2; 3; 4] →
      ∃ v, variant_d s !! node = Some v ∧
           nodes (obj s) !! v = Some (payload_of (store three_unsampled) node).
Proof.
  assert (Hwf : well_formed three_unsampled).
  { apply (check_tree_sound _ (depth_of [0; 1; 1; 2; 2]) (seq 0 5)).
    vm_compute. reflexivity. }
  split; [exact Hwf|].
  destruct (serialize_loop 10 three_unsampled) as [s|e] eqn:Hrun;
    [|vm_compute in Hrun; discriminate Hrun].
  exists s. split; [reflexivity|].
  assert (Ho : find_clades_level 10 three_unsampled = Ok [0; 1; 2; 3; 4])
    by (vm_compute; reflexivity).
  split; [exact Ho|].
  apply (serialize_distinct_ids 10 three_unsampled s [0; 1; 2; 3; 4]
           Hwf Hrun Ho).
  assert (Hv0 : variant_d s !! 0 = Some "unsampled0").
  { pose proof Hrun as H. vm_compute in H. injection H as <-. reflexivity. }
  assert (Hv1 : variant_d s !! 1 = Some "unsampled1").
  { pose proof Hrun as H. vm_compute in H. injection H as <-. reflexivity. }
  assert (Hv2 : variant_d s !! 2 = Some "unsampled2").
  { pose proof Hrun as H. vm_compute in H. injection H as <-. reflexivity. }
  assert (Hv3 : variant_d s !! 3 = Some "acc1").
  { pose proof Hrun as H. vm_compute in H. injection H as <-. reflexivity. }
  assert (Hv4 : variant_d s !! 4 = Some "acc2").
  { pose proof Hrun as H. vm_compute in H. injection H as <-. reflexivity. }
  intros n1 n2 H1 H2 Heq.
  repeat (apply elem_of_cons in H1 as [->|H1]);
    [..|by apply elem_of_nil in H1];
    repeat (apply elem_of_cons in H2 as [->|H2]);
    try (by apply elem_of_nil in H2);
    rewrite ?Hv0, ?Hv1, ?Hv2, ?Hv3, ?Hv4 in Heq;
    try discriminate Heq; reflexivity.
Defined.

(** X16: two different nodes without labels never get the same identifier:
    an identifier can be shared only when a sampled node is involved. *)
Theorem unsampled_ids_distinct fuel t s n1 n2 :
  well_formed t →
  serialize_loop fuel t = Ok s →
  reachable (store t) (root t) n1 → reachable (store t) (root t) n2 →
  unsampled (store t) n1 → unsampled (store t) n2 →
  n1 ≠ n2 →
  variant_d s !! n1 ≠ variant_d s !! n2.
Proof.
  intros Hwf Hrun Hr1 Hr2 Hu1 Hu2 Hne Heq.
  destruct (serialize_loop_sound _ _ _ Hwf Hrun)
    as (order & Ho & Hnd & Hreach & HS).
  assert (Hin : ∀ n, reachable (store t) (root t) n → unsampled (store t) n →
            ∃ k, filter (unsampled (store t)) order !! k = Some n).
  { intros n Hr Hu. apply list_elem_of_lookup, list_elem_of_filter.
    split; [done|]. by apply Hreach. }
  destruct (Hin n1 Hr1 Hu1) as [k1 Hk1]. destruct (Hin n2 Hr2 Hu2) as [k2 Hk2].
  rewrite (ser_unsampled _ _ _ _ HS k1 n1 Hk1) in Heq.
  rewrite (ser_unsampled _ _ _ _ HS k2 n2 Hk2) in Heq.
  injection Heq as Heq. apply str_nat_inj in Heq as ->.
  rewrite Hk1 in Hk2. by injection Hk2.
Qed.

Lemma unsampled_ids_distinct_witness :
  well_formed three_unsampled ∧
  ∃ s, serialize_loop 10 three_unsampled = Ok s ∧
    reachable (store three_unsampled) (root three_unsampled) 1 ∧
    reachable (store three_unsampled) (root three_unsampled) 2 ∧
    unsampled (store three_unsampled) 1 ∧
    unsampled (store three_unsampled) 2 ∧
    1 ≠ 2 ∧
    variant_d s !! 1 ≠ variant_d s !! 2.
Proof.
  assert (Hwf : well_formed three_unsampled).
  { apply (check_tree_sound _ (depth_of [0; 1; 1; 2; 2]) (seq 0 5)).
    vm_compute. reflexivity. }
  split; [exact Hwf|].
  destruct (serialize_loop 10 three_unsampled) as [s|e] eqn:Hrun;
    [|vm_compute in Hrun; discriminate Hrun].
  exists s. split; [reflexivity|].
  assert (Hr1 : reachable (store three_unsampled) (root three_unsampled) 1).
  { apply (reach_child _ _ 0); [constructor|]. vm_compute.
    repeat constructor. }
  assert (Hr2 : reachable (store three_unsampled) (root three_unsampled) 2).
  { apply (reach_child _ _ 0); [constructor|]. vm_compute.
    repeat constructor. }
  assert (Hu1 : unsampled (store three_unsampled) 1) by reflexivity.
  assert (Hu2 : unsampled (store three_unsampled) 2) by reflexivity.
  assert (Hne : 1 ≠ 2) by lia.
  split; [exact Hr1|]. split; [exact Hr2|]. split; [exact Hu1|].
  split; [exact Hu2|]. split; [exact Hne|].
  exact (unsampled_ids_distinct 10 three_unsampled s 1 2 Hwf Hrun
           Hr1 Hr2 Hu1 Hu2 Hne).
Defined.

(** X17: with a label table whose labels are strings, the tree that
    [annotate_tree] returns has its labels set on every node and a parent
    with an identifier for every node below the root, so that on it
    [serialize_tree] fails neither for a missing [labels] attribute nor with
    a KeyError: it can run out of fuel, meet a label with fewer than four
    fields (IndexError), or a node below the root without a branch length
    (TypeError), which is then a clade that had none in the input.  A table
    with a [None] label, read from a file with a short line, is outside this
    statement. *)
Theorem annotate_then_serialize fuel t d m cb t' fuel' e :
  well_formed t →
  (annotate_tree fuel t d m cb).2 = Ok t' →
  serialize_tree fuel' t' = Raise e →
  e = OutOfFuel ∨ e = IndexError ∨
  (e = TypeError ∧
   ∃ v, reachable (store t') (root t') v ∧ v ≠ root t' ∧
        branch_length (store t !!! v) = None).
Proof.
  intros Hwf Hrun Hser. rewrite annotate_tree_result in Hrun.
  destruct (annotate_collapsed_inv _ _ _ _ _ Hwf Hrun)
    as (tc & Hc & Hr & Hann).
  pose proof (annotate_collapsed_shape _ _ _ _ _ _ Hrun Hc) as Hshape.
  assert (Hwf' : well_formed t').
  { destruct (collapse_well_formed _ _ _ _ Hwf Hc) as (depth & L & HC).
    exists depth, L. rewrite Hr. apply (tree_cert_same_clades (store tc));
      [|done]. intros v. apply Hshape. }
  destruct (find_clades_level fuel' t') as [order|e0] eqn:Ho.
  2:{ left. unfold serialize_tree, serialize_loop, get_parents in Hser.
      rewrite Ho in Hser. simpl in Hser. injection Hser as <-.
      by apply (level_Raise _ _ _ _ Ho). }
  pose proof (serialize_loop_first_fault fuel' t' order Hwf' Ho) as Hloop.
  unfold serialize_tree in Hser.
  destruct (head (omap (node_fault t') order)) as [e'|] eqn:Hhead.
  2:{ destruct Hloop as [s Hs]. by rewrite Hs in Hser. }
  rewrite Hloop in Hser. simpl in Hser. injection Hser as ->.
  apply head_omap_Some in Hhead as (x & Hx & Hfault).
  apply (level_reachable _ _ _ _ Ho) in Hx.
  assert (Hxc : reachable (store tc) (root tc) x).
  { rewrite <- Hr. apply (reachable_same_clades (store tc) (store t')); [|done].
    intros v. apply Hshape. }
  pose proof (annotated_labels _ _ _ _ (Hann x Hxc)) as Hlab.
  unfold node_fault in Hfault. rewrite Hlab in Hfault.
  destruct (assign_variant _ 0) as [r0|e1] eqn:Hassign.
  2:{ injection Hfault as <-. right. left.
      by apply (assign_variant_Raise _ _ _ Hassign). }
  destruct (bool_decide (x = root t')) eqn:Hroot; [done|].
  apply bool_decide_eq_false in Hroot.
  destruct (branch_length (store t' !!! x)) as [b|] eqn:Hb; [done|].
  injection Hfault as <-. right. right. split; [done|]. exists x.
  split; [done|]. split; [done|].
  destruct (Hshape x) as (_ & Hbl & _). rewrite Hb in Hbl.
  pose proof (collapse_data _ _ _ _ Hc x) as Hdata.
  unfold clade_data in Hdata. injection Hdata as Hlen _ _. congruence.
Qed.

Lemma annotate_then_serialize_witness :
  well_formed unscaled_inner ∧
  ∃ t', (annotate_tree 10 unscaled_inner four_labels (1#2)%Q false).2 = Ok t' ∧
    serialize_tree 10 t' = Raise TypeError ∧
    (TypeError = OutOfFuel ∨ TypeError = IndexError ∨
     (TypeError = TypeError ∧
      ∃ v, reachable (store t') (root t') v ∧ v ≠ root t' ∧
           branch_length (store unscaled_inner !!! v) = None)).
Proof.
  assert (Hwf : well_formed unscaled_inner).
  { apply (check_tree_sound _ (depth_of [0; 1; 2; 2]) (seq 0 4)).
    vm_compute. reflexivity. }
  split; [exact Hwf|].
  destruct ((annotate_tree 10 unscaled_inner four_labels (1#2)%Q false).2)
    as [t'|e] eqn:Hrun; [|vm_compute in Hrun; discriminate Hrun].
  exists t'. split; [reflexivity|].
  assert (Hser : serialize_tree 10 t' = Raise TypeError).
  { pose proof Hrun as H. vm_compute in H. injection H as <-.
    vm_compute. reflexivity. }
  split; [exact Hser|].
  exact (annotate_then_serialize 10 unscaled_inner four_labels (1#2)%Q false
           t' 10 TypeError Hwf Hrun Hser).
Defined.
(** * More of the code: how collapse_polytomies fails *)

(** X18: on a well-formed tree [collapse_polytomies] never fails in
    [list.remove] (no ValueError): it can run out of fuel, raise a TypeError,
    and then some tip has no branch length or no name, or raise a KeyError,
    and then the root is itself a tip with a branch length at or below
    [minlen]. *)
Theorem collapse_errors fuel t m e :
  well_formed t →
  collapse_polytomies fuel t m = Raise e →
  e = OutOfFuel ∨
  (e = TypeError ∧
   ∃ tip, reachable (store t) (root t) tip ∧
     is_terminal (store t) tip = true ∧
     (branch_length (store t !!! tip) = None ∨
      name (store t !!! tip) = None)) ∨
  (e = KeyError ∧ is_terminal (store t) (root t) = true ∧
   ∃ b, branch_length (store t !!! root t) = Some b ∧ (b <= m)%Q).
Proof.
  intros (depth & Lc & HC) H. unfold collapse_polytomies in H.
  destruct (get_parents fuel t) as [ps|e0] eqn:Hps; simpl in H.
  2:{ injection H as <-. left. by apply (get_parents_Raise _ _ _ Hps). }
  destruct (prune_tips fuel t m ps) as [h1|e1] eqn:Hp1; simpl in H.
  2:{ injection H as <-.
      destruct (prune_tips_Raise _ _ _ _ _ _ _ _ HC Hps Hp1)
        as [?|[?|(-> & Hterm & b & Hb & Hgt)]]; [auto|auto|].
      right. right. split; [done|]. split; [done|]. exists b.
      split; [done|]. apply Qnot_lt_le. intros Hlt.
      apply float_gt_spec in Hlt. congruence. }
  destruct (prune_tips_sound _ _ _ _ _ _ _ _ HC Hps Hp1)
    as ((L1 & HC1 & _) & _).
  destruct (splice_nodes fuel (mkTree h1 (root t)) m ps) as [st|e2] eqn:Hp2;
    simpl in H; [done|].
  injection H as <-. left.
  apply (splice_nodes_Raise fuel (root t) m depth h1 ps L1 e2 HC1); [|done].
  intros l Hl. apply (preorder_NoDup_wf fuel (mkTree h1 (root t))); [|done].
  exists depth, L1. by apply (collapsing_cert _ _ _ ps _ ∅).
Qed.

Lemma collapse_errors_witness :
  well_formed no_lengths ∧
  collapse_polytomies 10 no_lengths (1#2)%Q = Raise TypeError ∧
  (TypeError = OutOfFuel ∨
   (TypeError = TypeError ∧
    ∃ tip, reachable (store no_lengths) (root no_lengths) tip ∧
      is_terminal (store no_lengths) tip = true ∧
      (branch_length (store no_lengths !!! tip) = None ∨
       name (store no_lengths !!! tip) = None)) ∨
   (TypeError = KeyError ∧ is_terminal (store no_lengths) (root no_lengths) = true ∧
    ∃ b, branch_length (store no_lengths !!! root no_lengths) = Some b ∧
         (b <= 1#2)%Q)).
Proof.
  assert (Hwf : well_formed no_lengths).
  { apply (check_tree_sound _ (depth_of [0; 1; 1]) (seq 0 3)).
    vm_compute. reflexivity. }
  assert (Hrun : collapse_polytomies 10 no_lengths (1#2)%Q = Raise TypeError)
    by (vm_compute; reflexivity).
  split; [exact Hwf|]. split; [exact Hrun|].
  exact (collapse_errors 10 no_lengths (1#2)%Q TypeError Hwf Hrun).
Defined.
(** * More of the code: the command line *)

(** X19: the pipeline of the command line (read the labels, annotate,
    serialize) returns a graph, given enough fuel, when every row of the
    label file has an index and a name of four fields or more, the tree is
    well formed, every clade below the root has a branch length, every tip
    has a name, the root is not a tip with a length at or below [minlen],
    and every field between the bars of every name is the index of some
    row. *)
Theorem main_returns ctree rows m :
  well_formed ctree →
  Forall (λ row, is_Some (row !! "index") ∧
                 ∃ nm, row !! "name" = Some nm ∧ 4 ≤ length (split_bar nm))
         rows →
  (∀ v, reachable (store ctree) (root ctree) v →
        is_terminal (store ctree) v = true →
        ∃ b, branch_length (store ctree !!! v) = Some b ∧
             is_Some (name (store ctree !!! v)) ∧
             (v = root ctree → (m < b)%Q)) →
  (∀ v, reachable (store ctree) (root ctree) v → v ≠ root ctree →
        is_Some (branch_length (store ctree !!! v))) →
  (∀ v n, reachable (store ctree) (root ctree) v →
          name (store ctree !!! v) = Some n →
          Forall (λ k, ∃ row, row ∈ rows ∧ row !! "index" = Some k)
                 (split_bar n)) →
  ∃ N, ∀ fuel, N ≤ fuel → ∃ g, main fuel ctree rows m = Ok g.
Proof.
  intros Hwf Hrows Htips Hlen Hnames.
  destruct (parse_labels_complete rows) as [d Hd].
  { eapply Forall_impl; [exact Hrows|]. intros row [Hi (nm & -> & _)]. eauto. }
  pose proof (parse_labels_lookup rows d Hd) as Hlookup.
  assert (Hknown : ∀ v n, reachable (store ctree) (root ctree) v →
            name (store ctree !!! v) = Some n → known_name d n).
  { intros v n Hv Hn. eapply Forall_impl; [exact (Hnames v n Hv Hn)|].
    intros k (row & Hrow & Hi). simpl. rewrite Hlookup.
    rewrite Forall_forall in Hrows.
    destruct (Hrows row Hrow) as [_ (nm & Hnm & _)].
    rewrite decide_False; [eauto|]. intros Hnil.
    assert (Hin : nm ∈ names_with_index k rows).
    { apply elem_of_names_with_index. by exists row. }
    rewrite Hnil in Hin. by apply elem_of_nil in Hin. }
  assert (Hfields : ∀ k ls label, d !! k = Some ls → label ∈ ls →
            4 ≤ length (split_bar label)).
  { intros k ls label Hk Hin. rewrite Hlookup in Hk.
    destruct (decide (names_with_index k rows = [])); [done|].
    injection Hk as <-.
    apply elem_of_names_with_index in Hin as (row & Hrow & _ & Hnm).
    rewrite Forall_forall in Hrows.
    destruct (Hrows row Hrow) as [_ (nm & Hnm' & Hfour)]. congruence. }
  destruct (annotate_collapsed_returns ctree d m Hwf Htips Hknown)
    as [N1 HN1].
  destruct (HN1 N1) as [t0 Ht0]; [done|].
  destruct (annotate_collapsed_inv _ _ _ _ _ Hwf Ht0) as (tc & Hc & _).
  destruct (traversals_total tc (collapse_well_formed _ _ _ _ Hwf Hc))
    as [N2 HN2].
  exists (N1 `max` N2). intros fuel Hfuel.
  destruct (HN1 fuel) as [t' Ht']; [lia|].
  destruct (HN2 fuel) as [_ [order Ho]]; [lia|].
  assert (Hc' : collapse_polytomies fuel ctree m = Ok tc).
  { apply (collapse_fuel_mono N1); [done|lia]. }
  destruct (serialize_annotated_returns fuel ctree d m t' tc fuel order
              Hwf Ht' Hc' Ho Hlen Hfields) as [g Hg].
  exists g. unfold main. rewrite Hd. simpl.
  rewrite annotate_tree_result, Ht'. simpl. done.
Qed.

Lemma main_returns_witness :
  well_formed four_tips ∧
  ∃ N, ∀ fuel, N ≤ fuel → ∃ g, main fuel four_tips four_rows (1#2)%Q = Ok g.
Proof.
  assert (Hwf : well_formed four_tips).
  { apply (check_tree_sound _ (depth_of [0; 1; 2; 2; 1; 2; 2]) (seq 0 7)).
    vm_compute. reflexivity. }
  split; [exact Hwf|].
  apply (main_returns four_tips four_rows (1#2)%Q Hwf).
  - repeat (apply Forall_cons; split;
            [split; [vm_compute; eauto|];
             eexists; split; [vm_compute; reflexivity|vm_compute; lia]|]).
    apply Forall_nil_2.
  - intros v Hv Hterm.
    apply (preorder_reachable 10 _ _ [0; 1; 2; 3; 4; 5; 6]) in Hv;
      [|vm_compute; reflexivity].
    repeat (apply elem_of_cons in Hv as [->|Hv]);
      [..|by apply elem_of_nil in Hv];
      vm_compute in Hterm; try discriminate Hterm;
      (eexists; split; [reflexivity|]; split; [vm_compute; eauto|];
       intros Hroot; vm_compute in Hroot; discriminate Hroot).
  - intros v Hv Hroot.
    apply (preorder_reachable 10 _ _ [0; 1; 2; 3; 4; 5; 6]) in Hv;
      [|vm_compute; reflexivity].
    repeat (apply elem_of_cons in Hv as [->|Hv]);
      [..|by apply elem_of_nil in Hv];
      try (by destruct Hroot); vm_compute; eauto.
  - intros v n Hv Hn.
    apply (preorder_reachable 10 _ _ [0; 1; 2; 3; 4; 5; 6]) in Hv;
      [|vm_compute; reflexivity].
    repeat (apply elem_of_cons in Hv as [->|Hv]);
      [..|by apply elem_of_nil in Hv];
      vm_compute in Hn; try discriminate Hn; injection Hn as <-;
      (apply Forall_cons; split; [|apply Forall_nil_2]).
    + exists {[ "index" := "A"; "name" := "A|acc1|r|c|2021-01-01" ]}.
      split; [|vm_compute; reflexivity]. apply elem_of_cons. by left.
    + exists {[ "index" := "B"; "name" := "B|acc2|r|c|2021-02-01" ]}.
      split; [|vm_compute; reflexivity].
      do 2 (apply elem_of_cons; right). apply elem_of_cons. by left.
    + exists {[ "index" := "C"; "name" := "C|acc3|r|c|2021-02-01" ]}.
      split; [|vm_compute; reflexivity].
      do 3 (apply elem_of_cons; right). apply elem_of_cons. by left.
    + exists {[ "index" := "D"; "name" := "D|acc4|r|c|2021-02-01" ]}.
      split; [|vm_compute; reflexivity].
      do 4 (apply elem_of_cons; right). apply elem_of_cons. by left.
Defined.
